(** * Orderbook: a shallow embedding of the settlement contract

    The development follows [contract Orderbook] (Solidity, pragma ^0.8.0):
    internal balances, EIP-712 order hashing, single and batch fills,
    cancellation.  Storage mappings are finite maps whose missing keys read
    as zero / false; [uint256] and [address] values are integers in [Z] with
    the compiler's checked arithmetic written out (overflow and underflow
    abort with [Panic 0x11], division by zero with [Panic 0x12], an index out
    of range with [Panic 0x32]).

    Every function runs in a state-and-error monad that keeps the state
    reached at the point of failure, so that "all checks happen before any
    write" is a statement about the code; [transact] then adds the rollback
    the EVM performs when a call reverts.

    What the contract imports from OpenZeppelin and the EVM (keccak256, the
    EIP-712 domain wrapper, ECDSA recovery, the ERC-20 token behind
    SafeERC20) is an interface, [Externals].  A token call either reverts or
    moves the external state; the token is taken not to call back into the
    contract while it runs ([nonReentrant] would refuse it on the four guarded
    functions; the two cancellation functions carry no guard).

    The contract's events are kept as a log in the state.  [Module Relay]
    follows the off-chain server that consumes them (orderbook-ws-server):
    its order table ([OrderService]) and the listener that updates the table
    from the [OrderFilled] and [OrderCancelled] events, so that what the
    relay shows can be compared with what the contract holds. *)

From Stdlib Require Import ZArith Lia List.
From Stdlib Require Import Strings.String Strings.Byte.
From stdpp Require Import base option gmap fin_maps.
Import ListNotations.

Open Scope Z_scope.

(** ** Solidity value types *)

Abbreviation address := Z (only parsing).
Abbreviation uint256 := Z (only parsing).
Abbreviation bytes32 := Z (only parsing).
Abbreviation bytes := (list byte) (only parsing).

Definition MAX_UINT256 : Z := 2 ^ 256 - 1.
Definition MAX_ADDRESS : Z := 2 ^ 160 - 1.

Definition is_uint256 (x : Z) : Prop := 0 <= x <= MAX_UINT256.
Definition is_address (x : Z) : Prop := 0 <= x <= MAX_ADDRESS.

(** ** Errors: the contract's custom errors, then what its libraries and the
    compiler raise *)

Inductive Error : Type :=
  | InvalidTokenAddress
  | InsufficientBalance
  | OrderExpired
  | NotAuthorizedTaker
  | OrderAlreadyCancelled
  | InvalidSignature
  | InsufficientOrderRemaining
  | MakerInsufficientBalance
  | TakerInsufficientBalance
  | ArrayLengthMismatch
  | OnlyMakerCanCancel
  | TooManyOrders
  | Panic (code : Z)
  | ReentrancyGuardReentrantCall
  | ECDSAInvalidSignature
  | SafeERC20FailedOperation.

Definition PANIC_ARITHMETIC : Z := 17.      (* 0x11 *)
Definition PANIC_DIVISION_BY_ZERO : Z := 18. (* 0x12 *)
Definition PANIC_ARRAY_BOUNDS : Z := 50.     (* 0x32 *)

(** The twelve errors declared by the contract itself. *)
Definition declared_error (e : Error) : bool :=
  match e with
  | Panic _ | ReentrancyGuardReentrantCall
  | ECDSAInvalidSignature | SafeERC20FailedOperation => false
  | _ => true
  end.

(** ** Checked arithmetic of Solidity >= 0.8 on uint256 *)

Definition checked_add (a b : uint256) : Error + uint256 :=
  if MAX_UINT256 <? a + b then inl (Panic PANIC_ARITHMETIC) else inr (a + b).

Definition checked_sub (a b : uint256) : Error + uint256 :=
  if a <? b then inl (Panic PANIC_ARITHMETIC) else inr (a - b).

Definition checked_mul (a b : uint256) : Error + uint256 :=
  if MAX_UINT256 <? a * b then inl (Panic PANIC_ARITHMETIC) else inr (a * b).

Definition checked_div (a b : uint256) : Error + uint256 :=
  if b =? 0 then inl (Panic PANIC_DIVISION_BY_ZERO) else inr (a / b).

(** ** The order struct and the events *)

Record Order : Type := mkOrder {
  maker : address;
  taker : address;
  tokenSell : address;
  tokenBuy : address;
  amountSell : uint256;
  amountBuy : uint256;
  expiration : uint256;
  salt : uint256
}.

Definition wf_order (o : Order) : Prop :=
  is_address (maker o) /\ is_address (taker o) /\
  is_address (tokenSell o) /\ is_address (tokenBuy o) /\
  is_uint256 (amountSell o) /\ is_uint256 (amountBuy o) /\
  is_uint256 (expiration o) /\ is_uint256 (salt o).

Inductive Event : Type :=
  | Deposit (user token : address) (amount : uint256)
  | Withdrawal (user token : address) (amount : uint256)
  | OrderFilled (orderHash : bytes32) (filler : address) (amountFilled : uint256)
  | OrderCancelled (orderHash : bytes32) (maker : address).

(** msg.sender and block.timestamp of the running call. *)
Record Env : Type := mkEnv {
  msg_sender : address;
  block_timestamp : uint256
}.

(** ** abi.encode of static words: 32 bytes each, big endian *)

Definition byte_of_Z (z : Z) : byte :=
  match Byte.of_N (Z.to_N z) with
  | Some b => b
  | None => Byte.x00
  end.

Definition Z_of_byte (b : byte) : Z := Z.of_N (Byte.to_N b).

Fixpoint be_bytes (n : nat) (x : Z) : bytes :=
  match n with
  | O => []
  | S n' => be_bytes n' (x / 256) ++ [byte_of_Z (x mod 256)]
  end.

Definition be_value (l : bytes) : Z :=
  fold_left (fun acc b => acc * 256 + Z_of_byte b) l 0.

Definition abi_word (x : Z) : bytes := be_bytes 32 x.

Definition abi_encode (ws : list Z) : bytes := List.concat (List.map abi_word ws).

(** ** What the contract imports *)

Class Externals : Type := {
  (** state of the world outside the contract (the ERC-20 tokens) *)
  Ext : Type;
  (** the EVM's keccak256 *)
  keccak256 : bytes -> bytes32;
  (** EIP712._hashTypedDataV4, with the domain separator of
      EIP712("Orderbook", "1") at this address and chain *)
  _hashTypedDataV4 : bytes32 -> bytes32;
  (** ECDSA.recover: [None] when the library reverts on the signature *)
  ECDSA_recover : bytes32 -> bytes -> option address;
  (** SafeERC20.safeTransferFrom token from to amount: [None] on revert *)
  safeTransferFrom : address -> address -> address -> uint256 -> Ext -> option Ext;
  (** SafeERC20.safeTransfer token to amount, sent by this contract *)
  safeTransfer : address -> address -> uint256 -> Ext -> option Ext;
  (** address(this) *)
  this : address
}.

(** The idealisation under which a digest identifies its preimage. *)
Class CollisionFree `{Externals} : Prop := {
  keccak256_inj : forall a b : bytes, keccak256 a = keccak256 b -> a = b;
  _hashTypedDataV4_inj :
    forall a b : bytes32, _hashTypedDataV4 a = _hashTypedDataV4 b -> a = b
}.

(** ** Storage, and the monad the functions run in *)

Section Contract.
Context `{EXT : Externals}.

Record State : Type := mkState {
  filledAmountSell : gmap Z Z;
  balances : gmap (Z * Z) Z;
  cancelledOrders : gmap Z bool;
  entered : bool;          (* ReentrancyGuard's status *)
  tokens : Ext;
  events : list Event      (* the log, oldest first *)
}.

Definition M (A : Type) : Type := State -> (Error + A) * State.

Definition ret {A} (a : A) : M A := fun s => (inr a, s).

Definition bind {A B} (m : M A) (k : A -> M B) : M B :=
  fun s =>
    match m s with
    | (inr a, s') => k a s'
    | (inl e, s') => (inl e, s')
    end.

Definition revert_with {A} (e : Error) : M A := fun s => (inl e, s).

Definition gets {A} (f : State -> A) : M A := fun s => (inr (f s), s).

Definition modify (f : State -> State) : M unit := fun s => (inr tt, f s).

Definition lift {A} (r : Error + A) : M A :=
  match r with
  | inl e => revert_with e
  | inr a => ret a
  end.

End Contract.

Notation "x <- c1 ;; c2" := (bind c1 (fun x => c2))
  (at level 20, c1 at level 99, c2 at level 200, only parsing).
Notation "c1 ;; c2" := (bind c1 (fun _ => c2))
  (at level 100, c2 at level 200, right associativity, only parsing).

(** ** The contract *)

Section Orderbook.
Context `{EXT : Externals}.

(** A reverted call leaves no trace: the EVM restores the state the call
    started from. *)
Definition transact {A} (m : M A) (s : State) : (Error + A) * State :=
  match m s with
  | (inr a, s') => (inr a, s')
  | (inl e, _) => (inl e, s)
  end.

(** *** Storage access: a key that was never written reads as zero / false *)

Definition balance_of (user token : address) (s : State) : uint256 :=
  default 0 (balances s !! (user, token)).

Definition filled_of (digest : bytes32) (s : State) : uint256 :=
  default 0 (filledAmountSell s !! digest).

Definition is_cancelled (digest : bytes32) (s : State) : bool :=
  default false (cancelledOrders s !! digest).

Definition set_balance (user token : address) (v : uint256) (s : State) : State :=
  mkState (filledAmountSell s) (<[(user, token) := v]> (balances s))
          (cancelledOrders s) (entered s) (tokens s) (events s).

Definition set_filled (digest : bytes32) (v : uint256) (s : State) : State :=
  mkState (<[digest := v]> (filledAmountSell s)) (balances s)
          (cancelledOrders s) (entered s) (tokens s) (events s).

Definition set_cancelled (digest : bytes32) (v : bool) (s : State) : State :=
  mkState (filledAmountSell s) (balances s)
          (<[digest := v]> (cancelledOrders s)) (entered s) (tokens s) (events s).

Definition set_entered (v : bool) (s : State) : State :=
  mkState (filledAmountSell s) (balances s) (cancelledOrders s) v
          (tokens s) (events s).

Definition set_tokens (x : Ext) (s : State) : State :=
  mkState (filledAmountSell s) (balances s) (cancelledOrders s) (entered s)
          x (events s).

Definition append_event (e : Event) (s : State) : State :=
  mkState (filledAmountSell s) (balances s) (cancelledOrders s) (entered s)
          (tokens s) (events s ++ [e]).

Definition emit (e : Event) : M unit := modify (append_event e).

(** [balances[user][token] += amount] and [-= amount]: read, checked
    arithmetic, write back. *)
Definition balance_add (user token : address) (amount : uint256) : M unit :=
  b <- gets (balance_of user token) ;;
  b' <- lift (checked_add b amount) ;;
  modify (set_balance user token b').

Definition balance_sub (user token : address) (amount : uint256) : M unit :=
  b <- gets (balance_of user token) ;;
  b' <- lift (checked_sub b amount) ;;
  modify (set_balance user token b').

(** A call into a token: it either reverts or moves the external state. *)
Definition external_call (f : Ext -> option Ext) : M unit :=
  x <- gets tokens ;;
  match f x with
  | Some x' => modify (set_tokens x')
  | None => revert_with SafeERC20FailedOperation
  end.

(** *** Modifiers *)

(** ReentrancyGuard.nonReentrant: refuse when already inside a guarded
    function, otherwise hold the lock for the duration of the body. *)
Definition nonReentrant {A} (body : M A) : M A :=
  locked <- gets entered ;;
  if locked then revert_with ReentrancyGuardReentrantCall
  else
    modify (set_entered true) ;;
    r <- body ;;
    modify (set_entered false) ;;
    ret r.

Definition validToken {A} (token : address) (body : M A) : M A :=
  if token =? 0 then revert_with InvalidTokenAddress else body.

(** *** Constants *)

Definition MAX_BATCH_SIZE : uint256 := 5.

Definition ORDER_TYPEHASH : bytes32 :=
  keccak256 (list_byte_of_string
    "Order(address maker,address taker,address tokenSell,address tokenBuy,uint256 amountSell,uint256 amountBuy,uint256 expiration,uint256 salt)").

(** *** deposit and withdraw *)

Definition deposit (env : Env) (token : address) (amount : uint256) : M unit :=
  nonReentrant (validToken token (
    external_call (safeTransferFrom token (msg_sender env) this amount) ;;
    balance_add (msg_sender env) token amount ;;
    emit (Deposit (msg_sender env) token amount))).

Definition withdraw (env : Env) (token : address) (amount : uint256) : M unit :=
  nonReentrant (validToken token (
    b <- gets (balance_of (msg_sender env) token) ;;
    if b <? amount then revert_with InsufficientBalance
    else
      balance_sub (msg_sender env) token amount ;;
      external_call (safeTransfer token (msg_sender env) amount) ;;
      emit (Withdrawal (msg_sender env) token amount))).

(** *** Order hashing and signature verification *)

Definition _orderHash (order : Order) : bytes32 :=
  let structHash :=
    keccak256 (abi_encode
      [ ORDER_TYPEHASH; maker order; taker order; tokenSell order;
        tokenBuy order; amountSell order; amountBuy order;
        expiration order; salt order ]) in
  _hashTypedDataV4 structHash.

Definition getOrderHash (order : Order) : M bytes32 :=
  ret (_orderHash order).

(** digest.recover(signature): the library's revert propagates. *)
Definition recover (digest : bytes32) (signature : bytes) : M address :=
  match ECDSA_recover digest signature with
  | Some a => ret a
  | None => revert_with ECDSAInvalidSignature
  end.

Definition verifyOrder (order : Order) (signature : bytes) : M bool :=
  let structHash :=
    keccak256 (abi_encode
      [ ORDER_TYPEHASH; maker order; taker order; tokenSell order;
        tokenBuy order; amountSell order; amountBuy order;
        expiration order; salt order ]) in
  let digest := _hashTypedDataV4 structHash in
  recovered <- recover digest signature ;;
  ret (recovered =? maker order).

(** *** Filling *)

(** [(order.amountBuy * amountToFill) / order.amountSell], both operations
    checked. *)
Definition proportionalBuyAmount (order : Order) (amountToFill : uint256)
    : Error + uint256 :=
  match checked_mul (amountBuy order) amountToFill with
  | inl e => inl e
  | inr product => checked_div product (amountSell order)
  end.

Definition _fillOrder (env : Env) (order : Order) (amountToFill : uint256)
    (signature : bytes) : M unit :=
  if expiration order <? block_timestamp env then revert_with OrderExpired
  else
  if negb (taker order =? 0) && negb (taker order =? msg_sender env)
  then revert_with NotAuthorizedTaker
  else
  let digest := _orderHash order in
  cancelled <- gets (is_cancelled digest) ;;
  if cancelled then revert_with OrderAlreadyCancelled
  else
  recoveredSigner <- recover digest signature ;;
  if negb (recoveredSigner =? maker order) then revert_with InvalidSignature
  else
  filled <- gets (filled_of digest) ;;
  remainingSell <- lift (checked_sub (amountSell order) filled) ;;
  if remainingSell <? amountToFill then revert_with InsufficientOrderRemaining
  else
  buyAmount <- lift (proportionalBuyAmount order amountToFill) ;;
  makerBalance <- gets (balance_of (maker order) (tokenSell order)) ;;
  if makerBalance <? amountToFill then revert_with MakerInsufficientBalance
  else
  takerBalance <- gets (balance_of (msg_sender env) (tokenBuy order)) ;;
  if takerBalance <? buyAmount then revert_with TakerInsufficientBalance
  else
  balance_sub (maker order) (tokenSell order) amountToFill ;;
  balance_add (maker order) (tokenBuy order) buyAmount ;;
  balance_sub (msg_sender env) (tokenBuy order) buyAmount ;;
  balance_add (msg_sender env) (tokenSell order) amountToFill ;;
  filled' <- gets (filled_of digest) ;;
  filled'' <- lift (checked_add filled' amountToFill) ;;
  modify (set_filled digest filled'') ;;
  emit (OrderFilled digest (msg_sender env) amountToFill).

Definition fillOrder (env : Env) (order : Order) (amountToFill : uint256)
    (signature : bytes) : M unit :=
  nonReentrant (_fillOrder env order amountToFill signature).

(** [for (uint256 i = 0; i < n; i++) body(i)], the bound being fixed. *)
Fixpoint for_loop (n : nat) (i : nat) (body : nat -> M unit) : M unit :=
  match n with
  | O => ret tt
  | S n' => body i ;; for_loop n' (S i) body
  end.

(** [xs[i]] on a calldata array: out of range is a panic. *)
Definition index {A} (xs : list A) (i : nat) : M A :=
  match nth_error xs i with
  | Some x => ret x
  | None => revert_with (Panic PANIC_ARRAY_BOUNDS)
  end.

Definition fillOrdersBatch (env : Env) (orders : list Order)
    (amountsToFill : list uint256) (signatures : list bytes) : M unit :=
  nonReentrant (
    if negb (length orders =? length amountsToFill)%nat
       || negb (length orders =? length signatures)%nat
    then revert_with ArrayLengthMismatch
    else
    if MAX_BATCH_SIZE <? Z.of_nat (length orders) then revert_with TooManyOrders
    else
    for_loop (length orders) 0 (fun i =>
      o <- index orders i ;;
      a <- index amountsToFill i ;;
      sg <- index signatures i ;;
      _fillOrder env o a sg)).

(** *** Cancellation *)

Definition cancelOrder (env : Env) (order : Order) : M unit :=
  if negb (msg_sender env =? maker order) then revert_with OnlyMakerCanCancel
  else
  let orderHash := _orderHash order in
  modify (set_cancelled orderHash true) ;;
  emit (OrderCancelled orderHash (msg_sender env)).

Definition cancelOrdersBatch (env : Env) (orders : list Order) : M unit :=
  if MAX_BATCH_SIZE <? Z.of_nat (length orders) then revert_with TooManyOrders
  else
  for_loop (length orders) 0 (fun i =>
    o <- index orders i ;;
    if negb (msg_sender env =? maker o) then revert_with OnlyMakerCanCancel
    else
    let orderHash := _orderHash o in
    modify (set_cancelled orderHash true) ;;
    emit (OrderCancelled orderHash (msg_sender env))).

(** *** The external entry points, as one call type *)

Inductive Call : Type :=
  | CallDeposit (token : address) (amount : uint256)
  | CallWithdraw (token : address) (amount : uint256)
  | CallFillOrder (order : Order) (amountToFill : uint256) (signature : bytes)
  | CallFillOrdersBatch (orders : list Order) (amountsToFill : list uint256)
      (signatures : list bytes)
  | CallCancelOrder (order : Order)
  | CallCancelOrdersBatch (orders : list Order).

Definition dispatch (env : Env) (c : Call) : M unit :=
  match c with
  | CallDeposit token amount => deposit env token amount
  | CallWithdraw token amount => withdraw env token amount
  | CallFillOrder o a sg => fillOrder env o a sg
  | CallFillOrdersBatch os amts sgs => fillOrdersBatch env os amts sgs
  | CallCancelOrder o => cancelOrder env o
  | CallCancelOrdersBatch os => cancelOrdersBatch env os
  end.

(** One transaction: the state afterwards (unchanged when it reverted). *)
Definition step (s : State) (tx : Env * Call) : State :=
  snd (transact (dispatch (fst tx) (snd tx)) s).

(** A history of transactions, applied in order. *)
Definition run (txs : list (Env * Call)) (s : State) : State :=
  fold_left step txs s.

(** The state of a freshly deployed contract. *)
Definition initial_state (x : Ext) : State :=
  mkState ∅ ∅ ∅ false x [].

End Orderbook.

(** ** The relay: its order table and its listener of the contract's events

    The off-chain server (orderbook-ws-server) keeps one row per order in a
    table whose [orderHash] column is unique, and updates it from the
    [OrderFilled] and [OrderCancelled] events of the contract.  A row is
    keyed by the digest (ethers writes a bytes32 as one fixed hex string);
    its eight signed fields are kept as the struct they are encoded to when
    the server calls the contract; [amountFilled], a decimal string in the
    table, is kept as the integer it denotes (the code converts with
    [BigInt(..)] and [toString()]).  Database calls are taken to succeed (a
    failing one sends the event to the retry queue, which runs the same
    function later) and events to be processed one at a time, in log order. *)

Module Relay.

Inductive OrderStatus : Type :=
  | OPEN
  | PARTIALLY_FILLED
  | FILLED
  | CANCELLED
  | EXPIRED.

Record OrderRow : Type := mkOrderRow {
  signed : Order;          (* maker, taker, ..., salt *)
  amountFilled : Z;
  signature : bytes;
  status : OrderStatus
}.

Abbreviation Table := (gmap Z OrderRow) (only parsing).


(** *** OrderService *)


Definition updateOrderFill (orderHash : bytes32) (amountFilled : Z)
    (status : OrderStatus) (db : Table) : option OrderRow * Table :=
  match db !! orderHash with
  | None => (None, db)
  | Some order =>
      let order := mkOrderRow (signed order) amountFilled (signature order) status in
      (Some order, <[orderHash := order]> db)
  end.

Definition cancelOrder (orderHash : bytes32) (db : Table)
    : option OrderRow * Table :=
  match db !! orderHash with
  | None => (None, db)
  | Some order =>
      let order :=
        mkOrderRow (signed order) (amountFilled order) (signature order) CANCELLED in
      (Some order, <[orderHash := order]> db)
  end.

Definition getOrderByHash (orderHash : bytes32) (db : Table) : option OrderRow :=
  db !! orderHash.



(** *** OrderbookContract: the event listener *)

(** The table, and the ['orderUpdated'] notifications emitted so far. *)
Record Listener : Type := mkListener {
  table : Table;
  emitted : list (bytes32 * OrderRow)
}.

Definition processOrderFilledEvent (orderHash : bytes32) (filler : address)
    (amountFilled : Z) (r : Listener) : Listener :=
  match getOrderByHash orderHash (table r) with
  | None => r
  | Some order =>
      let orderAmountSell := amountSell (signed order) in
      let newStatus :=
        if orderAmountSell <=? amountFilled then FILLED else PARTIALLY_FILLED in
      match updateOrderFill orderHash amountFilled newStatus (table r) with
      | (Some updatedOrder, db) =>
          mkListener db (emitted r ++ [(orderHash, updatedOrder)])
      | (None, db) => mkListener db (emitted r)
      end
  end.

Definition processOrderCancelledEvent (orderHash : bytes32) (maker : address)
    (r : Listener) : Listener :=
  match getOrderByHash orderHash (table r) with
  | None => r
  | Some order =>
      match cancelOrder orderHash (table r) with
      | (Some updatedOrder, db) =>
          mkListener db (emitted r ++ [(orderHash, updatedOrder)])
      | (None, db) => mkListener db (emitted r)
      end
  end.

(** The two handlers registered by [startListening]; no handler is registered
    for [Deposit] and [Withdrawal]. *)
Definition processEventWithRetry (e : Event) (r : Listener) : Listener :=
  match e with
  | OrderFilled orderHash filler amountFilled =>
      processOrderFilledEvent orderHash filler amountFilled r
  | OrderCancelled orderHash maker =>
      processOrderCancelledEvent orderHash maker r
  | _ => r
  end.

(** The listener fed with a log, oldest event first. *)
Definition listen (log : list Event) (r : Listener) : Listener :=
  fold_left (fun r e => processEventWithRetry e r) log r.

End Relay.

(** The commitment an event is about. *)
Definition event_digest (e : Event) : option bytes32 :=
  match e with
  | OrderFilled d _ _ => Some d
  | OrderCancelled d _ => Some d
  | _ => None
  end.

(** ** A test double for the imported interface

    Used to run the contract on concrete inputs.  The digest is an injective
    numeral of the bytes; a signature is 65 bytes (the signer, the digest it
    was made for, one recovery byte), any other length is refused the way the
    library refuses it; a token is a plain table of holdings whose transfers
    fail on insufficient funds. *)

Module Mock.

Definition digest_of (l : bytes) : bytes32 :=
  fold_left (fun acc b => acc * 256 + Z_of_byte b) l 1.

Definition typed_digest (structHash : bytes32) : bytes32 := 2 * structHash + 1.

Definition sign (signer : address) (digest : bytes32) : bytes :=
  be_bytes 32 signer ++ be_bytes 32 digest ++ [Byte.x1b].

Definition recover_signer (digest : bytes32) (signature : bytes) : option address :=
  if (length signature =? 65)%nat then
    if be_value (firstn 32 (skipn 32 signature)) =? digest mod 2 ^ 256
    then Some (be_value (firstn 32 signature))
    else None
  else None.

Definition holdings := gmap (Z * Z) Z.

Definition holding (token holder : address) (h : holdings) : Z :=
  default 0 (h !! (token, holder)).

Definition move (token from to : address) (amount : uint256) (h : holdings)
    : option holdings :=
  if holding token from h <? amount then None
  else
    let h1 := <[(token, from) := holding token from h - amount]> h in
    Some (<[(token, to) := holding token to h1 + amount]> h1).

Definition orderbook_address : address := 4096.

#[export] Instance externals : Externals := {|
  Ext := holdings;
  keccak256 := digest_of;
  _hashTypedDataV4 := typed_digest;
  ECDSA_recover := recover_signer;
  safeTransferFrom := fun token from to amount => move token from to amount;
  safeTransfer := fun token to amount => move token orderbook_address to amount;
  this := orderbook_address
|}.

(** Accounts and tokens of the scenarios. *)
Definition alice : address := 10.
Definition bob : address := 11.
Definition carol : address := 12.
Definition tokenA : address := 100.
Definition tokenB : address := 101.

Definition wallet : holdings :=
  <[(tokenA, alice) := 1000]> (<[(tokenB, bob) := 1000]> ∅).

Definition at_time (who : address) (now : uint256) : Env := mkEnv who now.

(** Sell 100 A for 200 B, open to any taker, valid until time 50. *)
Definition order1 : Order := mkOrder alice 0 tokenA tokenB 100 200 50 1.
Definition sig1 : bytes := sign alice (_orderHash order1).

(** Alice has deposited 100 A, Bob 500 B. *)
Definition funded : State :=
  run [ (at_time alice 1, CallDeposit tokenA 100);
        (at_time bob 2, CallDeposit tokenB 500) ] (initial_state wallet).

(** The history used below: two deposits, a partial fill, a withdrawal. *)
Definition history : list (Env * Call) :=
  [ (at_time alice 1, CallDeposit tokenA 100);
    (at_time bob 2, CallDeposit tokenB 500);
    (at_time bob 3, CallFillOrder order1 40 sig1);
    (at_time alice 4, CallWithdraw tokenB 30) ].

(** An order whose product [amountBuy * amountToFill] leaves uint256, made
    by an account that holds nothing. *)
Definition steep : Order := mkOrder carol 0 tokenA tokenB 4 (2 ^ 255) 50 7.


(** An order selling 3 for 10. *)
Definition thirds : Order := mkOrder alice 0 tokenA tokenB 3 10 50 3.
Definition thirds_sig : bytes := sign alice (_orderHash thirds).

(** A second open order of Alice's, and a batch of the two. *)
Definition order2 : Order := mkOrder alice 0 tokenA tokenB 50 100 50 4.
Definition sig2 : bytes := sign alice (_orderHash order2).

(** order1 again, with another salt. *)
Definition twin : Order := mkOrder alice 0 tokenA tokenB 100 200 50 9.

(** An order that sells nothing. *)
Definition hollow : Order := mkOrder alice 0 tokenA tokenB 0 200 50 5.
Definition hollow_sig : bytes := sign alice (_orderHash hollow).

(** An order priced below one: 100 A for 50 B. *)
Definition cheap : Order := mkOrder alice 0 tokenA tokenB 100 50 50 6.
Definition cheap_sig : bytes := sign alice (_orderHash cheap).

(** order1 filled in two parts, 40 and then 60. *)
Definition two_fills : list (Env * Call) :=
  [ (at_time alice 1, CallDeposit tokenA 100);
    (at_time bob 2, CallDeposit tokenB 500);
    (at_time bob 3, CallFillOrder order1 40 sig1);
    (at_time bob 4, CallFillOrder order1 60 sig1) ].

(** The deposits, then Alice cancels order2. *)
Definition cancelling : list (Env * Call) :=
  [ (at_time alice 1, CallDeposit tokenA 100);
    (at_time bob 2, CallDeposit tokenB 500);
    (at_time alice 3, CallCancelOrder order2) ].

(** The relay's table holding order1, open, nothing filled. *)
Definition book : Relay.Listener :=
  Relay.mkListener
    {[ _orderHash order1 := Relay.mkOrderRow order1 0 sig1 Relay.OPEN ]} [].

End Mock.

(** ** Quantities and invariants the properties are stated with *)

(** Total of a token over every account of the ledger. *)
Definition sum_token (token : address) (b : gmap (Z * Z) Z) : Z :=
  map_fold (fun k v acc => if decide (k.2 = token) then v + acc else acc) 0 b.

(** ** The log, read back *)

(** Total of the fills logged for a commitment. *)
Fixpoint filled_in_log (digest : bytes32) (log : list Event) : Z :=
  match log with
  | [] => 0
  | OrderFilled d _ a :: log' =>
      (if decide (d = digest) then a else 0) + filled_in_log digest log'
  | _ :: log' => filled_in_log digest log'
  end.

(** Whether a cancellation is logged for a commitment. *)
Fixpoint cancelled_in_log (digest : bytes32) (log : list Event) : bool :=
  match log with
  | [] => false
  | OrderCancelled d _ :: log' =>
      bool_decide (d = digest) || cancelled_in_log digest log'
  | _ :: log' => cancelled_in_log digest log'
  end.

(** Logged deposits of a token minus its logged withdrawals. *)
Fixpoint custody_in_log (token : address) (log : list Event) : Z :=
  match log with
  | [] => 0
  | Deposit _ t a :: log' =>
      (if decide (t = token) then a else 0) + custody_in_log token log'
  | Withdrawal _ t a :: log' =>
      - (if decide (t = token) then a else 0) + custody_in_log token log'
  | _ :: log' => custody_in_log token log'
  end.

Section Invariants.
Context `{EXT : Externals}.

(** *** [_fillOrder] in two halves: its checks, then its writes *)

(** The writes of [_fillOrder] (the four balance updates, the fill counter,
    the event), named so that lemmas can speak of them. *)
Definition settle (env : Env) (order : Order) (amountToFill : uint256)
    (buyAmount : uint256) : M unit :=
  let digest := _orderHash order in
  balance_sub (maker order) (tokenSell order) amountToFill ;;
  balance_add (maker order) (tokenBuy order) buyAmount ;;
  balance_sub (msg_sender env) (tokenBuy order) buyAmount ;;
  balance_add (msg_sender env) (tokenSell order) amountToFill ;;
  filled' <- gets (filled_of digest) ;;
  filled'' <- lift (checked_add filled' amountToFill) ;;
  modify (set_filled digest filled'') ;;
  emit (OrderFilled digest (msg_sender env) amountToFill).

(** The checks of [_fillOrder] read the state and never write it; as a
    function of the state they yield the error raised or the counter-amount
    to settle. *)
Definition fill_checks (env : Env) (order : Order) (amountToFill : uint256)
    (signature : bytes) (s : State) : Error + uint256 :=
  if expiration order <? block_timestamp env then inl OrderExpired
  else
  if negb (taker order =? 0) && negb (taker order =? msg_sender env)
  then inl NotAuthorizedTaker
  else
  let digest := _orderHash order in
  if is_cancelled digest s then inl OrderAlreadyCancelled
  else
  match ECDSA_recover digest signature with
  | None => inl ECDSAInvalidSignature
  | Some recoveredSigner =>
  if negb (recoveredSigner =? maker order) then inl InvalidSignature
  else
  match checked_sub (amountSell order) (filled_of digest s) with
  | inl e => inl e
  | inr remainingSell =>
  if remainingSell <? amountToFill then inl InsufficientOrderRemaining
  else
  match proportionalBuyAmount order amountToFill with
  | inl e => inl e
  | inr buyAmount =>
  if balance_of (maker order) (tokenSell order) s <? amountToFill
  then inl MakerInsufficientBalance
  else
  if balance_of (msg_sender env) (tokenBuy order) s <? buyAmount
  then inl TakerInsufficientBalance
  else inr buyAmount
  end end end.

(** [balances[user][token]] moved by [d] (negative for a debit). *)
Definition credit (user token : address) (d : Z) (s : State) : State :=
  set_balance user token (balance_of user token s + d) s.

(** The state a settlement that runs to its end produces. *)
Definition settled (env : Env) (order : Order) (amountToFill p : uint256)
    (s : State) : State :=
  let digest := _orderHash order in
  let s4 :=
    credit (msg_sender env) (tokenSell order) amountToFill
      (credit (msg_sender env) (tokenBuy order) (- p)
        (credit (maker order) (tokenBuy order) p
          (credit (maker order) (tokenSell order) (- amountToFill) s))) in
  append_event (OrderFilled digest (msg_sender env) amountToFill)
    (set_filled digest (filled_of digest s + amountToFill) s4).

(** *** Invariants *)

(** Every stored quantity is a uint256 (in particular, not negative). *)
Definition wf_ledger (s : State) : Prop :=
  map_Forall (fun _ v => is_uint256 v) (balances s) /\
  map_Forall (fun _ v => is_uint256 v) (filledAmountSell s).

(** ... and no guarded call is running: the states between transactions. *)
Definition wf_state (s : State) : Prop :=
  wf_ledger s /\ entered s = false.

(** No order is filled beyond what its maker sells. *)
Definition fill_bounded (s : State) : Prop :=
  forall o : Order, wf_order o -> filled_of (_orderHash o) s <= amountSell o.

(** Arguments as the ABI decoder delivers them. *)
Definition wf_call (c : Call) : Prop :=
  match c with
  | CallDeposit token amount => is_address token /\ is_uint256 amount
  | CallWithdraw token amount => is_address token /\ is_uint256 amount
  | CallFillOrder o a _ => wf_order o /\ is_uint256 a
  | CallFillOrdersBatch os amts _ => Forall wf_order os /\ Forall is_uint256 amts
  | CallCancelOrder o => wf_order o
  | CallCancelOrdersBatch os => Forall wf_order os
  end.

(** The elements of a batch, side by side. *)
Fixpoint zip3 {A B C} (xs : list A) (ys : list B) (zs : list C)
    : list (A * B * C) :=
  match xs, ys, zs with
  | x :: xs', y :: ys', z :: zs' => (x, y, z) :: zip3 xs' ys' zs'
  | _, _, _ => []
  end.

(** [_fillOrder] on each element in turn, inside one call. *)
Fixpoint fill_in_turn (env : Env) (xs : list (Order * uint256 * bytes))
    : M unit :=
  match xs with
  | [] => ret tt
  | (o, a, sg) :: xs' => _fillOrder env o a sg ;; fill_in_turn env xs'
  end.

(** [fillOrder] called once per element, as separate transactions by the same
    sender in the same block, stopping at the first that reverts; the state
    returned is the one reached so far. *)
Fixpoint fill_one_by_one (env : Env) (xs : list (Order * uint256 * bytes))
    (s : State) : (Error + unit) * State :=
  match xs with
  | [] => (inr tt, s)
  | (o, a, sg) :: xs' =>
      match transact (fillOrder env o a sg) s with
      | (inr _, s') => fill_one_by_one env xs' s'
      | (inl e, _) => (inl e, s)
      end
  end.

(** A batch as the single calls it stands for. *)
Definition singles (c : Call) : list Call :=
  match c with
  | CallFillOrdersBatch os amts sgs =>
      List.map (fun x => CallFillOrder (fst (fst x)) (snd (fst x)) (snd x))
               (zip3 os amts sgs)
  | CallCancelOrdersBatch os => List.map CallCancelOrder os
  | _ => [c]
  end.

Definition is_batch (c : Call) : bool :=
  match c with
  | CallFillOrdersBatch _ _ _ | CallCancelOrdersBatch _ => true
  | _ => false
  end.


(** The effect of a single call that did not revert. *)
Definition effect_of (env : Env) (c : Call) (s s' : State) : Prop :=
  match c with
  | CallDeposit token amount =>
      token <> 0 /\
      balance_of (msg_sender env) token s + amount <= MAX_UINT256 /\
      exists x',
        safeTransferFrom token (msg_sender env) this amount (tokens s) = Some x' /\
        s' = set_entered false
               (append_event (Deposit (msg_sender env) token amount)
                 (credit (msg_sender env) token amount
                   (set_tokens x' (set_entered true s))))
  | CallWithdraw token amount =>
      token <> 0 /\
      amount <= balance_of (msg_sender env) token s /\
      exists x',
        safeTransfer token (msg_sender env) amount (tokens s) = Some x' /\
        s' = set_entered false
               (append_event (Withdrawal (msg_sender env) token amount)
                 (set_tokens x'
                   (credit (msg_sender env) token (- amount)
                     (set_entered true s))))
  | CallFillOrder o a sg =>
      exists p,
        fill_checks env o a sg s = inr p /\
        settle env o a p (set_entered true s)
        = (inr tt, settled env o a p (set_entered true s)) /\
        s' = set_entered false (settled env o a p (set_entered true s))
  | CallCancelOrder o =>
      msg_sender env = maker o /\
      s' = append_event (OrderCancelled (_orderHash o) (msg_sender env))
             (set_cancelled (_orderHash o) true s)
  | _ => False
  end.

(** What a transaction moves across the custody boundary for a token: the
    amount of a deposit that went through, minus that of a withdrawal that
    went through, nothing for any other call. *)
Definition custody_delta (token : address) (s : State) (tx : Env * Call) : Z :=
  match snd tx, fst (transact (dispatch (fst tx) (snd tx)) s) with
  | CallDeposit t amount, inr _ => if decide (t = token) then amount else 0
  | CallWithdraw t amount, inr _ => if decide (t = token) then - amount else 0
  | _, _ => 0
  end.

Fixpoint net_custody (token : address) (txs : list (Env * Call)) (s : State)
    : Z :=
  match txs with
  | [] => 0
  | tx :: txs' => custody_delta token s tx + net_custody token txs' (step s tx)
  end.

(** The same for cancellations. *)
Fixpoint cancel_in_turn (env : Env) (os : list Order) : M unit :=
  match os with
  | [] => ret tt
  | o :: os' => cancelOrder env o ;; cancel_in_turn env os'
  end.

(** *** The log and the errors of a call *)


(** Every logged cancellation was sent by the maker of an order with that
    commitment. *)
Definition cancellations_by_makers (log : list Event) : Prop :=
  forall d m, In (OrderCancelled d m) log ->
              exists o, wf_order o /\ _orderHash o = d /\ maker o = m.

(** Every logged fill is of an order with that commitment, for no more than
    the order sells, came with a signature of the order's maker, and was sent
    by the order's taker if the order names one. *)
Definition fills_authorised (log : list Event) : Prop :=
  forall d f a, In (OrderFilled d f a) log ->
                0 <= a /\
                exists o sg,
                  wf_order o /\ _orderHash o = d /\ a <= amountSell o /\
                  ECDSA_recover d sg = Some (maker o) /\
                  (taker o = 0 \/ taker o = f).

(** No fill of a commitment is logged after a cancellation of it. *)
Definition cancellation_final (d : bytes32) (log : list Event) : Prop :=
  forall before after m f a,
    log = before ++ OrderCancelled d m :: after ->
    ~ In (OrderFilled d f a) after.

(** The orders a call asks to fill, each with its amount and signature. *)
Definition fills_of (c : Call) : list (Order * uint256 * bytes) :=
  match c with
  | CallFillOrder o a sg => [(o, a, sg)]
  | CallFillOrdersBatch os amts sgs => zip3 os amts sgs
  | _ => []
  end.

(** A token as the ledger takes it to be: a transfer that goes through moves
    exactly [amount] of that token, and of no other, into or out of the
    contract's own holding; [held token x] stands for
    [IERC20(token).balanceOf(address(this))] in the external state [x]. *)
Definition standard_token (held : address -> Ext -> Z) : Prop :=
  (forall token from amount x x',
     from <> this ->
     safeTransferFrom token from this amount x = Some x' ->
     forall t, held t x' = held t x + (if decide (t = token) then amount else 0)) /\
  (forall token to amount x x',
     to <> this ->
     safeTransfer token to amount x = Some x' ->
     forall t, held t x' = held t x - (if decide (t = token) then amount else 0)).



End Invariants.

(** ** The fill procedure as the specification words it

    Steps 1 to 7 of the specification's fillOrder, over the values they
    consult: the verdict is the rejection to raise, or [None] to go on to the
    balance update. *)


(** ** Tactics *)

(** Which of the four ledger entries coincide: decide every comparison, then
    identify the components of the pairs found equal. *)
Ltac entry_cases :=
  repeat case_decide;
  repeat match goal with
         | H : (_, _) = (_, _) |- _ =>
             let E1 := fresh "E" in
             let E2 := fresh "E" in
             injection H as E1 E2; try rewrite E1 in *; try rewrite E2 in *
         end;
  try congruence; try lia.

(** Proves the range conditions of concrete arguments. *)
Ltac in_range :=
  repeat first [ apply Forall_cons_2 | apply Forall_nil_2 | split ];
  vm_compute; discriminate.

(** Evaluates a closed equation or comparison. *)
Ltac evaluate := vm_compute; first [ reflexivity | discriminate ].

(** * Properties *)

(** ** Checked arithmetic *)

Lemma checked_add_inr a b c : checked_add a b = inr c -> c = a + b /\ a + b <= MAX_UINT256.
Proof. unfold checked_add. case (Z.ltb_spec MAX_UINT256 (a + b)); intros; [discriminate|]. split; [congruence | lia]. Qed.

Lemma checked_add_inl a b e : checked_add a b = inl e -> e = Panic PANIC_ARITHMETIC /\ MAX_UINT256 < a + b.
Proof. unfold checked_add. case (Z.ltb_spec MAX_UINT256 (a + b)); intros; [|discriminate]. split; [congruence | lia]. Qed.

Lemma checked_add_fits a b : a + b <= MAX_UINT256 -> checked_add a b = inr (a + b).
Proof. unfold checked_add. case (Z.ltb_spec MAX_UINT256 (a + b)); intros; [lia | reflexivity]. Qed.

Lemma checked_sub_inr a b c : checked_sub a b = inr c -> c = a - b /\ b <= a.
Proof. unfold checked_sub. case (Z.ltb_spec a b); intros; [discriminate|]. split; [congruence | lia]. Qed.

Lemma checked_sub_fits a b : b <= a -> checked_sub a b = inr (a - b).
Proof. unfold checked_sub. case (Z.ltb_spec a b); intros; [lia | reflexivity]. Qed.

Lemma checked_mul_fits a b : a * b <= MAX_UINT256 -> checked_mul a b = inr (a * b).
Proof. unfold checked_mul. case (Z.ltb_spec MAX_UINT256 (a * b)); intros; [lia | reflexivity]. Qed.

Lemma checked_mul_overflow a b : MAX_UINT256 < a * b -> checked_mul a b = inl (Panic PANIC_ARITHMETIC).
Proof. unfold checked_mul. case (Z.ltb_spec MAX_UINT256 (a * b)); intros; [reflexivity | lia]. Qed.

Lemma checked_div_nonzero a b : b <> 0 -> checked_div a b = inr (a / b).
Proof. unfold checked_div. case (Z.eqb_spec b 0); intros; [contradiction | reflexivity]. Qed.

Lemma checked_div_zero a : checked_div a 0 = inl (Panic PANIC_DIVISION_BY_ZERO).
Proof. reflexivity. Qed.

(** ** abi.encode is injective on words *)

Lemma Z_of_byte_of_Z z : 0 <= z < 256 -> Z_of_byte (byte_of_Z z) = z.
Proof.
  intros Hz. unfold Z_of_byte, byte_of_Z.
  destruct (Byte.of_N (Z.to_N z)) as [b|] eqn:E.
  - apply Byte.to_of_N in E. rewrite E. lia.
  - apply Byte.of_N_None_iff in E. lia.
Qed.

Lemma Z_of_byte_range b : 0 <= Z_of_byte b < 256.
Proof. unfold Z_of_byte. pose proof (Byte.to_N_bounded b). lia. Qed.

Lemma Z_of_byte_inj b1 b2 : Z_of_byte b1 = Z_of_byte b2 -> b1 = b2.
Proof.
  unfold Z_of_byte. intros H. apply N2Z.inj in H.
  pose proof (Byte.of_to_N b1) as H1. rewrite H in H1.
  rewrite Byte.of_to_N in H1. congruence.
Qed.

Lemma length_be_bytes n x : length (be_bytes n x) = n.
Proof.
  revert x. induction n as [|n IH]; intros x; simpl; [reflexivity|].
  rewrite length_app, IH. simpl. lia.
Qed.

Lemma be_value_snoc l b : be_value (l ++ [b]) = be_value l * 256 + Z_of_byte b.
Proof. unfold be_value. rewrite fold_left_app. reflexivity. Qed.

Lemma be_value_be_bytes n x : be_value (be_bytes n x) = x mod 256 ^ Z.of_nat n.
Proof.
  revert x. induction n as [|n IH]; intros x.
  - simpl. rewrite Z.mod_1_r. reflexivity.
  - cbn [be_bytes]. rewrite be_value_snoc, IH.
    rewrite Z_of_byte_of_Z by (apply Z.mod_pos_bound; lia).
    rewrite Nat2Z.inj_succ, Z.pow_succ_r by lia.
    rewrite (Z.rem_mul_r x 256 (256 ^ Z.of_nat n)) by lia. lia.
Qed.

Lemma abi_word_inj x y : is_uint256 x -> is_uint256 y -> abi_word x = abi_word y -> x = y.
Proof.
  unfold is_uint256, MAX_UINT256, abi_word. intros Hx Hy H.
  apply (f_equal be_value) in H. rewrite !be_value_be_bytes in H.
  change (256 ^ Z.of_nat 32) with (2 ^ 256) in H.
  rewrite !Z.mod_small in H by lia. exact H.
Qed.

Lemma abi_encode_cons x xs : abi_encode (x :: xs) = abi_word x ++ abi_encode xs.
Proof. reflexivity. Qed.

Lemma abi_encode_inj xs ys :
  Forall is_uint256 xs -> Forall is_uint256 ys -> length xs = length ys ->
  abi_encode xs = abi_encode ys -> xs = ys.
Proof.
  intros Hxs. revert ys. induction Hxs as [|x xs Hx _ IH]; intros ys Hys Hlen H.
  - destruct ys; [reflexivity | discriminate].
  - destruct Hys as [|y ys Hy Hys]; [discriminate|].
    rewrite !abi_encode_cons in H.
    apply app_inj_1 in H as [Hw Hrest];
      [| unfold abi_word; rewrite !length_be_bytes; reflexivity].
    f_equal; [apply abi_word_inj; assumption |].
    apply IH; [assumption | simpl in Hlen; lia | assumption].
Qed.

Lemma is_address_uint256 a : is_address a -> is_uint256 a.
Proof. unfold is_address, is_uint256, MAX_ADDRESS, MAX_UINT256. lia. Qed.

Section HashFacts.
Context `{EXT : Externals} `{CF : !CollisionFree}.

(** Under the collision-free idealisation an order is determined by its hash. *)
Lemma _orderHash_inj o1 o2 :
  wf_order o1 -> wf_order o2 -> _orderHash o1 = _orderHash o2 -> o1 = o2.
Proof.
  intros W1 W2 Heq. unfold _orderHash in Heq.
  apply _hashTypedDataV4_inj, keccak256_inj in Heq.
  rewrite (abi_encode_cons ORDER_TYPEHASH), (abi_encode_cons ORDER_TYPEHASH _) in Heq.
  apply app_inv_head in Heq.
  destruct W1 as (?&?&?&?&?&?&?&?), W2 as (?&?&?&?&?&?&?&?).
  apply abi_encode_inj in Heq;
    [| repeat (apply Forall_cons_2; [solve [auto using is_address_uint256] |]);
       apply Forall_nil_2 .. | reflexivity].
  destruct o1, o2; simpl in *. congruence.
Qed.

End HashFacts.

(** ** Totals over the ledger *)

Lemma sum_token_insert_fresh (token : Z) (k : Z * Z) (v : Z) (b : gmap (Z * Z) Z) :
  b !! k = None ->
  sum_token token (<[k := v]> b)
  = (if decide (k.2 = token) then v else 0) + sum_token token b.
Proof.
  intros Hk. unfold sum_token. rewrite map_fold_insert_L; [| | exact Hk].
  - case_decide; lia.
  - intros. repeat case_decide; lia.
Qed.

Lemma sum_token_delete (token : Z) (k : Z * Z) (v : Z) (b : gmap (Z * Z) Z) :
  b !! k = Some v ->
  sum_token token b
  = (if decide (k.2 = token) then v else 0) + sum_token token (delete k b).
Proof.
  intros Hk. unfold sum_token.
  rewrite (map_fold_delete_L _ _ k v b); [| | exact Hk].
  - case_decide; lia.
  - intros. repeat case_decide; lia.
Qed.

Lemma sum_token_insert (token user t0 v : Z) (b : gmap (Z * Z) Z) :
  sum_token token (<[(user, t0) := v]> b)
  = sum_token token b
    + (if decide (t0 = token) then v - default 0 (b !! (user, t0)) else 0).
Proof.
  destruct (b !! (user, t0)) as [old|] eqn:E; simpl.
  - rewrite <- (insert_delete_eq b).
    rewrite sum_token_insert_fresh by apply lookup_delete_eq.
    rewrite (sum_token_delete token _ _ _ E). simpl. case_decide; lia.
  - rewrite sum_token_insert_fresh by exact E. simpl. case_decide; lia.
Qed.

Lemma sum_token_empty (token : Z) : sum_token token ∅ = 0.
Proof. reflexivity. Qed.

Section Ledger.
Context `{EXT : Externals}.

(** *** Reading after writing *)

Lemma balance_of_set_balance u t u0 t0 v s :
  balance_of u t (set_balance u0 t0 v s)
  = if decide ((u0, t0) = (u, t)) then v else balance_of u t s.
Proof.
  unfold balance_of, set_balance; simpl. rewrite lookup_insert.
  case_decide; reflexivity.
Qed.

Lemma sum_token_set_balance token u0 t0 v s :
  sum_token token (balances (set_balance u0 t0 v s))
  = sum_token token (balances s)
    + (if decide (t0 = token) then v - balance_of u0 t0 s else 0).
Proof. unfold set_balance, balance_of; simpl. apply sum_token_insert. Qed.

Lemma filled_of_set_filled d d0 v s :
  filled_of d (set_filled d0 v s)
  = if decide (d0 = d) then v else filled_of d s.
Proof.
  unfold filled_of, set_filled; simpl. rewrite lookup_insert.
  case_decide; reflexivity.
Qed.

Lemma is_cancelled_set_cancelled d d0 v s :
  is_cancelled d (set_cancelled d0 v s)
  = if decide (d0 = d) then v else is_cancelled d s.
Proof.
  unfold is_cancelled, set_cancelled; simpl. rewrite lookup_insert.
  case_decide; reflexivity.
Qed.

(** *** The two ledger updates, as equations *)

Lemma balance_add_eq u t x s :
  balance_add u t x s
  = if MAX_UINT256 <? balance_of u t s + x
    then (inl (Panic PANIC_ARITHMETIC), s)
    else (inr tt, set_balance u t (balance_of u t s + x) s).
Proof.
  unfold balance_add, bind, gets, lift, checked_add.
  destruct (MAX_UINT256 <? balance_of u t s + x); reflexivity.
Qed.

Lemma balance_sub_eq u t x s :
  balance_sub u t x s
  = if balance_of u t s <? x
    then (inl (Panic PANIC_ARITHMETIC), s)
    else (inr tt, set_balance u t (balance_of u t s - x) s).
Proof.
  unfold balance_sub, bind, gets, lift, checked_sub.
  destruct (balance_of u t s <? x); reflexivity.
Qed.

Lemma balance_of_credit u t u0 t0 d s :
  balance_of u t (credit u0 t0 d s)
  = balance_of u t s + (if decide ((u0, t0) = (u, t)) then d else 0).
Proof.
  unfold credit. rewrite balance_of_set_balance.
  case_decide as E; [inversion E; subst; reflexivity | lia].
Qed.

Lemma sum_token_credit token u0 t0 d s :
  sum_token token (balances (credit u0 t0 d s))
  = sum_token token (balances s) + (if decide (t0 = token) then d else 0).
Proof.
  unfold credit. rewrite sum_token_set_balance. case_decide; lia.
Qed.

Lemma balance_add_inr u t x s s' :
  balance_add u t x s = (inr tt, s') ->
  s' = credit u t x s /\ balance_of u t s + x <= MAX_UINT256.
Proof.
  rewrite balance_add_eq. case (Z.ltb_spec MAX_UINT256 (balance_of u t s + x));
    intros ? H; [discriminate|].
  split; [unfold credit; congruence | lia].
Qed.

Lemma balance_sub_inr u t x s s' :
  balance_sub u t x s = (inr tt, s') ->
  s' = credit u t (- x) s /\ x <= balance_of u t s.
Proof.
  rewrite balance_sub_eq. case (Z.ltb_spec (balance_of u t s) x);
    intros ? H; [discriminate|].
  split; [unfold credit | lia].
  replace (balance_of u t s + - x) with (balance_of u t s - x) by lia. congruence.
Qed.

(** *** Inversion of the monad's sequencing *)

Lemma bind_inr {A B} (m : M A) (k : A -> M B) s b s' :
  bind m k s = (inr b, s') ->
  exists a s1, m s = (inr a, s1) /\ k a s1 = (inr b, s').
Proof.
  unfold bind. destruct (m s) as [[e|a] s1]; intros H; [discriminate|].
  exists a, s1. split; [reflexivity | exact H].
Qed.

Lemma bind_inl {A B} (m : M A) (k : A -> M B) s e s' :
  bind m k s = (inl e, s') ->
  m s = (inl e, s') \/ exists a s1, m s = (inr a, s1) /\ k a s1 = (inl e, s').
Proof.
  unfold bind. destruct (m s) as [[e0|a] s1]; intros H.
  - left. congruence.
  - right. exists a, s1. split; [reflexivity | exact H].
Qed.

Lemma transact_inl {A} (m : M A) s e s' :
  transact m s = (inl e, s') -> s' = s.
Proof.
  unfold transact. destruct (m s) as [[e0|a] s1]; intros H; congruence.
Qed.

Lemma transact_inr {A} (m : M A) s a s' :
  transact m s = (inr a, s') -> m s = (inr a, s').
Proof.
  unfold transact. destruct (m s) as [[e0|a0] s1]; intros H; congruence.
Qed.

Lemma transact_fst_inl {A} (m : M A) s e :
  fst (transact m s) = inl e -> transact m s = (inl e, s).
Proof.
  unfold transact. destruct (m s) as [[e0|a] s1]; simpl; intros H; congruence.
Qed.

Lemma transact_fst_inr {A} (m : M A) s a :
  fst (transact m s) = inr a -> transact m s = (inr a, snd (transact m s)).
Proof.
  unfold transact. destruct (m s) as [[e0|a0] s1]; simpl; intros H; congruence.
Qed.

Lemma transact_of_inl {A} (m : M A) s e s1 :
  m s = (inl e, s1) -> transact m s = (inl e, s).
Proof. unfold transact. intros ->. reflexivity. Qed.

Lemma transact_of_inr {A} (m : M A) s a s1 :
  m s = (inr a, s1) -> transact m s = (inr a, s1).
Proof. unfold transact. intros ->. reflexivity. Qed.

(** *** The modifiers and [_fillOrder] in normal form *)

Lemma nonReentrant_eq {A} (body : M A) s :
  nonReentrant body s
  = if entered s then (inl ReentrancyGuardReentrantCall, s)
    else match body (set_entered true s) with
         | (inr a, s') => (inr a, set_entered false s')
         | (inl e, s') => (inl e, s')
         end.
Proof.
  unfold nonReentrant, bind, gets, modify, ret, revert_with.
  destruct (entered s); [reflexivity|].
  destruct (body (set_entered true s)) as [[e|a] s']; reflexivity.
Qed.

Lemma _fillOrder_eq env o a sg s :
  _fillOrder env o a sg s
  = match fill_checks env o a sg s with
    | inl e => (inl e, s)
    | inr p => settle env o a p s
    end.
Proof.
  unfold _fillOrder, fill_checks.
  destruct (expiration o <? block_timestamp env); [reflexivity|].
  destruct (negb (taker o =? 0) && negb (taker o =? msg_sender env));
    [reflexivity|].
  unfold bind at 1. unfold gets at 1.
  destruct (is_cancelled (_orderHash o) s); [reflexivity|].
  unfold bind at 1. unfold recover.
  destruct (ECDSA_recover (_orderHash o) sg) as [r|]; [|reflexivity].
  unfold ret at 1.
  destruct (negb (r =? maker o)); [reflexivity|].
  unfold bind at 1. unfold gets at 1. unfold bind at 1.
  destruct (checked_sub (amountSell o) (filled_of (_orderHash o) s)) as [e|rem];
    [reflexivity|].
  unfold lift at 1, ret at 1.
  destruct (rem <? a); [reflexivity|].
  unfold bind at 1.
  destruct (proportionalBuyAmount o a) as [e|p]; [reflexivity|].
  unfold lift at 1, ret at 1. unfold bind at 1. unfold gets at 1.
  destruct (balance_of (maker o) (tokenSell o) s <? a); [reflexivity|].
  unfold bind at 1. unfold gets at 1.
  destruct (balance_of (msg_sender env) (tokenBuy o) s <? p); reflexivity.
Qed.

(** *** Settlement *)

Lemma settle_inr env o a p s s' :
  settle env o a p s = (inr tt, s') ->
  s' = settled env o a p s /\ filled_of (_orderHash o) s + a <= MAX_UINT256.
Proof.
  unfold settle. intros H.
  apply bind_inr in H as ([] & s1 & H1 & H). apply balance_sub_inr in H1 as [-> _].
  apply bind_inr in H as ([] & s2 & H2 & H). apply balance_add_inr in H2 as [-> _].
  apply bind_inr in H as ([] & s3 & H3 & H). apply balance_sub_inr in H3 as [-> _].
  apply bind_inr in H as ([] & s4 & H4 & H). apply balance_add_inr in H4 as [-> _].
  unfold bind, gets, lift, modify, emit in H.
  match type of H with context [checked_add ?x ?y] =>
    destruct (checked_add x y) as [e|f] eqn:E end; [discriminate|].
  apply checked_add_inr in E as [-> E].
  unfold ret in H. split; [exact (eq_sym (f_equal snd H)) | exact E].
Qed.

Lemma settled_balance env o a p s u t :
  balance_of u t (settled env o a p s)
  = balance_of u t s
    - (if decide ((maker o, tokenSell o) = (u, t)) then a else 0)
    + (if decide ((maker o, tokenBuy o) = (u, t)) then p else 0)
    - (if decide ((msg_sender env, tokenBuy o) = (u, t)) then p else 0)
    + (if decide ((msg_sender env, tokenSell o) = (u, t)) then a else 0).
Proof.
  unfold settled.
  change (balance_of u t (append_event ?e (set_filled ?d ?v ?x)))
    with (balance_of u t x).
  rewrite !balance_of_credit. repeat case_decide; lia.
Qed.

Lemma settled_sum env o a p s token :
  sum_token token (balances (settled env o a p s))
  = sum_token token (balances s).
Proof.
  unfold settled.
  change (balances (append_event ?e (set_filled ?d ?v ?x))) with (balances x).
  rewrite !sum_token_credit. repeat case_decide; lia.
Qed.

Lemma settled_filled env o a p s d :
  filled_of d (settled env o a p s)
  = filled_of d s + (if decide (_orderHash o = d) then a else 0).
Proof.
  unfold settled.
  change (filled_of d (append_event ?e ?x)) with (filled_of d x).
  rewrite filled_of_set_filled.
  change (filled_of d (credit ?a1 ?a2 ?a3 (credit ?b1 ?b2 ?b3
           (credit ?c1 ?c2 ?c3 (credit ?d1 ?d2 ?d3 s))))) with (filled_of d s).
  case_decide; subst; lia.
Qed.

Lemma settled_cancelled env o a p s :
  cancelledOrders (settled env o a p s) = cancelledOrders s.
Proof. reflexivity. Qed.

Lemma settled_entered env o a p s :
  entered (settled env o a p s) = entered s.
Proof. reflexivity. Qed.

Lemma settled_tokens env o a p s :
  tokens (settled env o a p s) = tokens s.
Proof. reflexivity. Qed.

Lemma settled_events env o a p s :
  events (settled env o a p s)
  = events s ++ [OrderFilled (_orderHash o) (msg_sender env) a].
Proof. reflexivity. Qed.

(** Once the two balance checks have passed no debit can underflow, whoever
    the parties and whatever the tokens; a credit overflows only if the
    credited entry itself would leave uint256. *)
Lemma settle_ok env o a p s :
  0 <= a -> 0 <= p ->
  a <= balance_of (maker o) (tokenSell o) s ->
  p <= balance_of (msg_sender env) (tokenBuy o) s ->
  balance_of (maker o) (tokenBuy o) s + p <= MAX_UINT256 ->
  balance_of (msg_sender env) (tokenSell o) s + a <= MAX_UINT256 ->
  filled_of (_orderHash o) s + a <= MAX_UINT256 ->
  settle env o a p s = (inr tt, settled env o a p s).
Proof.
  intros Ha Hp Hm Ht Hmb Hts Hf. unfold settle, settled.
  unfold bind at 1. rewrite balance_sub_eq.
  case (Z.ltb_spec (balance_of (maker o) (tokenSell o) s) a); [lia | intros _].
  fold (credit (maker o) (tokenSell o) (- a) s).
  replace (set_balance (maker o) (tokenSell o)
             (balance_of (maker o) (tokenSell o) s - a) s)
    with (credit (maker o) (tokenSell o) (- a) s)
    by (unfold credit; f_equal; lia).
  set (s1 := credit (maker o) (tokenSell o) (- a) s).
  unfold bind at 1. rewrite balance_add_eq.
  assert (B1 : balance_of (maker o) (tokenBuy o) s1
               <= balance_of (maker o) (tokenBuy o) s).
  { subst s1. rewrite balance_of_credit. case_decide; lia. }
  case (Z.ltb_spec MAX_UINT256 (balance_of (maker o) (tokenBuy o) s1 + p));
    [lia | intros _].
  fold (credit (maker o) (tokenBuy o) p s1).
  set (s2 := credit (maker o) (tokenBuy o) p s1).
  unfold bind at 1. rewrite balance_sub_eq.
  assert (B2 : p <= balance_of (msg_sender env) (tokenBuy o) s2).
  { subst s2 s1. rewrite !balance_of_credit.
    entry_cases. }
  case (Z.ltb_spec (balance_of (msg_sender env) (tokenBuy o) s2) p);
    [lia | intros _].
  replace (set_balance (msg_sender env) (tokenBuy o)
             (balance_of (msg_sender env) (tokenBuy o) s2 - p) s2)
    with (credit (msg_sender env) (tokenBuy o) (- p) s2)
    by (unfold credit; f_equal; lia).
  set (s3 := credit (msg_sender env) (tokenBuy o) (- p) s2).
  unfold bind at 1. rewrite balance_add_eq.
  assert (B3 : balance_of (msg_sender env) (tokenSell o) s3
               <= balance_of (msg_sender env) (tokenSell o) s).
  { subst s3 s2 s1. rewrite !balance_of_credit.
    entry_cases. }
  case (Z.ltb_spec MAX_UINT256
          (balance_of (msg_sender env) (tokenSell o) s3 + a)); [lia | intros _].
  fold (credit (msg_sender env) (tokenSell o) a s3).
  set (s4 := credit (msg_sender env) (tokenSell o) a s3).
  unfold bind, gets, lift.
  change (filled_of (_orderHash o) s4) with (filled_of (_orderHash o) s).
  rewrite checked_add_fits by exact Hf. reflexivity.
Qed.

End Ledger.

(** ** Filling one order *)

Section Fill.
Context `{EXT : Externals}.

Lemma set_entered_true_false s :
  entered s = true -> set_entered true (set_entered false s) = s.
Proof. destruct s; simpl; intros ->; reflexivity. Qed.

Lemma settle_inl env o a p s e s' :
  settle env o a p s = (inl e, s') -> e = Panic PANIC_ARITHMETIC.
Proof.
  unfold settle. intros H.
  repeat match type of H with
  | bind (balance_sub _ _ _) _ _ = _ =>
      apply bind_inl in H as [H | (? & ? & _ & H)];
      [ rewrite balance_sub_eq in H; case_match; congruence |]
  | bind (balance_add _ _ _) _ _ = _ =>
      apply bind_inl in H as [H | (? & ? & _ & H)];
      [ rewrite balance_add_eq in H; case_match; congruence |]
  end.
  unfold bind, gets, lift, modify, emit, ret, revert_with in H.
  match type of H with context [checked_add ?x ?y] =>
    destruct (checked_add x y) as [e'|f] eqn:E end; [|discriminate].
  apply checked_add_inl in E as [-> _]. congruence.
Qed.

Lemma _fillOrder_inr env o a sg s s' :
  _fillOrder env o a sg s = (inr tt, s') ->
  exists p, fill_checks env o a sg s = inr p /\ s' = settled env o a p s
            /\ filled_of (_orderHash o) s + a <= MAX_UINT256.
Proof.
  rewrite _fillOrder_eq. destruct (fill_checks env o a sg s) as [e|p];
    [discriminate|].
  intros H. apply settle_inr in H as [-> Hf]. eauto.
Qed.


Lemma _fillOrder_entered env o a sg s s' :
  _fillOrder env o a sg s = (inr tt, s') -> entered s' = entered s.
Proof. intros H. apply _fillOrder_inr in H as (p & _ & -> & _). reflexivity. Qed.

Lemma fillOrder_transact env o a sg s :
  entered s = false ->
  transact (fillOrder env o a sg) s
  = match fill_checks env o a sg s with
    | inl e => (inl e, s)
    | inr p =>
        match settle env o a p (set_entered true s) with
        | (inr _, s1) => (inr tt, set_entered false s1)
        | (inl e, _) => (inl e, s)
        end
    end.
Proof.
  intros He. unfold transact, fillOrder. rewrite nonReentrant_eq, He.
  rewrite _fillOrder_eq.
  change (fill_checks env o a sg (set_entered true s))
    with (fill_checks env o a sg s).
  destruct (fill_checks env o a sg s) as [e|p]; [reflexivity|].
  destruct (settle env o a p (set_entered true s)) as [[e|[]] s1]; reflexivity.
Qed.

Lemma fillOrder_inr env o a sg s s' :
  entered s = false ->
  transact (fillOrder env o a sg) s = (inr tt, s') ->
  exists p, fill_checks env o a sg s = inr p
            /\ s' = set_entered false (settled env o a p (set_entered true s))
            /\ filled_of (_orderHash o) s + a <= MAX_UINT256.
Proof.
  intros He. rewrite fillOrder_transact by exact He.
  destruct (fill_checks env o a sg s) as [e|p]; [discriminate|].
  destruct (settle env o a p (set_entered true s)) as [[e|[]] s1] eqn:E;
    [discriminate|].
  apply settle_inr in E as [-> Hf]. intros H. exists p.
  split; [reflexivity|]. split; [congruence | exact Hf].
Qed.

Lemma fillOrder_reentrant env o a sg s :
  entered s = true ->
  transact (fillOrder env o a sg) s = (inl ReentrancyGuardReentrantCall, s).
Proof.
  intros He. unfold transact, fillOrder. rewrite nonReentrant_eq, He. reflexivity.
Qed.

(** What passing every check says about the arguments and the state. *)
Lemma fill_checks_inr env o a sg s p :
  fill_checks env o a sg s = inr p ->
  block_timestamp env <= expiration o /\
  (taker o = 0 \/ taker o = msg_sender env) /\
  is_cancelled (_orderHash o) s = false /\
  ECDSA_recover (_orderHash o) sg = Some (maker o) /\
  a <= amountSell o - filled_of (_orderHash o) s /\
  filled_of (_orderHash o) s <= amountSell o /\
  amountBuy o * a <= MAX_UINT256 /\
  amountSell o <> 0 /\
  p = amountBuy o * a / amountSell o /\
  a <= balance_of (maker o) (tokenSell o) s /\
  p <= balance_of (msg_sender env) (tokenBuy o) s.
Proof.
  unfold fill_checks, proportionalBuyAmount, checked_sub, checked_mul, checked_div.
  case (Z.ltb_spec (expiration o) (block_timestamp env)); [discriminate | intros H1].
  case (Z.eqb_spec (taker o) 0); simpl;
    [intros H2 | intros H2; case (Z.eqb_spec (taker o) (msg_sender env)); simpl;
       [intros H2' | discriminate]].
  all: destruct (is_cancelled (_orderHash o) s); [discriminate|].
  all: destruct (ECDSA_recover (_orderHash o) sg) as [r|]; [|discriminate].
  all: case (Z.eqb_spec r (maker o)); simpl; [intros -> | discriminate].
  all: case (Z.ltb_spec (amountSell o) (filled_of (_orderHash o) s));
         [discriminate | intros H5].
  all: case (Z.ltb_spec (amountSell o - filled_of (_orderHash o) s) a);
         [discriminate | intros H6].
  all: case (Z.ltb_spec MAX_UINT256 (amountBuy o * a)); [discriminate | intros H7].
  all: case (Z.eqb_spec (amountSell o) 0); [discriminate | intros H8].
  all: case (Z.ltb_spec (balance_of (maker o) (tokenSell o) s) a);
         [discriminate | intros H9].
  all: case (Z.ltb_spec (balance_of (msg_sender env) (tokenBuy o) s)
               (amountBuy o * a / amountSell o)); [discriminate | intros H10].
  all: intros [= <-]; repeat split; auto; lia.
Qed.

End Fill.

(** ** Batches *)

Section Batch.
Context `{EXT : Externals}.

Lemma bind_ext {A B} (m : M A) (k1 k2 : A -> M B) s :
  (forall a s1, k1 a s1 = k2 a s1) -> bind m k1 s = bind m k2 s.
Proof. intros H. unfold bind. destruct (m s) as [[e|a] s1]; [reflexivity | apply H]. Qed.

Lemma bind_unfold {A B} (m : M A) (k : A -> M B) s :
  bind m k s
  = match m s with
    | (inr a, s') => k a s'
    | (inl e, s') => (inl e, s')
    end.
Proof. reflexivity. Qed.

Lemma index_app_here {A} (pre xs : list A) (x : A) n s :
  length pre = n -> index (pre ++ x :: xs) n s = (inr x, s).
Proof.
  intros <-. unfold index. rewrite nth_error_app2 by lia.
  rewrite Nat.sub_diag. reflexivity.
Qed.

(** The loop of [fillOrdersBatch], reading three arrays of one length by
    index, visits the elements side by side and in order. *)
Lemma fill_loop_in_turn env os : forall pre_o pre_a pre_s amts sgs s,
  length pre_a = length pre_o -> length pre_s = length pre_o ->
  length amts = length os -> length sgs = length os ->
  for_loop (length os) (length pre_o) (fun i =>
      o <- index (pre_o ++ os) i ;;
      a <- index (pre_a ++ amts) i ;;
      sg <- index (pre_s ++ sgs) i ;;
      _fillOrder env o a sg) s
  = fill_in_turn env (zip3 os amts sgs) s.
Proof.
  induction os as [|o os IH]; intros pre_o pre_a pre_s amts sgs s Ha Hs Hla Hls.
  - reflexivity.
  - destruct amts as [|a amts]; [discriminate|].
    destruct sgs as [|sg sgs]; [discriminate|].
    cbn [length for_loop zip3 fill_in_turn].
    unfold bind at 1. unfold bind at 1.
    rewrite index_app_here by reflexivity.
    unfold bind at 1. rewrite index_app_here by exact Ha.
    unfold bind at 1. rewrite index_app_here by exact Hs.
    rewrite !(bind_unfold (_fillOrder env o a sg)).
    destruct (_fillOrder env o a sg s) as [[e|[]] s1]; [reflexivity|].
    specialize (IH (pre_o ++ [o]) (pre_a ++ [a]) (pre_s ++ [sg]) amts sgs s1).
    rewrite <- !app_assoc in IH. cbn [app] in IH.
    rewrite !length_app in IH. cbn [length] in IH.
    rewrite !Nat.add_1_r in IH.
    apply IH; simpl in *; lia.
Qed.

(** Inside one guarded call the elements see the same states as separate
    [fillOrder] transactions would. *)
Lemma fill_in_turn_one_by_one env xs : forall s,
  entered s = true ->
  match fill_in_turn env xs s with
  | (inr _, s') =>
      fill_one_by_one env xs (set_entered false s)
      = (inr tt, set_entered false s')
  | (inl e, _) =>
      exists s'', fill_one_by_one env xs (set_entered false s) = (inl e, s'')
  end.
Proof.
  induction xs as [|[[o a] sg] xs IH]; intros s He.
  - reflexivity.
  - cbn [fill_in_turn fill_one_by_one]. unfold bind.
    unfold transact, fillOrder. rewrite nonReentrant_eq.
    cbn [entered set_entered]. fold (set_entered false s).
    rewrite set_entered_true_false by exact He.
    destruct (_fillOrder env o a sg s) as [[e|[]] s1] eqn:E1.
    + eauto.
    + apply _fillOrder_entered in E1. rewrite He in E1.
      apply IH in E1. exact E1.
Qed.

Lemma fillOrdersBatch_transact env os amts sgs s :
  entered s = false ->
  length amts = length os -> length sgs = length os ->
  (length os <= 5)%nat ->
  transact (fillOrdersBatch env os amts sgs) s
  = match fill_one_by_one env (zip3 os amts sgs) s with
    | (inr _, s') => (inr tt, s')
    | (inl e, _) => (inl e, s)
    end.
Proof.
  intros He Ha Hs Hn. unfold transact, fillOrdersBatch.
  rewrite nonReentrant_eq, He, Ha, Hs, !Nat.eqb_refl. cbn [negb orb].
  case (Z.ltb_spec MAX_BATCH_SIZE (Z.of_nat (length os)));
    [unfold MAX_BATCH_SIZE; lia | intros _].
  pose proof (fill_loop_in_turn env os [] [] [] amts sgs (set_entered true s)
                eq_refl eq_refl Ha Hs) as L.
  cbn [app length] in L. rewrite L.
  pose proof (fill_in_turn_one_by_one env (zip3 os amts sgs)
                (set_entered true s) eq_refl) as T.
  replace (set_entered false (set_entered true s)) with s in T
    by (destruct s; simpl in *; subst; reflexivity).
  destruct (fill_in_turn env (zip3 os amts sgs) (set_entered true s))
    as [[e|[]] s1].
  - destruct T as [s'' ->]. reflexivity.
  - rewrite T. reflexivity.
Qed.

Lemma fillOrdersBatch_mismatch env os amts sgs s :
  entered s = false ->
  length os <> length amts \/ length os <> length sgs ->
  transact (fillOrdersBatch env os amts sgs) s = (inl ArrayLengthMismatch, s).
Proof.
  intros He Hl. unfold transact, fillOrdersBatch. rewrite nonReentrant_eq, He.
  assert (negb (length os =? length amts)%nat
          || negb (length os =? length sgs)%nat = true) as ->; [|reflexivity].
  destruct Hl as [Hl|Hl]; apply Nat.eqb_neq in Hl; rewrite Hl;
    [reflexivity | apply orb_true_r].
Qed.

Lemma fillOrdersBatch_too_many env os amts sgs s :
  entered s = false ->
  length amts = length os -> length sgs = length os ->
  (5 < length os)%nat ->
  transact (fillOrdersBatch env os amts sgs) s = (inl TooManyOrders, s).
Proof.
  intros He Ha Hs Hn. unfold transact, fillOrdersBatch.
  rewrite nonReentrant_eq, He, Ha, Hs, !Nat.eqb_refl. cbn [negb orb].
  case (Z.ltb_spec MAX_BATCH_SIZE (Z.of_nat (length os)));
    [reflexivity | unfold MAX_BATCH_SIZE; lia].
Qed.

End Batch.

(** ** Custody and cancellation in normal form *)

Section Calls.
Context `{EXT : Externals}.

Lemma deposit_transact env token amount s :
  entered s = false ->
  transact (deposit env token amount) s
  = if token =? 0 then (inl InvalidTokenAddress, s)
    else
      match safeTransferFrom token (msg_sender env) this amount (tokens s) with
      | None => (inl SafeERC20FailedOperation, s)
      | Some x' =>
          if MAX_UINT256 <? balance_of (msg_sender env) token s + amount
          then (inl (Panic PANIC_ARITHMETIC), s)
          else (inr tt,
                set_entered false
                  (append_event (Deposit (msg_sender env) token amount)
                    (credit (msg_sender env) token amount
                      (set_tokens x' (set_entered true s)))))
      end.
Proof.
  intros He. unfold transact, deposit. rewrite nonReentrant_eq, He.
  unfold validToken. destruct (token =? 0); [reflexivity|].
  unfold bind at 1. unfold external_call, bind at 1, gets at 1.
  cbn [tokens set_entered].
  destruct (safeTransferFrom token (msg_sender env) this amount (tokens s))
    as [x'|]; [|reflexivity].
  unfold modify at 1. fold (set_tokens x' (set_entered true s)).
  unfold bind at 1. rewrite balance_add_eq.
  change (balance_of (msg_sender env) token (set_tokens x' (set_entered true s)))
    with (balance_of (msg_sender env) token s).
  destruct (MAX_UINT256 <? balance_of (msg_sender env) token s + amount);
    reflexivity.
Qed.

Lemma withdraw_transact env token amount s :
  entered s = false ->
  transact (withdraw env token amount) s
  = if token =? 0 then (inl InvalidTokenAddress, s)
    else
      if balance_of (msg_sender env) token s <? amount
      then (inl InsufficientBalance, s)
      else
        match safeTransfer token (msg_sender env) amount (tokens s) with
        | None => (inl SafeERC20FailedOperation, s)
        | Some x' =>
            (inr tt,
             set_entered false
               (append_event (Withdrawal (msg_sender env) token amount)
                 (set_tokens x'
                   (credit (msg_sender env) token (- amount)
                     (set_entered true s)))))
        end.
Proof.
  intros He. unfold transact, withdraw. rewrite nonReentrant_eq, He.
  unfold validToken. destruct (token =? 0); [reflexivity|].
  unfold bind at 1. unfold gets at 1.
  change (balance_of (msg_sender env) token (set_entered true s))
    with (balance_of (msg_sender env) token s).
  destruct (balance_of (msg_sender env) token s <? amount) eqn:E; [reflexivity|].
  unfold bind at 1. rewrite balance_sub_eq.
  change (balance_of (msg_sender env) token (set_entered true s))
    with (balance_of (msg_sender env) token s).
  rewrite E.
  replace (set_balance (msg_sender env) token
             (balance_of (msg_sender env) token s - amount) (set_entered true s))
    with (credit (msg_sender env) token (- amount) (set_entered true s))
    by (unfold credit; f_equal;
        change (balance_of (msg_sender env) token (set_entered true s))
          with (balance_of (msg_sender env) token s); lia).
  unfold bind at 1. unfold external_call, bind at 1, gets at 1.
  cbn [tokens credit set_balance set_entered].
  destruct (safeTransfer token (msg_sender env) amount (tokens s)) as [x'|];
    reflexivity.
Qed.

Lemma guarded_reentrant {A} (body : M A) s :
  entered s = true ->
  transact (nonReentrant body) s = (inl ReentrancyGuardReentrantCall, s).
Proof. intros He. unfold transact. rewrite nonReentrant_eq, He. reflexivity. Qed.

Lemma cancelOrder_eq env o s :
  cancelOrder env o s
  = if msg_sender env =? maker o
    then (inr tt,
          append_event (OrderCancelled (_orderHash o) (msg_sender env))
            (set_cancelled (_orderHash o) true s))
    else (inl OnlyMakerCanCancel, s).
Proof.
  unfold cancelOrder. destruct (msg_sender env =? maker o); reflexivity.
Qed.

(** The loop of [cancelOrdersBatch] is [cancelOrder] on each element. *)
Lemma cancel_loop_in_turn env os : forall pre s,
  for_loop (length os) (length pre) (fun i =>
      o <- index (pre ++ os) i ;;
      if negb (msg_sender env =? maker o) then revert_with OnlyMakerCanCancel
      else
      let orderHash := _orderHash o in
      modify (set_cancelled orderHash true) ;;
      emit (OrderCancelled orderHash (msg_sender env))) s
  = cancel_in_turn env os s.
Proof.
  induction os as [|o os IH]; intros pre s.
  - reflexivity.
  - cbn [length for_loop cancel_in_turn].
    unfold bind at 1. unfold bind at 1.
    rewrite index_app_here by reflexivity.
    fold (cancelOrder env o). rewrite (bind_unfold (cancelOrder env o)).
    destruct (cancelOrder env o s) as [[e|[]] s1]; [reflexivity|].
    specialize (IH (pre ++ [o]) s1).
    rewrite <- app_assoc, length_app in IH. cbn [app length] in IH.
    rewrite Nat.add_1_r in IH. exact IH.
Qed.

Lemma cancelOrdersBatch_eq env os s :
  cancelOrdersBatch env os s
  = if MAX_BATCH_SIZE <? Z.of_nat (length os) then (inl TooManyOrders, s)
    else cancel_in_turn env os s.
Proof.
  unfold cancelOrdersBatch.
  destruct (MAX_BATCH_SIZE <? Z.of_nat (length os)); [reflexivity|].
  exact (cancel_loop_in_turn env os [] s).
Qed.

Lemma cancel_in_turn_refused env os : forall s,
  Exists (fun o => msg_sender env <> maker o) os ->
  exists s1, cancel_in_turn env os s = (inl OnlyMakerCanCancel, s1).
Proof.
  induction os as [|o os IH]; intros s Hex; [inversion Hex|].
  cbn [cancel_in_turn]. rewrite bind_unfold, cancelOrder_eq.
  destruct (Z.eqb_spec (msg_sender env) (maker o)) as [Heq|Hne]; [|eauto].
  apply IH. inversion Hex; subst; [contradiction | assumption].
Qed.

Lemma cancel_in_turn_accepted env os : forall s,
  Forall (fun o => msg_sender env = maker o) os ->
  exists s',
    cancel_in_turn env os s = (inr tt, s') /\
    balances s' = balances s /\
    filledAmountSell s' = filledAmountSell s /\
    forall d, is_cancelled d s' = true <->
              (is_cancelled d s = true \/ exists o, In o os /\ _orderHash o = d).
Proof.
  induction os as [|o os IH]; intros s Hall.
  - exists s. repeat split; try reflexivity; [tauto|].
    intros [H | (o & [] & _)]; exact H.
  - apply Forall_cons_1 in Hall as [Heq Hall].
    cbn [cancel_in_turn]. rewrite bind_unfold, cancelOrder_eq, Heq, Z.eqb_refl.
    destruct (IH (append_event (OrderCancelled (_orderHash o) (maker o))
                    (set_cancelled (_orderHash o) true s)) Hall)
      as (s' & -> & Hb & Hf & Hc).
    exists s'. split; [reflexivity|]. split; [exact Hb|]. split; [exact Hf|].
    intros d. rewrite Hc.
    change (is_cancelled d (append_event ?e ?x)) with (is_cancelled d x).
    rewrite is_cancelled_set_cancelled. split.
    + intros [H | (o' & Hin & Hd)].
      * case_decide as E; [right; exists o; split; [left; reflexivity | exact E]
                          | left; exact H].
      * right. exists o'. split; [right; exact Hin | exact Hd].
    + intros [H | (o' & [<- | Hin] & Hd)].
      * left. case_decide; [reflexivity | exact H].
      * left. case_decide; [reflexivity | contradiction].
      * right. exists o'. split; assumption.
Qed.

End Calls.

(** ** Every transaction is a sequence of single calls *)

Section Steps.
Context `{EXT : Externals}.

Lemma step_eq s env c : step s (env, c) = snd (transact (dispatch env c) s).
Proof. reflexivity. Qed.

Lemma step_reverted s env c e s0 :
  transact (dispatch env c) s = (inl e, s0) -> step s (env, c) = s.
Proof. intros H. rewrite step_eq, H. simpl. eapply transact_inl, H. Qed.

Lemma fill_one_by_one_run env xs : forall s s',
  fill_one_by_one env xs s = (inr tt, s') ->
  run (List.map (fun x => (env, CallFillOrder (fst (fst x)) (snd (fst x)) (snd x))) xs) s
  = s'.
Proof.
  induction xs as [|[[o a] sg] xs IH]; intros s s' H.
  - simpl in *. congruence.
  - cbn [fill_one_by_one] in H. cbn [List.map run fold_left fst snd].
    rewrite step_eq. cbn [dispatch].
    destruct (transact (fillOrder env o a sg) s) as [[e|[]] s1]; [discriminate|].
    apply IH in H. exact H.
Qed.

Lemma cancel_in_turn_run env os : forall s s',
  cancel_in_turn env os s = (inr tt, s') ->
  run (List.map (fun o => (env, CallCancelOrder o)) os) s = s'.
Proof.
  induction os as [|o os IH]; intros s s' H.
  - simpl in *. unfold ret in H. congruence.
  - cbn [cancel_in_turn] in H. apply bind_inr in H as ([] & s1 & H1 & H).
    cbn [List.map run fold_left]. rewrite step_eq. cbn [dispatch fst snd].
    rewrite (transact_of_inr _ _ _ _ H1). apply IH, H.
Qed.

Lemma step_as_singles env c s :
  step s (env, c) = s \/
  step s (env, c) = run (List.map (pair env) (singles c)) s.
Proof.
  destruct c as [token amount|token amount|o a sg|os amts sgs|o|os];
    try (right; reflexivity).
  - (* fillOrdersBatch *)
    rewrite step_eq. cbn [dispatch].
    destruct (entered s) eqn:He.
    { left. unfold fillOrdersBatch. rewrite guarded_reentrant by exact He.
      reflexivity. }
    destruct (Nat.eq_dec (length os) (length amts)) as [Ha|Ha];
      [| left; rewrite fillOrdersBatch_mismatch by auto; reflexivity].
    destruct (Nat.eq_dec (length os) (length sgs)) as [Hs|Hs];
      [| left; rewrite fillOrdersBatch_mismatch by auto; reflexivity].
    destruct (le_lt_dec (length os) 5) as [Hn|Hn];
      [| left; rewrite fillOrdersBatch_too_many by auto; reflexivity].
    rewrite fillOrdersBatch_transact by auto.
    destruct (fill_one_by_one env (zip3 os amts sgs) s) as [[e|[]] s'] eqn:E;
      [left; reflexivity|].
    right. cbn [snd singles]. rewrite List.map_map.
    symmetry. apply fill_one_by_one_run, E.
  - (* cancelOrdersBatch *)
    rewrite step_eq. cbn [dispatch]. unfold transact.
    rewrite cancelOrdersBatch_eq.
    destruct (MAX_BATCH_SIZE <? Z.of_nat (length os)); [left; reflexivity|].
    destruct (cancel_in_turn env os s) as [[e|[]] s'] eqn:E;
      [left; reflexivity|].
    right. cbn [snd singles]. rewrite List.map_map.
    symmetry. apply cancel_in_turn_run, E.
Qed.

Lemma run_rel (R : State -> State -> Prop) txs :
  (forall s, R s s) ->
  (forall s1 s2 s3, R s1 s2 -> R s2 s3 -> R s1 s3) ->
  (forall tx s, In tx txs -> R s (step s tx)) ->
  forall s, R s (run txs s).
Proof.
  intros Hrefl Htrans. induction txs as [|tx txs IH]; intros Hstep s.
  - apply Hrefl.
  - cbn [run fold_left]. apply Htrans with (step s tx).
    + apply Hstep. left. reflexivity.
    + apply IH. intros tx' s' Hin. apply Hstep. right. exact Hin.
Qed.

(** A relation between states that is reflexive, transitive and holds across
    each single call holds across every transaction. *)
Lemma step_rel (R : State -> State -> Prop) env c :
  (forall s, R s s) ->
  (forall s1 s2 s3, R s1 s2 -> R s2 s3 -> R s1 s3) ->
  (forall c' s, In c' (singles c) -> R s (step s (env, c'))) ->
  forall s, R s (step s (env, c)).
Proof.
  intros Hrefl Htrans Hsingle s.
  destruct (step_as_singles env c s) as [-> | ->]; [apply Hrefl|].
  apply run_rel; [assumption | assumption |].
  intros tx s' Hin. apply in_map_iff in Hin as (c' & <- & Hin).
  apply Hsingle, Hin.
Qed.

Lemma singles_wf c c' : wf_call c -> In c' (singles c) -> wf_call c'.
Proof.
  destruct c as [token amount|token amount|o a sg|os amts sgs|o|os];
    cbn [singles]; intros W Hin;
    try (destruct Hin as [<- | []]; exact W).
  - apply in_map_iff in Hin as ([[o a] sg] & <- & Hin). cbn [fst snd wf_call].
    destruct W as [Wo Wa]. revert amts sgs Wa Hin.
    induction Wo as [|o' os Ho _ IH]; intros amts sgs Wa Hin; [destruct Hin|].
    destruct Wa as [|a' amts Ha Wa]; [destruct Hin|].
    destruct sgs as [|sg' sgs]; [destruct Hin|].
    destruct Hin as [[= -> -> ->] | Hin]; [split; assumption|].
    eapply IH; eassumption.
  - apply in_map_iff in Hin as (o & <- & Hin). cbn [wf_call] in *.
    rewrite List.Forall_forall in W. apply W, Hin.
Qed.

Lemma singles_single c c' : In c' (singles c) -> is_batch c' = false.
Proof.
  destruct c; cbn [singles]; intros Hin;
    try (destruct Hin as [<- | []]; reflexivity).
  - apply in_map_iff in Hin as (x & <- & _). reflexivity.
  - apply in_map_iff in Hin as (x & <- & _). reflexivity.
Qed.



End Steps.

(** ** What one single call does to the state *)

Section SingleCalls.
Context `{EXT : Externals}.

Lemma single_call_cases env c s r s' :
  is_batch c = false ->
  transact (dispatch env c) s = (r, s') ->
  (exists e, r = inl e /\ s' = s) \/ (r = inr tt /\ effect_of env c s s').
Proof.
  intros Hb H.
  destruct r as [e|[]]; [left; exists e; split; [reflexivity | eapply transact_inl, H]|].
  right. split; [reflexivity|].
  destruct c as [token amount|token amount|o a sg|os amts sgs|o|os];
    try discriminate; cbn [dispatch effect_of] in *.
  - destruct (entered s) eqn:He;
      [unfold deposit in H; rewrite guarded_reentrant in H by exact He; discriminate|].
    rewrite deposit_transact in H by exact He.
    destruct (Z.eqb_spec token 0); [discriminate|].
    destruct (safeTransferFrom token (msg_sender env) this amount (tokens s))
      as [x'|]; [|discriminate].
    destruct (Z.ltb_spec MAX_UINT256 (balance_of (msg_sender env) token s + amount));
      [discriminate|].
    split; [assumption|]. split; [lia|]. exists x'. split; congruence.
  - destruct (entered s) eqn:He;
      [unfold withdraw in H; rewrite guarded_reentrant in H by exact He; discriminate|].
    rewrite withdraw_transact in H by exact He.
    destruct (Z.eqb_spec token 0); [discriminate|].
    destruct (Z.ltb_spec (balance_of (msg_sender env) token s) amount);
      [discriminate|].
    destruct (safeTransfer token (msg_sender env) amount (tokens s))
      as [x'|]; [|discriminate].
    split; [assumption|]. split; [lia|]. exists x'. split; congruence.
  - destruct (entered s) eqn:He;
      [rewrite fillOrder_reentrant in H by exact He; discriminate|].
    rewrite fillOrder_transact in H by exact He.
    destruct (fill_checks env o a sg s) as [e|p]; [discriminate|].
    destruct (settle env o a p (set_entered true s)) as [[e|[]] s1] eqn:E;
      [discriminate|].
    exists p. split; [reflexivity|].
    pose proof (settle_inr _ _ _ _ _ _ E) as [-> _].
    split; [exact E | congruence].
  - apply transact_inr in H. rewrite cancelOrder_eq in H.
    destruct (Z.eqb_spec (msg_sender env) (maker o)); [|discriminate].
    split; [assumption | congruence].
Qed.

(** The step of a single call: nothing, or its effect. *)
Lemma single_step env c s :
  is_batch c = false ->
  step s (env, c) = s \/ effect_of env c s (step s (env, c)).
Proof.
  intros Hb. rewrite step_eq.
  destruct (transact (dispatch env c) s) as [r s'] eqn:H.
  apply single_call_cases in H as [(e & _ & ->) | (_ & He)]; auto.
Qed.

End SingleCalls.

(** ** Stored quantities stay within uint256 *)

Section WellFormed.
Context `{EXT : Externals}.

Lemma balance_of_range u t s : wf_ledger s -> is_uint256 (balance_of u t s).
Proof.
  intros [Hb _]. unfold balance_of.
  destruct (balances s !! (u, t)) as [v|] eqn:E; simpl.
  - exact (Hb _ _ E).
  - unfold is_uint256, MAX_UINT256. lia.
Qed.

Lemma filled_of_range d s : wf_ledger s -> is_uint256 (filled_of d s).
Proof.
  intros [_ Hf]. unfold filled_of.
  destruct (filledAmountSell s !! d) as [v|] eqn:E; simpl.
  - exact (Hf _ _ E).
  - unfold is_uint256, MAX_UINT256. lia.
Qed.

Lemma credit_wf u t d s :
  wf_ledger s -> is_uint256 (balance_of u t s + d) -> wf_ledger (credit u t d s).
Proof.
  intros [Hb Hf] Hv. split; [|exact Hf].
  unfold credit, set_balance; simpl. apply map_Forall_insert_2; assumption.
Qed.

Lemma set_filled_wf d v s :
  wf_ledger s -> is_uint256 v -> wf_ledger (set_filled d v s).
Proof.
  intros [Hb Hf] Hv. split; [exact Hb|].
  unfold set_filled; simpl. apply map_Forall_insert_2; assumption.
Qed.

Lemma balance_add_wf u t x s s' :
  balance_add u t x s = (inr tt, s') -> wf_ledger s -> 0 <= x -> wf_ledger s'.
Proof.
  intros H W Hx. apply balance_add_inr in H as [-> Hle].
  apply credit_wf; [exact W|].
  pose proof (balance_of_range u t s W). unfold is_uint256 in *. lia.
Qed.

Lemma balance_sub_wf u t x s s' :
  balance_sub u t x s = (inr tt, s') -> wf_ledger s -> 0 <= x -> wf_ledger s'.
Proof.
  intros H W Hx. apply balance_sub_inr in H as [-> Hle].
  apply credit_wf; [exact W|].
  pose proof (balance_of_range u t s W). unfold is_uint256 in *. lia.
Qed.

Lemma settle_wf env o a p s s' :
  settle env o a p s = (inr tt, s') ->
  wf_ledger s -> 0 <= a -> 0 <= p -> wf_ledger s'.
Proof.
  unfold settle. intros H W Ha Hp.
  apply bind_inr in H as ([] & s1 & H1 & H). apply balance_sub_wf in H1; [|assumption..].
  apply bind_inr in H as ([] & s2 & H2 & H). apply balance_add_wf in H2; [|assumption..].
  apply bind_inr in H as ([] & s3 & H3 & H). apply balance_sub_wf in H3; [|assumption..].
  apply bind_inr in H as ([] & s4 & H4 & H). apply balance_add_wf in H4; [|assumption..].
  unfold bind, gets, lift, modify, emit in H.
  destruct (checked_add (filled_of (_orderHash o) s4) a) as [e|f] eqn:E;
    [discriminate|].
  apply checked_add_inr in E as [-> E]. unfold ret in H.
  apply (f_equal snd) in H. simpl in H. subst s'.
  change (wf_ledger (set_filled (_orderHash o) (filled_of (_orderHash o) s4 + a) s4)).
  apply set_filled_wf; [exact H4|].
  pose proof (filled_of_range (_orderHash o) s4 H4). unfold is_uint256 in *. lia.
Qed.

Lemma fill_checks_amount_nonneg env o a sg s p :
  fill_checks env o a sg s = inr p -> 0 <= amountBuy o -> 0 <= amountSell o ->
  0 <= a -> 0 <= p.
Proof.
  intros H Hb Hs Ha.
  apply fill_checks_inr in H as (_&_&_&_&_&_&_&Hne&->&_).
  apply Z.div_pos; [apply Z.mul_nonneg_nonneg; assumption | lia].
Qed.

(** Across every transaction the ledger stays well formed: no entry becomes
    negative or leaves uint256, and the guard is released. *)
Lemma step_wf s tx : wf_state s -> wf_call (snd tx) -> wf_state (step s tx).
Proof.
  destruct tx as [env c]. cbn [snd]. intros W Wc. revert s W.
  apply (step_rel (fun s s' => wf_state s -> wf_state s')); [auto | auto |].
  intros c' s Hin [W He].
  pose proof (singles_wf _ _ Wc Hin) as Wc'.
  destruct (single_step env c' s (singles_single _ _ Hin)) as [-> | Heff];
    [split; assumption|].
  destruct c' as [token amount|token amount|o a sg|?|o|?];
    cbn [effect_of wf_call] in *; try contradiction.
  - destruct Heff as (_ & Hle & x' & _ & ->). split; [|reflexivity].
    change (wf_ledger (credit (msg_sender env) token amount s)).
    apply credit_wf; [exact W|].
    pose proof (balance_of_range (msg_sender env) token s W).
    destruct Wc' as [_ Wa]. unfold is_uint256 in *. lia.
  - destruct Heff as (_ & Hle & x' & _ & ->). split; [|reflexivity].
    change (wf_ledger (credit (msg_sender env) token (- amount) s)).
    apply credit_wf; [exact W|].
    pose proof (balance_of_range (msg_sender env) token s W).
    destruct Wc' as [_ Wa]. unfold is_uint256 in *. lia.
  - destruct Heff as (p & Hc & Hs & ->). split; [|reflexivity].
    destruct Wc' as [(_&_&_&_&[? _]&[? _]&_) [? _]].
    change (wf_ledger (settled env o a p (set_entered true s))).
    eapply settle_wf; [exact Hs | exact W | assumption |].
    eapply fill_checks_amount_nonneg; eassumption.
  - destruct Heff as (_ & ->). split; [exact W | exact He].
Qed.

Lemma run_wf txs : forall s,
  wf_state s -> Forall (fun tx => wf_call (snd tx)) txs -> wf_state (run txs s).
Proof.
  induction txs as [|tx txs IH]; intros s W Wt; [exact W|].
  cbn [run fold_left]. apply Forall_cons_1 in Wt as [Wtx Wt].
  apply IH; [apply step_wf; assumption | exact Wt].
Qed.

Lemma initial_state_wf x : wf_state (initial_state x).
Proof.
  split; [|reflexivity]. split; apply map_Forall_empty.
Qed.

End WellFormed.

(** ** Conservation *)

Section Conservation.
Context `{EXT : Externals}.

(** Fills and cancellations, single or batched, keep every token total. *)
Lemma step_sum_settlement token env c s :
  match c with CallDeposit _ _ | CallWithdraw _ _ => False | _ => True end ->
  sum_token token (balances (step s (env, c))) = sum_token token (balances s).
Proof.
  intros Hc. revert s.
  apply (step_rel (fun s s' =>
           sum_token token (balances s') = sum_token token (balances s)));
    [reflexivity | intros; congruence |].
  intros c' s Hin.
  destruct (single_step env c' s (singles_single _ _ Hin)) as [-> | Heff];
    [reflexivity|].
  destruct c' as [token' amount|token' amount|o a sg|?|o|?];
    cbn [effect_of] in Heff; try contradiction.
  - destruct c; try contradiction; cbn [singles] in Hin;
      try (destruct Hin as [[=] | []]);
      apply in_map_iff in Hin as (? & [=] & _).
  - destruct c; try contradiction; cbn [singles] in Hin;
      try (destruct Hin as [[=] | []]);
      apply in_map_iff in Hin as (? & [=] & _).
  - destruct Heff as (p & _ & _ & ->).
    change (sum_token token (balances (settled env o a p (set_entered true s)))
            = sum_token token (balances (set_entered true s))).
    apply settled_sum.
  - destruct Heff as (_ & ->). reflexivity.
Qed.

Lemma deposit_inr env token amount s s' :
  transact (deposit env token amount) s = (inr tt, s') ->
  (forall u t, balance_of u t s'
     = balance_of u t s
       + (if decide ((msg_sender env, token) = (u, t)) then amount else 0)) /\
  (forall t, sum_token t (balances s')
     = sum_token t (balances s) + (if decide (token = t) then amount else 0)).
Proof.
  intros H.
  apply (single_call_cases env (CallDeposit token amount)) in H
    as [(e & [=] & _) | (_ & Heff)]; [|reflexivity].
  destruct Heff as (_ & _ & x' & _ & ->). split.
  - intros u t. apply (balance_of_credit u t _ _ _ (set_tokens x' (set_entered true s))).
  - intros t. apply (sum_token_credit t _ _ _ (set_tokens x' (set_entered true s))).
Qed.

Lemma withdraw_inr env token amount s s' :
  transact (withdraw env token amount) s = (inr tt, s') ->
  (forall u t, balance_of u t s'
     = balance_of u t s
       - (if decide ((msg_sender env, token) = (u, t)) then amount else 0)) /\
  (forall t, sum_token t (balances s')
     = sum_token t (balances s) - (if decide (token = t) then amount else 0)).
Proof.
  intros H.
  apply (single_call_cases env (CallWithdraw token amount)) in H
    as [(e & [=] & _) | (_ & Heff)]; [|reflexivity].
  destruct Heff as (_ & _ & x' & _ & ->). split.
  - intros u t.
    pose proof (balance_of_credit u t (msg_sender env) token (- amount)
                  (set_entered true s)) as B.
    change (balance_of u t (credit (msg_sender env) token (- amount) (set_entered true s))
            = balance_of u t s
              - (if decide ((msg_sender env, token) = (u, t)) then amount else 0)).
    rewrite B. change (balance_of u t (set_entered true s)) with (balance_of u t s).
    case_decide; lia.
  - intros t.
    pose proof (sum_token_credit t (msg_sender env) token (- amount)
                  (set_entered true s)) as B.
    change (sum_token t (balances (credit (msg_sender env) token (- amount) (set_entered true s)))
            = sum_token t (balances s) - (if decide (token = t) then amount else 0)).
    rewrite B. change (balances (set_entered true s)) with (balances s).
    case_decide; lia.
Qed.

Lemma step_sum token s tx :
  sum_token token (balances (step s tx))
  = sum_token token (balances s) + custody_delta token s tx.
Proof.
  destruct tx as [env c]. unfold custody_delta. cbn [fst snd].
  destruct c as [t amount|t amount|o a sg|os amts sgs|o|os];
    try (rewrite step_sum_settlement by exact I; lia).
  - rewrite step_eq. cbn [dispatch].
    destruct (transact (deposit env t amount) s) as [[e|[]] s'] eqn:H; cbn [fst snd].
    + apply transact_inl in H as ->. lia.
    + apply deposit_inr in H as [_ H]. apply H.
  - rewrite step_eq. cbn [dispatch].
    destruct (transact (withdraw env t amount) s) as [[e|[]] s'] eqn:H; cbn [fst snd].
    + apply transact_inl in H as ->. lia.
    + apply withdraw_inr in H as [_ H]. rewrite H. case_decide; lia.
Qed.

Lemma run_sum token txs : forall s,
  sum_token token (balances (run txs s))
  = sum_token token (balances s) + net_custody token txs s.
Proof.
  induction txs as [|tx txs IH]; intros s.
  - simpl. lia.
  - cbn [run fold_left net_custody]. fold (run txs (step s tx)).
    rewrite IH, step_sum. lia.
Qed.

End Conservation.

(** ** Fill counters and cancellation flags across transactions *)

Section Registry.
Context `{EXT : Externals}.

(** A fill counter never decreases. *)
Lemma step_filled_monotone env c s d :
  wf_call c -> filled_of d s <= filled_of d (step s (env, c)).
Proof.
  intros Wc. revert s.
  apply (step_rel (fun s s' => filled_of d s <= filled_of d s'));
    [intros; lia | intros; lia |].
  intros c' s Hin.
  pose proof (singles_wf _ _ Wc Hin) as Wc'.
  destruct (single_step env c' s (singles_single _ _ Hin)) as [-> | Heff];
    [lia|].
  destruct c' as [token amount|token amount|o a sg|?|o|?];
    cbn [effect_of wf_call] in *; try contradiction.
  - destruct Heff as (_ & _ & x' & _ & ->). apply Z.le_refl.
  - destruct Heff as (_ & _ & x' & _ & ->). apply Z.le_refl.
  - destruct Heff as (p & _ & _ & ->). destruct Wc' as [_ [Ha _]].
    change (filled_of d s <= filled_of d (settled env o a p (set_entered true s))).
    rewrite settled_filled.
    change (filled_of d (set_entered true s)) with (filled_of d s).
    case_decide; lia.
  - destruct Heff as (_ & ->). apply Z.le_refl.
Qed.

(** A cancellation flag, once set, stays set. *)
Lemma step_cancelled_permanent env c s d :
  is_cancelled d s = true -> is_cancelled d (step s (env, c)) = true.
Proof.
  revert s.
  apply (step_rel (fun s s' =>
           is_cancelled d s = true -> is_cancelled d s' = true)); [auto | auto |].
  intros c' s Hin Hc.
  destruct (single_step env c' s (singles_single _ _ Hin)) as [-> | Heff];
    [exact Hc|].
  destruct c' as [token amount|token amount|o a sg|?|o|?];
    cbn [effect_of] in *; try contradiction.
  - destruct Heff as (_ & _ & x' & _ & ->). exact Hc.
  - destruct Heff as (_ & _ & x' & _ & ->). exact Hc.
  - destruct Heff as (p & _ & _ & ->). exact Hc.
  - destruct Heff as (_ & ->).
    change (is_cancelled d (set_cancelled (_orderHash o) true s) = true).
    rewrite is_cancelled_set_cancelled. case_decide; [reflexivity | exact Hc].
Qed.

Lemma run_cancelled_permanent txs d : forall s,
  is_cancelled d s = true -> is_cancelled d (run txs s) = true.
Proof.
  induction txs as [|[env c] txs IH]; intros s H; [exact H|].
  cbn [run fold_left]. apply IH, step_cancelled_permanent, H.
Qed.


(** The capacity check, reached and failed. *)
Lemma fill_checks_over_capacity env o a sg s :
  block_timestamp env <= expiration o ->
  taker o = 0 \/ taker o = msg_sender env ->
  is_cancelled (_orderHash o) s = false ->
  ECDSA_recover (_orderHash o) sg = Some (maker o) ->
  filled_of (_orderHash o) s <= amountSell o ->
  amountSell o - filled_of (_orderHash o) s < a ->
  fill_checks env o a sg s = inl InsufficientOrderRemaining.
Proof.
  intros H1 H2 H3 H4 H5 H6. unfold fill_checks, checked_sub.
  case (Z.ltb_spec (expiration o) (block_timestamp env)); [lia | intros _].
  assert (negb (taker o =? 0) && negb (taker o =? msg_sender env) = false) as ->.
  { destruct H2 as [-> | ->]; rewrite ?Z.eqb_refl; simpl;
      [reflexivity | apply andb_false_r]. }
  rewrite H3, H4, Z.eqb_refl. cbn [negb].
  case (Z.ltb_spec (amountSell o) (filled_of (_orderHash o) s)); [lia | intros _].
  case (Z.ltb_spec (amountSell o - filled_of (_orderHash o) s) a);
    [reflexivity | lia].
Qed.

(** The cancellation check, reached. *)
Lemma fill_checks_cancelled env o a sg s :
  block_timestamp env <= expiration o ->
  taker o = 0 \/ taker o = msg_sender env ->
  is_cancelled (_orderHash o) s = true ->
  fill_checks env o a sg s = inl OrderAlreadyCancelled.
Proof.
  intros H1 H2 H3. unfold fill_checks.
  case (Z.ltb_spec (expiration o) (block_timestamp env)); [lia | intros _].
  assert (negb (taker o =? 0) && negb (taker o =? msg_sender env) = false) as ->.
  { destruct H2 as [-> | ->]; rewrite ?Z.eqb_refl; simpl;
      [reflexivity | apply andb_false_r]. }
  rewrite H3. reflexivity.
Qed.

(** A fill the checks refuse is refused, whatever the guard's state. *)
Lemma fillOrder_refused env o a sg s :
  (forall p, fill_checks env o a sg s <> inr p) ->
  exists e, transact (fillOrder env o a sg) s = (inl e, s).
Proof.
  intros H. destruct (entered s) eqn:He.
  - rewrite fillOrder_reentrant by exact He. eauto.
  - rewrite fillOrder_transact by exact He.
    destruct (fill_checks env o a sg s) as [e|p]; [eauto|].
    exfalso. exact (H p eq_refl).
Qed.

(** Why the checks raised what they raised. *)
Lemma fill_checks_inl env o a sg s e :
  fill_checks env o a sg s = inl e ->
  (e = OrderAlreadyCancelled -> is_cancelled (_orderHash o) s = true) /\
  (e = InsufficientOrderRemaining ->
   amountSell o - filled_of (_orderHash o) s < a) /\
  (e = Panic PANIC_DIVISION_BY_ZERO -> amountSell o = 0).
Proof.
  unfold fill_checks, proportionalBuyAmount, checked_sub, checked_mul, checked_div,
    PANIC_DIVISION_BY_ZERO, PANIC_ARITHMETIC.
  repeat match goal with
  | |- context [if ?b then _ else _] =>
      match b with
      | is_cancelled _ _ => destruct b eqn:?
      | Z.ltb ?x ?y => destruct (Z.ltb_spec x y)
      | Z.eqb ?x ?y => destruct (Z.eqb_spec x y)
      | _ => destruct b eqn:?
      end
  | |- context [match ECDSA_recover ?d ?g with _ => _ end] =>
      destruct (ECDSA_recover d g)
  end;
  intros [= <-]; repeat split; intros; try discriminate; auto; lia.
Qed.


Lemma fillOrder_inl env o a sg s e :
  fst (transact (fillOrder env o a sg) s) = inl e ->
  e = ReentrancyGuardReentrantCall \/ e = Panic PANIC_ARITHMETIC \/
  fill_checks env o a sg s = inl e.
Proof.
  destruct (entered s) eqn:He.
  - rewrite fillOrder_reentrant by exact He. simpl. intros [= <-]. auto.
  - rewrite fillOrder_transact by exact He.
    destruct (fill_checks env o a sg s) as [e0|p]; [simpl; intros [= <-]; auto|].
    destruct (settle env o a p (set_entered true s)) as [[e0|[]] s1] eqn:E;
      [|discriminate].
    apply settle_inl in E as ->. simpl. intros [= <-]. auto.
Qed.

End Registry.

Section Bounded.
Context `{EXT : Externals} `{CF : !CollisionFree}.

(** No call fills an order beyond what its maker sells. *)
Lemma step_fill_bounded env c s :
  wf_call c -> fill_bounded s -> fill_bounded (step s (env, c)).
Proof.
  intros Wc. revert s.
  apply (step_rel (fun s s' => fill_bounded s -> fill_bounded s')); [auto | auto |].
  intros c' s Hin Hb.
  pose proof (singles_wf _ _ Wc Hin) as Wc'.
  destruct (single_step env c' s (singles_single _ _ Hin)) as [-> | Heff];
    [exact Hb|].
  destruct c' as [token amount|token amount|o a sg|?|o|?];
    cbn [effect_of wf_call] in *; try contradiction.
  - destruct Heff as (_ & _ & x' & _ & ->). exact Hb.
  - destruct Heff as (_ & _ & x' & _ & ->). exact Hb.
  - destruct Heff as (p & Hc & _ & ->). destruct Wc' as [Wo _].
    intros o' Wo'.
    change (filled_of (_orderHash o') (settled env o a p (set_entered true s))
            <= amountSell o').
    rewrite settled_filled.
    change (filled_of (_orderHash o') (set_entered true s))
      with (filled_of (_orderHash o') s).
    case_decide as E.
    + apply _orderHash_inj in E; [|assumption..]. subst o'.
      apply fill_checks_inr in Hc as (_&_&_&_&Hcap&_). lia.
    + specialize (Hb o' Wo'). lia.
  - destruct Heff as (_ & ->). exact Hb.
Qed.

Lemma run_fill_bounded txs : forall s,
  Forall (fun tx => wf_call (snd tx)) txs ->
  fill_bounded s -> fill_bounded (run txs s).
Proof.
  induction txs as [|[env c] txs IH]; intros s Wt Hb; [exact Hb|].
  cbn [run fold_left]. apply Forall_cons_1 in Wt as [Wtx Wt].
  apply IH; [exact Wt | apply step_fill_bounded; assumption].
Qed.

Lemma initial_fill_bounded x : fill_bounded (initial_state x).
Proof. intros o (_&_&_&_&[Hs _]&_). exact Hs. Qed.

End Bounded.

(** ** The log *)

Lemma filled_in_log_app d l1 l2 :
  filled_in_log d (l1 ++ l2) = filled_in_log d l1 + filled_in_log d l2.
Proof.
  induction l1 as [|e l1 IH]; [reflexivity|].
  destruct e; cbn [app filled_in_log]; rewrite IH; lia.
Qed.

Lemma cancelled_in_log_app d l1 l2 :
  cancelled_in_log d (l1 ++ l2) = cancelled_in_log d l1 || cancelled_in_log d l2.
Proof.
  induction l1 as [|e l1 IH]; [reflexivity|].
  destruct e; cbn [app cancelled_in_log]; rewrite IH; try reflexivity.
  apply orb_assoc.
Qed.

Lemma custody_in_log_app t l1 l2 :
  custody_in_log t (l1 ++ l2) = custody_in_log t l1 + custody_in_log t l2.
Proof.
  induction l1 as [|e l1 IH]; [reflexivity|].
  destruct e; cbn [app custody_in_log]; rewrite IH; lia.
Qed.

Section Log.
Context `{EXT : Externals}.







(** Invariants of the log are kept by every transaction once every single
    call that goes through keeps them. *)
Lemma step_inv (P : State -> Prop) env c :
  (forall c' s, In c' (singles c) -> is_batch c' = false -> P s ->
                effect_of env c' s (step s (env, c')) ->
                P (step s (env, c'))) ->
  forall s, P s -> P (step s (env, c)).
Proof.
  intros Hsingle.
  apply (step_rel (fun s s' => P s -> P s')); [auto | auto |].
  intros c' s Hin HP.
  pose proof (singles_single _ _ Hin) as Hb.
  destruct (single_step env c' s Hb) as [-> | Heff]; [exact HP|].
  apply Hsingle; assumption.
Qed.

Lemma run_inv (P : State -> Prop) txs :
  (forall tx s, In tx txs -> P s -> P (step s tx)) ->
  forall s, P s -> P (run txs s).
Proof.
  induction txs as [|tx txs IH]; intros Hstep s HP; [exact HP|].
  cbn [run fold_left]. apply IH.
  - intros tx' s' Hin. apply Hstep. right. exact Hin.
  - apply Hstep; [left; reflexivity | exact HP].
Qed.

Lemma step_filled_in_log env c d s :
  filled_of d s = filled_in_log d (events s) ->
  filled_of d (step s (env, c)) = filled_in_log d (events (step s (env, c))).
Proof.
  revert s. apply (step_inv (fun s => filled_of d s = filled_in_log d (events s))).
  intros c' s _ Hb HP Heff.
  destruct c' as [token amount|token amount|o a sg|?|o|?];
    try discriminate; cbn [effect_of] in Heff.
  - destruct Heff as (_ & _ & x' & _ & ->).
    change (filled_of d s
            = filled_in_log d (events s ++ [Deposit (msg_sender env) token amount])).
    rewrite filled_in_log_app. cbn [filled_in_log]. lia.
  - destruct Heff as (_ & _ & x' & _ & ->).
    change (filled_of d s
            = filled_in_log d (events s ++ [Withdrawal (msg_sender env) token amount])).
    rewrite filled_in_log_app. cbn [filled_in_log]. lia.
  - destruct Heff as (p & _ & _ & ->).
    change (filled_of d (settled env o a p (set_entered true s))
            = filled_in_log d (events (settled env o a p (set_entered true s)))).
    rewrite settled_filled, settled_events, filled_in_log_app.
    change (filled_of d (set_entered true s)) with (filled_of d s).
    change (events (set_entered true s)) with (events s).
    cbn [filled_in_log]. rewrite HP. lia.
  - destruct Heff as (_ & ->).
    change (filled_of d s
            = filled_in_log d
                (events s ++ [OrderCancelled (_orderHash o) (msg_sender env)])).
    rewrite filled_in_log_app. cbn [filled_in_log]. lia.
Qed.

Lemma step_cancelled_in_log env c d s :
  is_cancelled d s = cancelled_in_log d (events s) ->
  is_cancelled d (step s (env, c))
  = cancelled_in_log d (events (step s (env, c))).
Proof.
  revert s.
  apply (step_inv (fun s => is_cancelled d s = cancelled_in_log d (events s))).
  intros c' s _ Hb HP Heff.
  destruct c' as [token amount|token amount|o a sg|?|o|?];
    try discriminate; cbn [effect_of] in Heff.
  - destruct Heff as (_ & _ & x' & _ & ->).
    change (is_cancelled d s
            = cancelled_in_log d (events s ++ [Deposit (msg_sender env) token amount])).
    rewrite cancelled_in_log_app. cbn [cancelled_in_log].
    rewrite orb_false_r. exact HP.
  - destruct Heff as (_ & _ & x' & _ & ->).
    change (is_cancelled d s
            = cancelled_in_log d
                (events s ++ [Withdrawal (msg_sender env) token amount])).
    rewrite cancelled_in_log_app. cbn [cancelled_in_log].
    rewrite orb_false_r. exact HP.
  - destruct Heff as (p & _ & _ & ->).
    change (is_cancelled d s
            = cancelled_in_log d
                (events s ++ [OrderFilled (_orderHash o) (msg_sender env) a])).
    rewrite cancelled_in_log_app. cbn [cancelled_in_log].
    rewrite orb_false_r. exact HP.
  - destruct Heff as (_ & ->).
    change (is_cancelled d (set_cancelled (_orderHash o) true s)
            = cancelled_in_log d
                (events s ++ [OrderCancelled (_orderHash o) (msg_sender env)])).
    rewrite is_cancelled_set_cancelled, cancelled_in_log_app.
    cbn [cancelled_in_log]. rewrite orb_false_r, <- HP.
    case_decide as E.
    + rewrite bool_decide_eq_true_2 by exact E. symmetry. apply orb_true_r.
    + rewrite bool_decide_eq_false_2 by exact E. symmetry. apply orb_false_r.
Qed.

Lemma step_custody_in_log env c t s :
  sum_token t (balances s) = custody_in_log t (events s) ->
  sum_token t (balances (step s (env, c)))
  = custody_in_log t (events (step s (env, c))).
Proof.
  revert s.
  apply (step_inv (fun s => sum_token t (balances s) = custody_in_log t (events s))).
  intros c' s _ Hb HP Heff.
  destruct c' as [token amount|token amount|o a sg|?|o|?];
    try discriminate; cbn [effect_of] in Heff.
  - destruct Heff as (_ & _ & x' & _ & ->).
    change (sum_token t (balances (credit (msg_sender env) token amount
                                     (set_tokens x' (set_entered true s))))
            = custody_in_log t (events s ++ [Deposit (msg_sender env) token amount])).
    rewrite sum_token_credit, custody_in_log_app. cbn [custody_in_log].
    change (balances (set_tokens x' (set_entered true s))) with (balances s).
    rewrite HP. case_decide; lia.
  - destruct Heff as (_ & _ & x' & _ & ->).
    change (sum_token t (balances (credit (msg_sender env) token (- amount)
                                     (set_entered true s)))
            = custody_in_log t
                (events s ++ [Withdrawal (msg_sender env) token amount])).
    rewrite sum_token_credit, custody_in_log_app. cbn [custody_in_log].
    change (balances (set_entered true s)) with (balances s).
    rewrite HP. case_decide; lia.
  - destruct Heff as (p & _ & _ & ->).
    change (sum_token t (balances (settled env o a p (set_entered true s)))
            = custody_in_log t
                (events s ++ [OrderFilled (_orderHash o) (msg_sender env) a])).
    rewrite settled_sum, custody_in_log_app. cbn [custody_in_log].
    change (balances (set_entered true s)) with (balances s). lia.
  - destruct Heff as (_ & ->).
    change (sum_token t (balances s)
            = custody_in_log t
                (events s ++ [OrderCancelled (_orderHash o) (msg_sender env)])).
    rewrite custody_in_log_app. cbn [custody_in_log]. lia.
Qed.

Lemma cancelled_in_log_In d l :
  cancelled_in_log d l = true <-> exists m, In (OrderCancelled d m) l.
Proof.
  induction l as [|e l IH].
  - split; [discriminate | intros (m & [])].
  - destruct e as [u t a|u t a|d' f a|d' m']; cbn [cancelled_in_log].
    1-3: rewrite IH; split; intros (m & H); exists m;
         [right; exact H | destruct H as [[=] | H]; exact H].
    rewrite orb_true_iff, IH, bool_decide_eq_true. split.
    + intros [-> | (m & H)]; [exists m'; left; reflexivity | exists m; right; exact H].
    + intros (m & [[= -> _] | H]); [left; reflexivity | right; exists m; exact H].
Qed.

Lemma step_cancellations_by_makers env c s :
  wf_call c ->
  cancellations_by_makers (events s) ->
  cancellations_by_makers (events (step s (env, c))).
Proof.
  intros Wc. revert s.
  apply (step_inv (fun s => cancellations_by_makers (events s))).
  intros c' s Hin Hb HP Heff.
  pose proof (singles_wf _ _ Wc Hin) as Wc'.
  assert (Hother : forall e, (forall d m, e <> OrderCancelled d m) ->
                     cancellations_by_makers (events s ++ [e])).
  { intros e He d m Hm. apply in_app_iff in Hm as [Hm | [Heq | []]];
      [exact (HP d m Hm) | exfalso; exact (He d m Heq)]. }
  destruct c' as [token amount|token amount|o a sg|?|o|?];
    try discriminate; cbn [effect_of wf_call] in Heff, Wc'.
  - destruct Heff as (_ & _ & x' & _ & ->).
    apply (Hother (Deposit (msg_sender env) token amount)). discriminate.
  - destruct Heff as (_ & _ & x' & _ & ->).
    apply (Hother (Withdrawal (msg_sender env) token amount)). discriminate.
  - destruct Heff as (p & _ & _ & ->).
    apply (Hother (OrderFilled (_orderHash o) (msg_sender env) a)). discriminate.
  - destruct Heff as (Hm & ->).
    intros d m Hin'.
    change (In (OrderCancelled d m)
              (events s ++ [OrderCancelled (_orderHash o) (msg_sender env)]))
      in Hin'.
    apply in_app_iff in Hin' as [Hin' | [[= <- <-] | []]]; [exact (HP d m Hin')|].
    exists o. split; [exact Wc' | split; [reflexivity | congruence]].
Qed.

Lemma step_fills_authorised env c s :
  wf_call c ->
  wf_state s /\ fills_authorised (events s) ->
  wf_state (step s (env, c)) /\ fills_authorised (events (step s (env, c))).
Proof.
  intros Wc. revert s.
  apply (step_inv (fun s => wf_state s /\ fills_authorised (events s))).
  intros c' s Hin Hb [W HP] Heff.
  pose proof (singles_wf _ _ Wc Hin) as Wc'.
  split; [apply step_wf; assumption|].
  assert (Hother : forall e, (forall d f a, e <> OrderFilled d f a) ->
                     fills_authorised (events s ++ [e])).
  { intros e He d f a Hm. apply in_app_iff in Hm as [Hm | [Heq | []]];
      [exact (HP d f a Hm) | exfalso; exact (He d f a Heq)]. }
  destruct c' as [token amount|token amount|o a sg|?|o|?];
    try discriminate; cbn [effect_of wf_call] in Heff, Wc'.
  - destruct Heff as (_ & _ & x' & _ & ->).
    apply (Hother (Deposit (msg_sender env) token amount)). discriminate.
  - destruct Heff as (_ & _ & x' & _ & ->).
    apply (Hother (Withdrawal (msg_sender env) token amount)). discriminate.
  - destruct Heff as (p & Hc & _ & ->).
    intros d f a' Hin'.
    change (In (OrderFilled d f a')
              (events s ++ [OrderFilled (_orderHash o) (msg_sender env) a]))
      in Hin'.
    apply in_app_iff in Hin' as [Hin' | [[= <- <- <-] | []]];
      [exact (HP d f a' Hin')|].
    destruct Wc' as [Wo [Ha _]]. split; [exact Ha|].
    apply fill_checks_inr in Hc as (_&Htk&_&Hsg&Hcap&_).
    destruct W as [Wl _].
    pose proof (filled_of_range (_orderHash o) s Wl) as [Hf _].
    exists o, sg. split; [exact Wo|]. split; [reflexivity|]. split; [lia|].
    split; [exact Hsg | exact Htk].
  - destruct Heff as (_ & ->).
    apply (Hother (OrderCancelled (_orderHash o) (msg_sender env))). discriminate.
Qed.

Lemma filled_in_log_nonzero d l :
  filled_in_log d l <> 0 -> exists f a, In (OrderFilled d f a) l.
Proof.
  induction l as [|e l IH]; [intros H; contradiction H; reflexivity|].
  destruct e as [u t a|u t a|d' f a|d' m]; cbn [filled_in_log]; intros H.
  1, 2, 4: destruct (IH H) as (f' & a' & Hin); exists f', a'; right; exact Hin.
  case_decide as E.
  - subst d'. exists f, a. left. reflexivity.
  - destruct IH as (f' & a' & Hin); [lia|]. exists f', a'. right. exact Hin.
Qed.

(** A list that ends in [e], cut at one of its elements. *)
Lemma snoc_cut {A} (l before after : list A) (e x : A) :
  l ++ [e] = before ++ x :: after ->
  (after = [] /\ l = before /\ e = x) \/
  exists after', after = after' ++ [e] /\ l = before ++ x :: after'.
Proof.
  destruct after as [|y after _] using rev_ind; intros H.
  - left. change (before ++ [x]) with (before ++ [x]) in H.
    apply app_inj_tail in H as [-> ->]. auto.
  - right. exists after.
    change (before ++ x :: after ++ [y]) with (before ++ (x :: after) ++ [y]) in H.
    rewrite app_assoc in H. apply app_inj_tail in H as [-> ->]. auto.
Qed.

Lemma step_cancellation_final env c d s :
  is_cancelled d s = cancelled_in_log d (events s) /\
  cancellation_final d (events s) ->
  is_cancelled d (step s (env, c)) = cancelled_in_log d (events (step s (env, c))) /\
  cancellation_final d (events (step s (env, c))).
Proof.
  intros [H1 H2]. split; [apply step_cancelled_in_log, H1|]. revert s H1 H2.
  assert (G : forall s,
    is_cancelled d s = cancelled_in_log d (events s) /\
    cancellation_final d (events s) ->
    is_cancelled d (step s (env, c)) = cancelled_in_log d (events (step s (env, c))) /\
    cancellation_final d (events (step s (env, c)))); [|intros s H1 H2; apply G; auto].
  apply (step_inv (fun s => is_cancelled d s = cancelled_in_log d (events s) /\
                            cancellation_final d (events s))).
  intros c' s _ Hb [HC HP] Heff.
  split; [apply step_cancelled_in_log, HC|].
  assert (Hother : forall e, (forall f a, e <> OrderFilled d f a) ->
                     cancellation_final d (events s ++ [e])).
  { intros e He before after m f a Hcut Hin.
    apply snoc_cut in Hcut as [(-> & _) | (after' & -> & Hl)]; [destruct Hin|].
    apply in_app_iff in Hin as [Hin | [Heq | []]].
    - exact (HP _ _ _ _ _ Hl Hin).
    - exact (He f a Heq). }
  destruct c' as [token amount|token amount|o a sg|?|o|?];
    try discriminate; cbn [effect_of] in Heff.
  - destruct Heff as (_ & _ & x' & _ & ->).
    apply (Hother (Deposit (msg_sender env) token amount)). discriminate.
  - destruct Heff as (_ & _ & x' & _ & ->).
    apply (Hother (Withdrawal (msg_sender env) token amount)). discriminate.
  - destruct Heff as (p & Hc & _ & ->).
    change (cancellation_final d
              (events s ++ [OrderFilled (_orderHash o) (msg_sender env) a])).
    destruct (decide (_orderHash o = d)) as [E|E].
    + apply fill_checks_inr in Hc as (_&_&Hnc&_). rewrite E, HC in Hnc.
      intros before after m f a' Hcut _.
      assert (Hin : In (OrderCancelled d m)
                      (events s ++ [OrderFilled (_orderHash o) (msg_sender env) a])).
      { rewrite Hcut. apply in_app_iff. right. left. reflexivity. }
      apply in_app_iff in Hin as [Hin | [[=] | []]].
      assert (cancelled_in_log d (events s) = true)
        by (apply cancelled_in_log_In; eauto).
      congruence.
    + apply Hother. intros f a' [= ? _ _]. contradiction.
  - destruct Heff as (_ & ->).
    apply (Hother (OrderCancelled (_orderHash o) (msg_sender env))). discriminate.
Qed.

(** Once a commitment is cancelled its fill counter stays where it is. *)
Lemma step_cancelled_frozen env c d s :
  is_cancelled d s = true ->
  is_cancelled d (step s (env, c)) = true /\
  filled_of d (step s (env, c)) = filled_of d s.
Proof.
  revert s.
  apply (step_rel (fun s s' => is_cancelled d s = true ->
                     is_cancelled d s' = true /\ filled_of d s' = filled_of d s)).
  { auto. }
  { intros s1 s2 s3 H12 H23 H. destruct (H12 H) as [H2 E2].
    destruct (H23 H2) as [H3 E3]. split; [exact H3 | congruence]. }
  intros c' s Hin Hc.
  split; [apply step_cancelled_permanent, Hc|].
  destruct (single_step env c' s (singles_single _ _ Hin)) as [-> | Heff];
    [reflexivity|].
  destruct c' as [token amount|token amount|o a sg|?|o|?];
    cbn [effect_of] in Heff; try contradiction.
  - destruct Heff as (_ & _ & x' & _ & ->). reflexivity.
  - destruct Heff as (_ & _ & x' & _ & ->). reflexivity.
  - destruct Heff as (p & Hck & _ & ->).
    change (filled_of d (settled env o a p (set_entered true s)) = filled_of d s).
    rewrite settled_filled.
    change (filled_of d (set_entered true s)) with (filled_of d s).
    case_decide as E; [|lia].
    apply fill_checks_inr in Hck as (_&_&Hnc&_). congruence.
  - destruct Heff as (_ & ->). reflexivity.
Qed.

Lemma run_filled_in_log txs d : forall s,
  filled_of d s = filled_in_log d (events s) ->
  filled_of d (run txs s) = filled_in_log d (events (run txs s)).
Proof.
  apply (run_inv (fun s => filled_of d s = filled_in_log d (events s))).
  intros [env c] s _. apply step_filled_in_log.
Qed.

Lemma run_cancelled_in_log txs d : forall s,
  is_cancelled d s = cancelled_in_log d (events s) ->
  is_cancelled d (run txs s) = cancelled_in_log d (events (run txs s)).
Proof.
  apply (run_inv (fun s => is_cancelled d s = cancelled_in_log d (events s))).
  intros [env c] s _. apply step_cancelled_in_log.
Qed.

Lemma run_custody_in_log txs token : forall s,
  sum_token token (balances s) = custody_in_log token (events s) ->
  sum_token token (balances (run txs s))
  = custody_in_log token (events (run txs s)).
Proof.
  apply (run_inv (fun s => sum_token token (balances s)
                           = custody_in_log token (events s))).
  intros [env c] s _. apply step_custody_in_log.
Qed.

Lemma run_cancellations_by_makers txs : forall s,
  Forall (fun tx => wf_call (snd tx)) txs ->
  cancellations_by_makers (events s) ->
  cancellations_by_makers (events (run txs s)).
Proof.
  intros s Wt.
  apply (run_inv (fun s => cancellations_by_makers (events s))).
  intros [env c] s' Hin. apply step_cancellations_by_makers.
  rewrite List.Forall_forall in Wt. exact (Wt _ Hin).
Qed.

Lemma run_fills_authorised txs : forall s,
  Forall (fun tx => wf_call (snd tx)) txs ->
  wf_state s /\ fills_authorised (events s) ->
  wf_state (run txs s) /\ fills_authorised (events (run txs s)).
Proof.
  intros s Wt.
  apply (run_inv (fun s => wf_state s /\ fills_authorised (events s))).
  intros [env c] s' Hin. apply step_fills_authorised.
  rewrite List.Forall_forall in Wt. exact (Wt _ Hin).
Qed.

End Log.

(** ** More on fills, the guard and the errors *)

Section More.
Context `{EXT : Externals}.

Lemma verifyOrder_eq o sg s :
  verifyOrder o sg s
  = match ECDSA_recover (_orderHash o) sg with
    | Some signer => (inr (signer =? maker o), s)
    | None => (inl ECDSAInvalidSignature, s)
    end.
Proof.
  unfold verifyOrder, bind, recover, ret, revert_with.
  change (_hashTypedDataV4 _) with (_orderHash o).
  destruct (ECDSA_recover (_orderHash o) sg); reflexivity.
Qed.

(** The checks, passed. *)
Lemma fill_checks_pass env o a sg s :
  block_timestamp env <= expiration o ->
  taker o = 0 \/ taker o = msg_sender env ->
  is_cancelled (_orderHash o) s = false ->
  ECDSA_recover (_orderHash o) sg = Some (maker o) ->
  filled_of (_orderHash o) s <= amountSell o ->
  a <= amountSell o - filled_of (_orderHash o) s ->
  amountBuy o * a <= MAX_UINT256 ->
  amountSell o <> 0 ->
  a <= balance_of (maker o) (tokenSell o) s ->
  amountBuy o * a / amountSell o <= balance_of (msg_sender env) (tokenBuy o) s ->
  fill_checks env o a sg s = inr (amountBuy o * a / amountSell o).
Proof.
  intros H1 H2 H3 H4 H5 H6 H7 H8 H9 H10. unfold fill_checks.
  case (Z.ltb_spec (expiration o) (block_timestamp env)); [lia | intros _].
  assert (negb (taker o =? 0) && negb (taker o =? msg_sender env) = false) as ->.
  { destruct H2 as [-> | ->]; rewrite ?Z.eqb_refl; simpl;
      [reflexivity | apply andb_false_r]. }
  rewrite H3, H4, Z.eqb_refl. cbn [negb].
  rewrite checked_sub_fits by exact H5.
  case (Z.ltb_spec (amountSell o - filled_of (_orderHash o) s) a); [lia | intros _].
  unfold proportionalBuyAmount. rewrite checked_mul_fits by exact H7.
  rewrite checked_div_nonzero by exact H8.
  case (Z.ltb_spec (balance_of (maker o) (tokenSell o) s) a); [lia | intros _].
  case (Z.ltb_spec (balance_of (msg_sender env) (tokenBuy o) s)
          (amountBuy o * a / amountSell o)); [lia | reflexivity].
Qed.

(** A fill that passed its checks goes through unless a credited entry would
    leave uint256. *)
Lemma fillOrder_goes_through env o a sg s p :
  entered s = false ->
  fill_checks env o a sg s = inr p ->
  0 <= a -> 0 <= p ->
  amountSell o <= MAX_UINT256 ->
  balance_of (maker o) (tokenBuy o) s + p <= MAX_UINT256 ->
  balance_of (msg_sender env) (tokenSell o) s + a <= MAX_UINT256 ->
  transact (fillOrder env o a sg) s
  = (inr tt, set_entered false (settled env o a p (set_entered true s))).
Proof.
  intros He Hc Ha Hp Hs Hmb Hts.
  rewrite fillOrder_transact, Hc by exact He.
  pose proof (fill_checks_inr _ _ _ _ _ _ Hc)
    as (_&_&_&_&Hcap&_&_&_&_&Hmk&Htk).
  rewrite settle_ok; [reflexivity | exact Ha | exact Hp | exact Hmk | exact Htk
                      | exact Hmb | exact Hts |].
  change (filled_of (_orderHash o) (set_entered true s))
    with (filled_of (_orderHash o) s). lia.
Qed.

(** What a fill that went through did. *)
Lemma fillOrder_moves env o a sg s s' :
  transact (fillOrder env o a sg) s = (inr tt, s') ->
  let p := amountBuy o * a / amountSell o in
  fill_checks env o a sg s = inr p /\
  (forall u t,
     balance_of u t s'
     = balance_of u t s
       - (if decide ((maker o, tokenSell o) = (u, t)) then a else 0)
       + (if decide ((maker o, tokenBuy o) = (u, t)) then p else 0)
       - (if decide ((msg_sender env, tokenBuy o) = (u, t)) then p else 0)
       + (if decide ((msg_sender env, tokenSell o) = (u, t)) then a else 0)) /\
  (forall d, filled_of d s'
             = filled_of d s + (if decide (_orderHash o = d) then a else 0)) /\
  cancelledOrders s' = cancelledOrders s /\
  tokens s' = tokens s /\
  events s' = events s ++ [OrderFilled (_orderHash o) (msg_sender env) a] /\
  entered s = false /\ entered s' = false.
Proof.
  intros H p.
  assert (He : entered s = false).
  { destruct (entered s) eqn:E; [|reflexivity].
    rewrite fillOrder_reentrant in H by exact E. discriminate. }
  apply fillOrder_inr in H as (p' & Hc & -> & _); [|exact He].
  pose proof (fill_checks_inr _ _ _ _ _ _ Hc) as (_&_&_&_&_&_&_&_&Hp&_).
  fold p in Hp. subst p'.
  split; [exact Hc|]. split; [|split; [|repeat split]].
  - intros u t. exact (settled_balance env o a p (set_entered true s) u t).
  - intros d. exact (settled_filled env o a p (set_entered true s) d).
  - exact He.
Qed.

Lemma set_entered_false_true s :
  entered s = false -> set_entered false (set_entered true s) = s.
Proof. destruct s; simpl; intros ->; reflexivity. Qed.

(** The guard is free after every transaction that found it free. *)
Lemma step_not_entered env c s :
  entered s = false -> entered (step s (env, c)) = false.
Proof.
  revert s. apply (step_inv (fun s => entered s = false)).
  intros c' s _ Hb HP Heff.
  destruct c' as [token amount|token amount|o a sg|?|o|?];
    try discriminate; cbn [effect_of] in Heff.
  - destruct Heff as (_ & _ & x' & _ & ->). reflexivity.
  - destruct Heff as (_ & _ & x' & _ & ->). reflexivity.
  - destruct Heff as (p & _ & _ & ->). reflexivity.
  - destruct Heff as (_ & ->). exact HP.
Qed.





End More.

(** ** The relay *)

Section RelayFacts.


Lemma processOrderFilledEvent_row d f a r :
  Relay.table (Relay.processOrderFilledEvent d f a r)
  = match Relay.table r !! d with
    | None => Relay.table r
    | Some row =>
        <[d := Relay.mkOrderRow (Relay.signed row) a (Relay.signature row)
                 (if amountSell (Relay.signed row) <=? a
                  then Relay.FILLED else Relay.PARTIALLY_FILLED)]> (Relay.table r)
    end.
Proof.
  unfold Relay.processOrderFilledEvent, Relay.getOrderByHash, Relay.updateOrderFill.
  destruct (Relay.table r !! d) as [row|]; reflexivity.
Qed.

Lemma processOrderCancelledEvent_row d m r :
  Relay.table (Relay.processOrderCancelledEvent d m r)
  = match Relay.table r !! d with
    | None => Relay.table r
    | Some row =>
        <[d := Relay.mkOrderRow (Relay.signed row) (Relay.amountFilled row)
                 (Relay.signature row) Relay.CANCELLED]> (Relay.table r)
    end.
Proof.
  unfold Relay.processOrderCancelledEvent, Relay.getOrderByHash, Relay.cancelOrder.
  destruct (Relay.table r !! d) as [row|]; reflexivity.
Qed.

(** An event about another commitment, or about none, leaves a row alone. *)
Lemma processEventWithRetry_other e d r :
  event_digest e <> Some d ->
  Relay.table (Relay.processEventWithRetry e r) !! d = Relay.table r !! d.
Proof.
  intros Hd. destruct e as [u t a|u t a|d' f a|d' m]; cbn [Relay.processEventWithRetry];
    try reflexivity; cbn [event_digest] in Hd.
  - rewrite processOrderFilledEvent_row.
    destruct (Relay.table r !! d') as [row|]; [|reflexivity].
    apply lookup_insert_ne. congruence.
  - rewrite processOrderCancelledEvent_row.
    destruct (Relay.table r !! d') as [row|]; [|reflexivity].
    apply lookup_insert_ne. congruence.
Qed.

Lemma listen_other l d : forall r,
  Forall (fun e => event_digest e <> Some d) l ->
  Relay.table (Relay.listen l r) !! d = Relay.table r !! d.
Proof.
  induction l as [|e l IH]; intros r Hl; [reflexivity|].
  apply Forall_cons_1 in Hl as [He Hl].
  change (Relay.listen (e :: l) r)
    with (Relay.listen l (Relay.processEventWithRetry e r)).
  rewrite IH by exact Hl. apply processEventWithRetry_other, He.
Qed.

(** The listener creates no row and deletes none, and never touches the
    signed fields or the signature of a row. *)
Lemma processEventWithRetry_keeps e d r :
  match Relay.table (Relay.processEventWithRetry e r) !! d, Relay.table r !! d with
  | Some row', Some row =>
      Relay.signed row' = Relay.signed row /\
      Relay.signature row' = Relay.signature row
  | None, None => True
  | _, _ => False
  end.
Proof.
  destruct (decide (event_digest e = Some d)) as [He|He].
  - destruct e as [u t a|u t a|d' f a|d' m]; try discriminate;
      injection He as ->; cbn [Relay.processEventWithRetry].
    + rewrite processOrderFilledEvent_row.
      destruct (Relay.table r !! d) as [row|] eqn:E; [|rewrite E; exact I].
      rewrite lookup_insert_eq. split; reflexivity.
    + rewrite processOrderCancelledEvent_row.
      destruct (Relay.table r !! d) as [row|] eqn:E; [|rewrite E; exact I].
      rewrite lookup_insert_eq. split; reflexivity.
  - rewrite processEventWithRetry_other by exact He.
    destruct (Relay.table r !! d); [split; reflexivity | exact I].
Qed.

Lemma listen_keeps l d : forall r,
  match Relay.table (Relay.listen l r) !! d, Relay.table r !! d with
  | Some row', Some row =>
      Relay.signed row' = Relay.signed row /\
      Relay.signature row' = Relay.signature row
  | None, None => True
  | _, _ => False
  end.
Proof.
  induction l as [|e l IH]; intros r.
  - cbn. destruct (Relay.table r !! d); [split; reflexivity | exact I].
  - change (Relay.listen (e :: l) r)
      with (Relay.listen l (Relay.processEventWithRetry e r)).
    specialize (IH (Relay.processEventWithRetry e r)).
    pose proof (processEventWithRetry_keeps e d r) as K.
    destruct (Relay.table (Relay.listen l (Relay.processEventWithRetry e r)) !! d)
      as [row''|];
      destruct (Relay.table (Relay.processEventWithRetry e r) !! d) as [row'|];
      destruct (Relay.table r !! d) as [row|]; try contradiction; try exact I.
    destruct IH, K. split; congruence.
Qed.


End RelayFacts.

Section Expiry.
Context `{EXT : Externals}.


End Expiry.

(** ** The test double is collision free *)

Module MockFacts.
Import Mock.

Lemma digest_of_snoc l b : digest_of (l ++ [b]) = digest_of l * 256 + Z_of_byte b.
Proof. unfold digest_of. rewrite fold_left_app. reflexivity. Qed.

Lemma digest_of_pos l : 1 <= digest_of l.
Proof.
  induction l as [|b l IH] using rev_ind; [unfold digest_of; simpl; lia|].
  rewrite digest_of_snoc. pose proof (Z_of_byte_range b). lia.
Qed.

Lemma digest_of_inj l1 : forall l2, digest_of l1 = digest_of l2 -> l1 = l2.
Proof.
  induction l1 as [|b1 l1 IH] using rev_ind; intros l2 H.
  - destruct l2 as [|b2 l2 _] using rev_ind; [reflexivity|].
    rewrite digest_of_snoc in H. change (digest_of []) with 1 in H.
    pose proof (digest_of_pos l2). pose proof (Z_of_byte_range b2). lia.
  - destruct l2 as [|b2 l2 _] using rev_ind.
    + rewrite digest_of_snoc in H. change (digest_of []) with 1 in H.
      pose proof (digest_of_pos l1). pose proof (Z_of_byte_range b1). lia.
    + rewrite !digest_of_snoc in H.
      pose proof (Z_of_byte_range b1). pose proof (Z_of_byte_range b2).
      assert (digest_of l1 = digest_of l2) as Hl by lia.
      assert (Z_of_byte b1 = Z_of_byte b2) as Hb by lia.
      apply IH in Hl. apply Z_of_byte_inj in Hb. congruence.
Qed.

#[export] Instance collision_free : CollisionFree.
Proof.
  split.
  - intros a b. apply digest_of_inj.
  - intros a b. cbn. unfold typed_digest. lia.
Qed.

Lemma holding_insert (token holder : Z) (k : Z * Z) (v : Z) (h : gmap (Z * Z) Z) :
  holding token holder (<[k := v]> h)
  = if decide (k = (token, holder)) then v else holding token holder h.
Proof.
  unfold holding, holdings. rewrite lookup_insert. case_decide; reflexivity.
Qed.

Lemma move_holding (token from to amount : Z) (h h' : gmap (Z * Z) Z) (t who : Z) :
  from <> to ->
  move token from to amount h = Some h' ->
  holding t who h'
  = holding t who h
    - (if decide ((token, from) = (t, who)) then amount else 0)
    + (if decide ((token, to) = (t, who)) then amount else 0).
Proof.
  intros Hne. unfold move.
  destruct (holding token from h <? amount); [discriminate|]. intros [= <-].
  rewrite !holding_insert. entry_cases.
Qed.

(** The test double's token is standard. *)
Lemma mock_standard_token :
  standard_token (fun t x => holding t orderbook_address x).
Proof.
  split.
  - intros token from amount x x' Hne H t. cbn in H, Hne.
    rewrite (move_holding _ _ _ _ _ _ t orderbook_address Hne H). entry_cases.
  - intros token to amount x x' Hne H t. cbn in H, Hne.
    rewrite (move_holding _ _ _ _ _ _ t orderbook_address (not_eq_sym Hne) H).
    entry_cases.
Qed.

End MockFacts.

(** * The claims *)

Section Claims.
Context `{EXT : Externals}.

(** C1 — Conservation.  Along every history of well-formed transactions from
    a well-formed state: the total of a token over all accounts moves only by
    what deposits and withdrawals that went through carried (their net is
    [net_custody]); a further [fillOrder] or [fillOrdersBatch] leaves the
    total as it is; a deposit that goes through raises the depositor's entry
    by exactly [amount] and a withdrawal lowers the caller's entry by exactly
    [amount]; and every balance entry stays non-negative. *)
Theorem conservation_of_ledger_totals token txs s :
  wf_state s ->
  Forall (fun tx => wf_call (snd tx)) txs ->
  let s1 := run txs s in
  sum_token token (balances s1)
  = sum_token token (balances s) + net_custody token txs s /\
  (forall env o a sg,
     sum_token token (balances (step s1 (env, CallFillOrder o a sg)))
     = sum_token token (balances s1)) /\
  (forall env os amts sgs,
     sum_token token (balances (step s1 (env, CallFillOrdersBatch os amts sgs)))
     = sum_token token (balances s1)) /\
  (forall env amount s2,
     transact (deposit env token amount) s1 = (inr tt, s2) ->
     balance_of (msg_sender env) token s2
     = balance_of (msg_sender env) token s1 + amount /\
     sum_token token (balances s2) = sum_token token (balances s1) + amount) /\
  (forall env amount s2,
     transact (withdraw env token amount) s1 = (inr tt, s2) ->
     balance_of (msg_sender env) token s2
     = balance_of (msg_sender env) token s1 - amount /\
     sum_token token (balances s2) = sum_token token (balances s1) - amount) /\
  (forall user t, 0 <= balance_of user t s1).
Proof.
  intros W Wt s1. split; [apply run_sum|].
  split; [intros; apply step_sum_settlement; exact I|].
  split; [intros; apply step_sum_settlement; exact I|].
  split; [|split].
  - intros env amount s2 H. apply deposit_inr in H as [Hb Hs].
    rewrite Hb, Hs. split; case_decide; congruence || lia.
  - intros env amount s2 H. apply withdraw_inr in H as [Hb Hs].
    rewrite Hb, Hs. split; case_decide; congruence || lia.
  - intros user t. pose proof (run_wf txs s W Wt) as [Wl _].
    apply (balance_of_range user t (run txs s) Wl).
Qed.

(** C2 (amended) — Monotonic fill bound.  In every state reached from
    deployment by well-formed transactions, under the collision-free
    idealisation of the digest: a fresh contract has every fill counter at
    zero; no transaction lowers a counter; the counter of every order is at
    most its [amountSell]; and a [fillOrder] asking for more than the remaining
    capacity is always rejected, leaving the state as it was -- with
    [InsufficientOrderRemaining] whenever the checks that come first (expiry,
    taker, cancellation, signature) pass. *)
Theorem fill_counter_monotone_and_bounded `{CF : !CollisionFree} x txs :
  Forall (fun tx => wf_call (snd tx)) txs ->
  let s := run txs (initial_state x) in
  (forall d, filled_of d (initial_state x) = 0) /\
  (forall d env c, wf_call c -> filled_of d s <= filled_of d (step s (env, c))) /\
  (forall o, wf_order o -> filled_of (_orderHash o) s <= amountSell o) /\
  (forall env o a sg,
     wf_order o ->
     amountSell o - filled_of (_orderHash o) s < a ->
     exists e,
       transact (fillOrder env o a sg) s = (inl e, s) /\
       (block_timestamp env <= expiration o ->
        taker o = 0 \/ taker o = msg_sender env ->
        is_cancelled (_orderHash o) s = false ->
        ECDSA_recover (_orderHash o) sg = Some (maker o) ->
        e = InsufficientOrderRemaining)).
Proof.
  intros Wt s.
  pose proof (run_wf txs _ (initial_state_wf x) Wt) as [_ He].
  pose proof (run_fill_bounded txs _ Wt (initial_fill_bounded x)) as Hb.
  fold s in He, Hb.
  split; [reflexivity|].
  split; [intros d env c Wc; apply step_filled_monotone, Wc|].
  split; [exact Hb|].
  intros env o a sg Wo Hover.
  rewrite fillOrder_transact by exact He.
  destruct (fill_checks env o a sg s) as [e|p] eqn:E.
  - exists e. split; [reflexivity|]. intros H1 H2 H3 H4.
    rewrite fill_checks_over_capacity in E by auto. congruence.
  - apply fill_checks_inr in E as (_&_&_&_&Hcap&_). lia.
Qed.


(** C4 — Proportional counter-amount, rounded down.  In every [fillOrder]
    that succeeds the counter-amount is [amountBuy * amountToFill /
    amountSell] rounded down; the maker's entry for the sell token is debited
    [amountToFill] and the caller's credited the same, the caller's entry for
    the buy token is debited the counter-amount and the maker's credited the
    same (entries that coincide receive the sum of their movements).  With
    amountSell = 100, amountBuy = 200, amountToFill = 40 the counter-amount is
    80; with amountSell = 3, amountBuy = 10, amountToFill = 1 it is 3. *)
Theorem fill_moves_proportional_amounts env o a sg s s' :
  transact (fillOrder env o a sg) s = (inr tt, s') ->
  let counterAmount := amountBuy o * a / amountSell o in
  proportionalBuyAmount o a = inr counterAmount /\
  (0 < amountSell o ->
   amountSell o * counterAmount <= amountBuy o * a
   < amountSell o * (counterAmount + 1)) /\
  (forall user token,
     balance_of user token s'
     = balance_of user token s
       - (if decide ((maker o, tokenSell o) = (user, token)) then a else 0)
       + (if decide ((maker o, tokenBuy o) = (user, token)) then counterAmount else 0)
       - (if decide ((msg_sender env, tokenBuy o) = (user, token)) then counterAmount else 0)
       + (if decide ((msg_sender env, tokenSell o) = (user, token)) then a else 0)) /\
  (maker o <> msg_sender env -> tokenSell o <> tokenBuy o ->
   balance_of (maker o) (tokenSell o) s'
   = balance_of (maker o) (tokenSell o) s - a /\
   balance_of (maker o) (tokenBuy o) s'
   = balance_of (maker o) (tokenBuy o) s + counterAmount /\
   balance_of (msg_sender env) (tokenBuy o) s'
   = balance_of (msg_sender env) (tokenBuy o) s - counterAmount /\
   balance_of (msg_sender env) (tokenSell o) s'
   = balance_of (msg_sender env) (tokenSell o) s + a) /\
  (forall m t ts tb e sl,
     proportionalBuyAmount (mkOrder m t ts tb 100 200 e sl) 40 = inr 80) /\
  (forall m t ts tb e sl,
     proportionalBuyAmount (mkOrder m t ts tb 3 10 e sl) 1 = inr 3).
Proof.
  intros H counterAmount.
  assert (He : entered s = false).
  { destruct (entered s) eqn:E; [|reflexivity].
    rewrite fillOrder_reentrant in H by exact E. discriminate. }
  apply fillOrder_inr in H as (p & Hc & -> & _); [|exact He].
  apply fill_checks_inr in Hc as (_&_&_&_&_&_&Hm&Hz&->&_).
  fold counterAmount.
  assert (Hbal : forall user token,
     balance_of user token
       (set_entered false (settled env o a counterAmount (set_entered true s)))
     = balance_of user token s
       - (if decide ((maker o, tokenSell o) = (user, token)) then a else 0)
       + (if decide ((maker o, tokenBuy o) = (user, token)) then counterAmount else 0)
       - (if decide ((msg_sender env, tokenBuy o) = (user, token)) then counterAmount else 0)
       + (if decide ((msg_sender env, tokenSell o) = (user, token)) then a else 0)).
  { intros user token.
    exact (settled_balance env o a counterAmount (set_entered true s) user token). }
  split; [|split; [|split; [|split; [|split]]]].
  - unfold proportionalBuyAmount. rewrite checked_mul_fits by exact Hm.
    apply checked_div_nonzero, Hz.
  - intros Hpos. subst counterAmount. split.
    + apply Z.mul_div_le. exact Hpos.
    + pose proof (Z.mul_succ_div_gt (amountBuy o * a) (amountSell o) Hpos) as G.
      unfold Z.succ in G. exact G.
  - exact Hbal.
  - intros Hp Ht. rewrite !Hbal. repeat split; entry_cases.
  - reflexivity.
  - reflexivity.
Qed.

(** C5 (amended) — deposit.  A deposit of the zero token address is rejected
    with [InvalidTokenAddress]; whatever the rejection, the state is left as
    it was; a deposit that goes through raises [balances[sender][token]] by
    exactly [amount] and touches no other entry.  The amount is not checked:
    a deposit of zero goes through whenever the token accepts the transfer. *)
Theorem deposit_contract env token amount s :
  entered s = false ->
  (token = 0 ->
   transact (deposit env token amount) s = (inl InvalidTokenAddress, s)) /\
  (forall e s', transact (deposit env token amount) s = (inl e, s') -> s' = s) /\
  (forall s',
     transact (deposit env token amount) s = (inr tt, s') ->
     token <> 0 /\
     forall user t,
       balance_of user t s'
       = balance_of user t s
         + (if decide ((msg_sender env, token) = (user, t)) then amount else 0)) /\
  (amount = 0 -> token <> 0 -> wf_ledger s ->
   (exists x', safeTransferFrom token (msg_sender env) this 0 (tokens s) = Some x') ->
   exists s', transact (deposit env token amount) s = (inr tt, s')).
Proof.
  intros He. split; [|split; [|split]].
  - intros ->. rewrite deposit_transact by exact He. reflexivity.
  - intros e s' H. eapply transact_inl, H.
  - intros s' H. split.
    + apply (single_call_cases env (CallDeposit token amount)) in H
        as [(e & [=] & _) | (_ & Hz & _)]; [exact Hz | reflexivity].
    + apply deposit_inr in H as [H _]. exact H.
  - intros -> Hz W [x' Hx]. rewrite deposit_transact by exact He.
    destruct (Z.eqb_spec token 0); [contradiction|]. rewrite Hx.
    pose proof (balance_of_range (msg_sender env) token s W) as [_ Hr].
    case (Z.ltb_spec MAX_UINT256 (balance_of (msg_sender env) token s + 0));
      [lia | eauto].
Qed.

(** C6 (amended) — verifyOrder.  It reads nothing but its arguments and
    writes nothing: when the signature library recovers a signer it returns
    whether that signer is the maker, in the state it was called in; when the
    library rejects the signature it does not return false, the library's
    revert propagates. *)
Theorem verifyOrder_outcome o sg s :
  verifyOrder o sg s
  = match ECDSA_recover (_orderHash o) sg with
    | Some signer => (inr (signer =? maker o), s)
    | None => (inl ECDSAInvalidSignature, s)
    end.
Proof.
  unfold verifyOrder, bind, recover, ret, revert_with.
  change (_hashTypedDataV4 _) with (_orderHash o).
  destruct (ECDSA_recover (_orderHash o) sg); reflexivity.
Qed.

(** C7 — Batch fill.  Arrays of different lengths are rejected with
    [ArrayLengthMismatch]; arrays of one length above [MAX_BATCH_SIZE] with
    [TooManyOrders]; otherwise the batch does what calling [fillOrder] on the
    elements one by one, in array order, does: if all of them succeed it
    succeeds in the state they end in, and if one of them fails it fails with
    that error and no part of the state changes. *)
Theorem fillOrdersBatch_contract env os amts sgs s :
  entered s = false ->
  (length os <> length amts \/ length os <> length sgs ->
   transact (fillOrdersBatch env os amts sgs) s = (inl ArrayLengthMismatch, s)) /\
  (length amts = length os -> length sgs = length os ->
   MAX_BATCH_SIZE < Z.of_nat (length os) ->
   transact (fillOrdersBatch env os amts sgs) s = (inl TooManyOrders, s)) /\
  (length amts = length os -> length sgs = length os ->
   Z.of_nat (length os) <= MAX_BATCH_SIZE ->
   transact (fillOrdersBatch env os amts sgs) s
   = match fill_one_by_one env (zip3 os amts sgs) s with
     | (inr _, s') => (inr tt, s')
     | (inl e, _) => (inl e, s)
     end) /\
  (forall e s',
     transact (fillOrdersBatch env os amts sgs) s = (inl e, s') -> s' = s).
Proof.
  intros He. unfold MAX_BATCH_SIZE. split; [|split; [|split]].
  - apply fillOrdersBatch_mismatch, He.
  - intros Ha Hs Hn. apply fillOrdersBatch_too_many; auto; lia.
  - intros Ha Hs Hn. apply fillOrdersBatch_transact; auto; lia.
  - intros e s' H. eapply transact_inl, H.
Qed.

(** C8 (amended) — Cancellation.  [cancelOrder] from anyone but the maker is
    rejected with [OnlyMakerCanCancel] and changes nothing; from the maker it
    succeeds and sets the flag of the order's commitment, balances and fill
    counters untouched, and when the flag was already set the whole storage
    is as before (only the event is emitted again).  No transaction clears a
    flag.  A [fillOrder] on a cancelled commitment is always rejected, the
    state unchanged -- with [OrderAlreadyCancelled] whenever the two checks
    that come first (expiry, taker) pass. *)
Theorem cancellation_lifecycle env o s :
  (msg_sender env <> maker o ->
   transact (cancelOrder env o) s = (inl OnlyMakerCanCancel, s)) /\
  (msg_sender env = maker o ->
   exists s',
     transact (cancelOrder env o) s = (inr tt, s') /\
     is_cancelled (_orderHash o) s' = true /\
     balances s' = balances s /\
     filledAmountSell s' = filledAmountSell s /\
     entered s' = entered s /\ tokens s' = tokens s /\
     (is_cancelled (_orderHash o) s = true ->
      cancelledOrders s' = cancelledOrders s)) /\
  (forall txs, is_cancelled (_orderHash o) s = true ->
               is_cancelled (_orderHash o) (run txs s) = true) /\
  (forall env' a sg,
     is_cancelled (_orderHash o) s = true ->
     exists e,
       transact (fillOrder env' o a sg) s = (inl e, s) /\
       (entered s = false ->
        block_timestamp env' <= expiration o ->
        taker o = 0 \/ taker o = msg_sender env' ->
        e = OrderAlreadyCancelled)).
Proof.
  split; [|split; [|split]].
  - intros Hne. unfold transact. rewrite cancelOrder_eq.
    destruct (Z.eqb_spec (msg_sender env) (maker o)); [contradiction | reflexivity].
  - intros Heq. unfold transact. rewrite cancelOrder_eq, Heq, Z.eqb_refl.
    eexists. split; [reflexivity|].
    split.
    { change (is_cancelled (_orderHash o) (set_cancelled (_orderHash o) true s) = true).
      rewrite is_cancelled_set_cancelled. case_decide; [reflexivity | contradiction]. }
    repeat (split; [reflexivity|]).
    intros Hc. cbn [cancelledOrders append_event set_cancelled].
    apply insert_id. unfold is_cancelled in Hc.
    destruct (cancelledOrders s !! _orderHash o) as [[|]|]; simpl in Hc;
      congruence.
  - intros txs Hc. apply run_cancelled_permanent, Hc.
  - intros env' a sg Hc.
    assert (Hno : forall p, fill_checks env' o a sg s <> inr p).
    { intros p Hp. apply fill_checks_inr in Hp as (_&_&Hp&_). congruence. }
    destruct (fillOrder_refused env' o a sg s Hno) as [e He].
    exists e. split; [exact He|]. intros Hen H1 H2.
    rewrite fillOrder_transact in He by exact Hen.
    rewrite fill_checks_cancelled in He by assumption. congruence.
Qed.


(** C10 — The division of the counter-amount is not guarded.  For an order
    with [amountSell = 0] and [amountToFill = 0] that passes the expiry,
    taker, cancellation and signature checks (its counter being zero, the
    remaining capacity 0 is not less than 0), [fillOrder] aborts with the
    division-by-zero panic, which is none of the declared errors, and leaves
    the state unchanged; when [amountSell] is not zero no [fillOrder] ever
    ends in that panic. *)
Theorem unguarded_division env o a sg s :
  entered s = false ->
  block_timestamp env <= expiration o ->
  taker o = 0 \/ taker o = msg_sender env ->
  is_cancelled (_orderHash o) s = false ->
  ECDSA_recover (_orderHash o) sg = Some (maker o) ->
  filled_of (_orderHash o) s = 0 ->
  (amountSell o = 0 -> a = 0 ->
   transact (fillOrder env o a sg) s = (inl (Panic PANIC_DIVISION_BY_ZERO), s) /\
   declared_error (Panic PANIC_DIVISION_BY_ZERO) = false) /\
  (amountSell o <> 0 ->
   forall env' a' sg' s0,
     fst (transact (fillOrder env' o a' sg') s0)
     <> inl (Panic PANIC_DIVISION_BY_ZERO)).
Proof.
  intros He H1 H2 H3 H4 H5. split.
  - intros Hz ->. split; [|reflexivity].
    rewrite fillOrder_transact by exact He.
    unfold fill_checks, proportionalBuyAmount, checked_sub, checked_mul, checked_div.
    case (Z.ltb_spec (expiration o) (block_timestamp env)); [lia | intros _].
    assert (negb (taker o =? 0) && negb (taker o =? msg_sender env) = false) as ->.
    { destruct H2 as [-> | ->]; rewrite ?Z.eqb_refl; simpl;
        [reflexivity | apply andb_false_r]. }
    rewrite H3, H4, Z.eqb_refl, H5, Hz, Z.mul_0_r. reflexivity.
  - intros Hz env' a' sg' s0 H.
    apply fillOrder_inl in H as [H | [H | H]]; try discriminate.
    apply fill_checks_inl in H as (_ & _ & H). auto.
Qed.

(** ** Further properties of the contract *)

(** X1 — withdraw.  The zero token address is rejected with
    [InvalidTokenAddress]; an amount above the caller's balance with
    [InsufficientBalance]; whatever the rejection, the state is left as it
    was; a withdrawal that goes through lowers [balances[sender][token]] by
    exactly [amount] and touches no other entry.  The entry is lowered before
    the token is called: if the token then refuses the transfer, the state at
    the point of failure already shows the lowered balance (and the revert
    undoes it). *)
Theorem withdraw_contract env token amount s :
  entered s = false ->
  (token = 0 ->
   transact (withdraw env token amount) s = (inl InvalidTokenAddress, s)) /\
  (token <> 0 -> balance_of (msg_sender env) token s < amount ->
   transact (withdraw env token amount) s = (inl InsufficientBalance, s)) /\
  (forall e s', transact (withdraw env token amount) s = (inl e, s') -> s' = s) /\
  (forall s',
     transact (withdraw env token amount) s = (inr tt, s') ->
     amount <= balance_of (msg_sender env) token s /\
     forall user t,
       balance_of user t s'
       = balance_of user t s
         - (if decide ((msg_sender env, token) = (user, t)) then amount else 0)) /\
  (token <> 0 -> amount <= balance_of (msg_sender env) token s ->
   safeTransfer token (msg_sender env) amount (tokens s) = None ->
   exists s1,
     withdraw env token amount s = (inl SafeERC20FailedOperation, s1) /\
     balance_of (msg_sender env) token s1
     = balance_of (msg_sender env) token s - amount).
Proof.
  intros He. split; [|split; [|split; [|split]]].
  - intros ->. rewrite withdraw_transact by exact He. reflexivity.
  - intros Hz Hlt. rewrite withdraw_transact by exact He.
    destruct (Z.eqb_spec token 0); [contradiction|].
    case (Z.ltb_spec (balance_of (msg_sender env) token s) amount);
      [reflexivity | lia].
  - intros e s' H. eapply transact_inl, H.
  - intros s' H. split.
    + apply (single_call_cases env (CallWithdraw token amount)) in H
        as [(e & [=] & _) | (_ & _ & Hle & _)]; [exact Hle | reflexivity].
    + apply withdraw_inr in H as [H _]. exact H.
  - intros Hz Hle Hx. unfold withdraw. rewrite nonReentrant_eq, He.
    unfold validToken. destruct (Z.eqb_spec token 0); [contradiction|].
    rewrite bind_unfold. unfold gets at 1.
    change (balance_of (msg_sender env) token (set_entered true s))
      with (balance_of (msg_sender env) token s).
    case (Z.ltb_spec (balance_of (msg_sender env) token s) amount);
      [lia | intros _].
    rewrite bind_unfold, balance_sub_eq.
    change (balance_of (msg_sender env) token (set_entered true s))
      with (balance_of (msg_sender env) token s).
    case (Z.ltb_spec (balance_of (msg_sender env) token s) amount);
      [lia | intros _].
    rewrite bind_unfold. unfold external_call. rewrite bind_unfold.
    unfold gets at 1. cbn [tokens set_balance set_entered]. rewrite Hx.
    eexists. split; [reflexivity|].
    rewrite balance_of_set_balance. case_decide; [reflexivity | contradiction].
Qed.

(** X2 — cancelOrdersBatch.  More than [MAX_BATCH_SIZE] orders are rejected
    with [TooManyOrders]; a batch holding an order whose maker is not the
    caller is rejected with [OnlyMakerCanCancel] and cancels nothing, not even
    the orders before it; a batch of the caller's own orders succeeds and
    sets the flag of each of them, leaving every other flag, every balance
    and every fill counter as it was. *)
Theorem cancelOrdersBatch_contract env os s :
  (MAX_BATCH_SIZE < Z.of_nat (length os) ->
   transact (cancelOrdersBatch env os) s = (inl TooManyOrders, s)) /\
  (Z.of_nat (length os) <= MAX_BATCH_SIZE ->
   Exists (fun o => msg_sender env <> maker o) os ->
   transact (cancelOrdersBatch env os) s = (inl OnlyMakerCanCancel, s)) /\
  (Z.of_nat (length os) <= MAX_BATCH_SIZE ->
   Forall (fun o => msg_sender env = maker o) os ->
   exists s',
     transact (cancelOrdersBatch env os) s = (inr tt, s') /\
     balances s' = balances s /\
     filledAmountSell s' = filledAmountSell s /\
     forall d, is_cancelled d s' = true <->
               (is_cancelled d s = true \/ exists o, In o os /\ _orderHash o = d)).
Proof.
  split; [|split].
  - intros Hn. unfold transact. rewrite cancelOrdersBatch_eq.
    case (Z.ltb_spec MAX_BATCH_SIZE (Z.of_nat (length os))); [reflexivity | lia].
  - intros Hn Hex. unfold transact. rewrite cancelOrdersBatch_eq.
    case (Z.ltb_spec MAX_BATCH_SIZE (Z.of_nat (length os))); [lia | intros _].
    destruct (cancel_in_turn_refused env os s Hex) as [s1 ->]. reflexivity.
  - intros Hn Hall. unfold transact. rewrite cancelOrdersBatch_eq.
    case (Z.ltb_spec MAX_BATCH_SIZE (Z.of_nat (length os))); [lia | intros _].
    destruct (cancel_in_turn_accepted env os s Hall) as (s' & -> & H).
    exists s'. split; [reflexivity | exact H].
Qed.

(** X3 — The commitment identifies the order.  Under the collision-free
    idealisation of the digest, two well-formed orders have the same
    commitment exactly when they agree on every field. *)
Theorem commitment_identifies_order `{CF : !CollisionFree} o1 o2 :
  wf_order o1 -> wf_order o2 ->
  (_orderHash o1 = _orderHash o2 <-> o1 = o2).
Proof.
  intros W1 W2. split; [apply _orderHash_inj; assumption | intros ->; reflexivity].
Qed.

(** X4 — The two gates in front of every fill.  After its expiration an
    order is rejected with [OrderExpired], whatever the signature, the
    balances or the caller; before it, an order reserved for a taker is
    rejected with [NotAuthorizedTaker] for every other caller, whatever the
    signature and the balances. *)
Theorem fill_gates env o a sg s :
  entered s = false ->
  (expiration o < block_timestamp env ->
   transact (fillOrder env o a sg) s = (inl OrderExpired, s)) /\
  (block_timestamp env <= expiration o ->
   taker o <> 0 -> taker o <> msg_sender env ->
   transact (fillOrder env o a sg) s = (inl NotAuthorizedTaker, s)).
Proof.
  intros He. split.
  - intros Hexp. rewrite fillOrder_transact by exact He. unfold fill_checks.
    case (Z.ltb_spec (expiration o) (block_timestamp env)); [reflexivity | lia].
  - intros Hexp Ht0 Hts. rewrite fillOrder_transact by exact He. unfold fill_checks.
    case (Z.ltb_spec (expiration o) (block_timestamp env)); [lia | intros _].
    destruct (Z.eqb_spec (taker o) 0); [contradiction|].
    destruct (Z.eqb_spec (taker o) (msg_sender env)); [contradiction|].
    reflexivity.
Qed.

(** ** The log *)


(** X6 — The log accounts for the fill counters.  In every state reached from
    deployment, [filledAmountSell[digest]] is the sum of the amounts of the
    [OrderFilled] events logged for that digest; more generally the equality,
    once it holds, is kept by every history of transactions. *)
Theorem fill_counters_match_log txs d :
  (forall s, filled_of d s = filled_in_log d (events s) ->
             filled_of d (run txs s) = filled_in_log d (events (run txs s))) /\
  (forall x, filled_of d (run txs (initial_state x))
             = filled_in_log d (events (run txs (initial_state x)))).
Proof.
  split; [apply run_filled_in_log|].
  intros x. apply run_filled_in_log. reflexivity.
Qed.

(** X7 — The log accounts for the cancellation flags.  In every state reached
    from deployment, [cancelledOrders[digest]] is set exactly when an
    [OrderCancelled] event is logged for that digest. *)
Theorem cancellation_flags_match_log txs d :
  (forall s, is_cancelled d s = cancelled_in_log d (events s) ->
             is_cancelled d (run txs s)
             = cancelled_in_log d (events (run txs s))) /\
  (forall x,
     let s := run txs (initial_state x) in
     is_cancelled d s = cancelled_in_log d (events s) /\
     (is_cancelled d s = true <-> exists m, In (OrderCancelled d m) (events s))).
Proof.
  split; [apply run_cancelled_in_log|]. intros x s.
  assert (E : is_cancelled d s = cancelled_in_log d (events s))
    by (apply run_cancelled_in_log; reflexivity).
  split; [exact E|]. rewrite E. apply cancelled_in_log_In.
Qed.

(** X8 — The log accounts for the ledger totals.  In every state reached from
    deployment, the total of a token over all accounts is the sum of the
    logged deposits of that token minus the sum of its logged withdrawals. *)
Theorem ledger_totals_match_log txs token :
  (forall s, sum_token token (balances s) = custody_in_log token (events s) ->
             sum_token token (balances (run txs s))
             = custody_in_log token (events (run txs s))) /\
  (forall x, sum_token token (balances (run txs (initial_state x)))
             = custody_in_log token (events (run txs (initial_state x)))).
Proof.
  split; [apply run_custody_in_log|].
  intros x. apply run_custody_in_log. reflexivity.
Qed.

(** X9 — Only the maker cancels.  Under the collision-free idealisation of
    the digest, in every state reached from deployment by well-formed
    transactions: if the flag of a well-formed order's commitment is set,
    a cancellation sent by the order's maker is in the log, and no
    cancellation of that commitment was sent by anyone else. *)
Theorem only_the_maker_cancels `{CF : !CollisionFree} x txs o :
  Forall (fun tx => wf_call (snd tx)) txs ->
  wf_order o ->
  let s := run txs (initial_state x) in
  (forall m, In (OrderCancelled (_orderHash o) m) (events s) -> m = maker o) /\
  (is_cancelled (_orderHash o) s = true ->
   In (OrderCancelled (_orderHash o) (maker o)) (events s)).
Proof.
  intros Wt Wo s.
  assert (Hinv : cancellations_by_makers (events s)).
  { apply run_cancellations_by_makers; [exact Wt | intros d m []]. }
  assert (Hm : forall m, In (OrderCancelled (_orderHash o) m) (events s) ->
                         m = maker o).
  { intros m Hin. destruct (Hinv _ _ Hin) as (o' & Wo' & Hh & <-).
    apply _orderHash_inj in Hh; [congruence | assumption..]. }
  split; [exact Hm|]. intros Hc.
  assert (E : is_cancelled (_orderHash o) s
              = cancelled_in_log (_orderHash o) (events s))
    by (apply run_cancelled_in_log; reflexivity).
  rewrite E in Hc. apply cancelled_in_log_In in Hc as (m & Hin).
  rewrite <- (Hm m Hin). exact Hin.
Qed.

(** X10 — Every fill is authorised.  Under the collision-free idealisation
    of the digest, in every state reached from deployment by well-formed
    transactions, every [OrderFilled] event logged for the commitment of a
    well-formed order is for an amount between zero and the order's
    [amountSell], was sent by the order's taker if the order names one, and
    came with a signature that recovers to the order's maker; in particular
    the fill counter of an order that was never signed by its maker is zero. *)
Theorem every_fill_is_authorised `{CF : !CollisionFree} x txs o :
  Forall (fun tx => wf_call (snd tx)) txs ->
  wf_order o ->
  let s := run txs (initial_state x) in
  (forall f a,
     In (OrderFilled (_orderHash o) f a) (events s) ->
     0 <= a <= amountSell o /\
     (taker o = 0 \/ taker o = f) /\
     exists sg, ECDSA_recover (_orderHash o) sg = Some (maker o)) /\
  (filled_of (_orderHash o) s <> 0 ->
   exists sg, ECDSA_recover (_orderHash o) sg = Some (maker o)).
Proof.
  intros Wt Wo s.
  assert (Hlog : fills_authorised (events s)).
  { apply (run_fills_authorised txs (initial_state x) Wt).
    split; [apply initial_state_wf | intros d f a []]. }
  assert (H : forall f a,
     In (OrderFilled (_orderHash o) f a) (events s) ->
     0 <= a <= amountSell o /\
     (taker o = 0 \/ taker o = f) /\
     exists sg, ECDSA_recover (_orderHash o) sg = Some (maker o)).
  { intros f a Hin.
    destruct (Hlog _ _ _ Hin) as (Ha & o' & sg & Wo' & Hh & Hle & Hsg & Htk).
    apply _orderHash_inj in Hh; [|assumption..]. subst o'.
    split; [lia|]. split; [exact Htk | exists sg; exact Hsg]. }
  split; [exact H|]. intros Hf.
  assert (E : filled_of (_orderHash o) s = filled_in_log (_orderHash o) (events s))
    by (apply run_filled_in_log; reflexivity).
  rewrite E in Hf. apply filled_in_log_nonzero in Hf as (f & a & Hin).
  apply (H f a Hin).
Qed.

(** X11 — A cancellation is final.  In every state reached from deployment no
    [OrderFilled] event of a commitment is logged after an [OrderCancelled]
    event of it; and from any state in which a commitment is cancelled, no
    history of transactions moves its fill counter. *)
Theorem no_fill_after_cancellation txs d :
  (forall x, cancellation_final d (events (run txs (initial_state x)))) /\
  (forall s, is_cancelled d s = true ->
             filled_of d (run txs s) = filled_of d s).
Proof.
  split.
  - intros x.
    apply (run_inv (fun s => is_cancelled d s = cancelled_in_log d (events s) /\
                             cancellation_final d (events s)) txs).
    + intros [env c] s _. apply step_cancellation_final.
    + split; [reflexivity|]. intros before after m f a Hcut.
      destruct before; discriminate.
  - intros s Hc.
    apply (run_rel (fun s s' => is_cancelled d s = true ->
                      is_cancelled d s' = true /\ filled_of d s' = filled_of d s));
      [auto | | | exact Hc].
    + intros s1 s2 s3 H12 H23 H. destruct (H12 H) as [H2 E2].
      destruct (H23 H2) as [H3 E3]. split; [exact H3 | congruence].
    + intros [env c] s0 _. apply step_cancelled_frozen.
Qed.

(** X12 — No debit without the owner's doing.  A transaction of well-formed
    arguments sent by someone else than [u], and carrying no order made by
    [u] that sells token [t] together with a signature recovering to [u],
    does not lower [balances[u][t]]: an entry goes down only by its owner's
    own withdrawal or fill, or by the fill of an order its owner signed. *)
Theorem no_debit_without_consent env c u t s :
  wf_call c ->
  msg_sender env <> u ->
  (forall o a sg, In (o, a, sg) (fills_of c) ->
     maker o = u -> tokenSell o = t ->
     ECDSA_recover (_orderHash o) sg <> Some u) ->
  balance_of u t s <= balance_of u t (step s (env, c)).
Proof.
  intros Wc Hu Hsig. revert s.
  apply (step_rel (fun s s' => balance_of u t s <= balance_of u t s'));
    [intros; lia | intros; lia |].
  intros c' s Hin.
  pose proof (singles_wf _ _ Wc Hin) as Wc'.
  destruct (single_step env c' s (singles_single _ _ Hin)) as [-> | Heff];
    [lia|].
  destruct c' as [token amount|token amount|o a sg|?|o|?];
    cbn [effect_of wf_call] in *; try contradiction.
  - destruct Heff as (_ & _ & x' & _ & ->).
    change (balance_of u t s
            <= balance_of u t (credit (msg_sender env) token amount
                                 (set_tokens x' (set_entered true s)))).
    rewrite balance_of_credit.
    change (balance_of u t (set_tokens x' (set_entered true s)))
      with (balance_of u t s).
    case_decide as E; [injection E as E _; contradiction | lia].
  - destruct Heff as (_ & _ & x' & _ & ->).
    change (balance_of u t s
            <= balance_of u t (credit (msg_sender env) token (- amount)
                                 (set_entered true s))).
    rewrite balance_of_credit.
    change (balance_of u t (set_entered true s)) with (balance_of u t s).
    case_decide as E; [injection E as E _; contradiction | lia].
  - destruct Heff as (p & Hc & _ & ->).
    change (balance_of u t s
            <= balance_of u t (settled env o a p (set_entered true s))).
    rewrite settled_balance.
    change (balance_of u t (set_entered true s)) with (balance_of u t s).
    destruct Wc' as [(_&_&_&_&[Hs0 _]&[Hb0 _]&_) [Ha0 _]].
    pose proof (fill_checks_amount_nonneg _ _ _ _ _ _ Hc Hb0 Hs0 Ha0) as Hp0.
    apply fill_checks_inr in Hc as (_&_&_&Hrec&_).
    assert (Hfill : In (o, a, sg) (fills_of c)).
    { destruct c; cbn [singles fills_of] in *;
        try (destruct Hin as [[=] | []]; fail).
      - destruct Hin as [[= -> -> ->] | []]. left. reflexivity.
      - apply in_map_iff in Hin as ([[o' a'] sg'] & [= -> -> ->] & Hin). exact Hin.
      - apply in_map_iff in Hin as (? & [=] & _). }
    repeat case_decide;
      repeat match goal with
             | H : (_, _) = (_, _) |- _ => injection H as ? ?
             end;
      try contradiction; try lia.
    all: exfalso; eapply (Hsig o a sg Hfill); [assumption | assumption | congruence].
  - destruct Heff as (_ & ->). apply Z.le_refl.
Qed.

(** ** Custody, rounding and edge cases *)

(** X13 — Custody backs the ledger.  When the tokens are standard (a transfer
    that goes through moves exactly [amount] of that token into or out of the
    contract's holding) and no transaction is sent by the contract itself,
    every history keeps the difference between what the contract holds of a
    token and the ledger's total of it; from deployment on, the contract
    holds what it held at deployment plus the ledger's total. *)
Theorem custody_backs_ledger held txs token :
  standard_token held ->
  Forall (fun tx => msg_sender (fst tx) <> this) txs ->
  (forall s,
     held token (tokens (run txs s)) - sum_token token (balances (run txs s))
     = held token (tokens s) - sum_token token (balances s)) /\
  (forall x,
     held token (tokens (run txs (initial_state x)))
     = held token x + sum_token token (balances (run txs (initial_state x)))).
Proof.
  intros [Hin Hout] Hsend.
  assert (H : forall s,
     held token (tokens (run txs s)) - sum_token token (balances (run txs s))
     = held token (tokens s) - sum_token token (balances s)).
  { intros s.
    apply (run_rel (fun s s' =>
             held token (tokens s') - sum_token token (balances s')
             = held token (tokens s) - sum_token token (balances s)));
      [reflexivity | intros; lia |].
    intros [env c] s0 Hintx.
    rewrite List.Forall_forall in Hsend. specialize (Hsend _ Hintx).
    cbn [fst] in Hsend. revert s0.
    apply (step_rel (fun s s' =>
             held token (tokens s') - sum_token token (balances s')
             = held token (tokens s) - sum_token token (balances s)));
      [reflexivity | intros; lia |].
    intros c' s0 Hc'.
    destruct (single_step env c' s0 (singles_single _ _ Hc')) as [-> | Heff];
      [reflexivity|].
    destruct c' as [t amount|t amount|o a sg|?|o|?];
      cbn [effect_of] in Heff; try contradiction.
    - destruct Heff as (_ & _ & x' & Hx & ->).
      change (held token x'
              - sum_token token (balances (credit (msg_sender env) t amount
                                             (set_tokens x' (set_entered true s0))))
              = held token (tokens s0) - sum_token token (balances s0)).
      rewrite sum_token_credit, (Hin _ _ _ _ _ Hsend Hx token).
      change (balances (set_tokens x' (set_entered true s0))) with (balances s0).
      repeat case_decide; congruence || lia.
    - destruct Heff as (_ & _ & x' & Hx & ->).
      change (held token x'
              - sum_token token (balances (credit (msg_sender env) t (- amount)
                                             (set_entered true s0)))
              = held token (tokens s0) - sum_token token (balances s0)).
      rewrite sum_token_credit, (Hout _ _ _ _ _ Hsend Hx token).
      change (balances (set_entered true s0)) with (balances s0).
      repeat case_decide; congruence || lia.
    - destruct Heff as (p & _ & _ & ->).
      change (held token (tokens s0)
              - sum_token token (balances (settled env o a p (set_entered true s0)))
              = held token (tokens s0) - sum_token token (balances s0)).
      rewrite settled_sum. reflexivity.
    - destruct Heff as (_ & ->). reflexivity. }
  split; [exact H|]. intros x. specialize (H (initial_state x)).
  change (tokens (initial_state x)) with x in H.
  change (balances (initial_state x)) with (∅ : gmap (Z * Z) Z) in H.
  rewrite sum_token_empty in H. lia.
Qed.


(** X15 — A fill of zero.  On an order that passes the expiry, taker,
    cancellation and signature checks and sells a non-zero amount, a fill of
    amount zero always goes through -- even when the order is already filled
    completely and whatever the maker and the caller hold: it moves no
    balance, leaves every fill counter and flag as it was, and logs an
    [OrderFilled] event of amount zero. *)
Theorem zero_fill env o sg s :
  entered s = false ->
  wf_ledger s ->
  block_timestamp env <= expiration o ->
  taker o = 0 \/ taker o = msg_sender env ->
  is_cancelled (_orderHash o) s = false ->
  ECDSA_recover (_orderHash o) sg = Some (maker o) ->
  filled_of (_orderHash o) s <= amountSell o <= MAX_UINT256 ->
  amountSell o <> 0 ->
  exists s',
    transact (fillOrder env o 0 sg) s = (inr tt, s') /\
    (forall user t, balance_of user t s' = balance_of user t s) /\
    (forall d, filled_of d s' = filled_of d s) /\
    cancelledOrders s' = cancelledOrders s /\
    events s' = events s ++ [OrderFilled (_orderHash o) (msg_sender env) 0].
Proof.
  intros He W H1 H2 H3 H4 [H5 H5'] H6.
  pose proof (balance_of_range (maker o) (tokenSell o) s W) as [B1 _].
  pose proof (balance_of_range (msg_sender env) (tokenBuy o) s W) as [B2 _].
  pose proof (balance_of_range (maker o) (tokenBuy o) s W) as [_ B3].
  pose proof (balance_of_range (msg_sender env) (tokenSell o) s W) as [_ B4].
  assert (Hp : amountBuy o * 0 / amountSell o = 0)
    by (rewrite Z.mul_0_r; apply Z.div_0_l; exact H6).
  assert (Hc : fill_checks env o 0 sg s = inr (amountBuy o * 0 / amountSell o)).
  { apply fill_checks_pass; try assumption; try lia.
    rewrite Z.mul_0_r. unfold MAX_UINT256. lia. }
  rewrite Hp in Hc.
  assert (H : transact (fillOrder env o 0 sg) s
              = (inr tt, set_entered false (settled env o 0 0 (set_entered true s))))
    by (apply fillOrder_goes_through; try assumption; lia).
  eexists. split; [exact H|].
  apply fillOrder_moves in H as (_ & Hb & Hf & Hcn & _ & Hev & _).
  rewrite Hp in Hb. split; [|split; [|split]].
  - intros user t. rewrite Hb. repeat case_decide; lia.
  - intros d. rewrite Hf. case_decide; lia.
  - exact Hcn.
  - exact Hev.
Qed.

(** X16 — A fill below the price granularity is free.  When
    [amountBuy * amountToFill < amountSell] the counter-amount rounds down to
    zero: on an order that passes the checks, such a fill within the
    remaining capacity and the maker's balance goes through whatever the
    caller holds of the buy token, moves [amountToFill] of the sell token
    from the maker to the caller, and moves nothing in return. *)
Theorem dust_fill_is_free env o a sg s :
  entered s = false ->
  wf_ledger s ->
  wf_order o ->
  block_timestamp env <= expiration o ->
  taker o = 0 \/ taker o = msg_sender env ->
  is_cancelled (_orderHash o) s = false ->
  ECDSA_recover (_orderHash o) sg = Some (maker o) ->
  0 <= a <= amountSell o - filled_of (_orderHash o) s ->
  amountBuy o * a < amountSell o ->
  a <= balance_of (maker o) (tokenSell o) s ->
  balance_of (msg_sender env) (tokenSell o) s + a <= MAX_UINT256 ->
  exists s',
    transact (fillOrder env o a sg) s = (inr tt, s') /\
    forall user t,
      balance_of user t s'
      = balance_of user t s
        - (if decide ((maker o, tokenSell o) = (user, t)) then a else 0)
        + (if decide ((msg_sender env, tokenSell o) = (user, t)) then a else 0).
Proof.
  intros He W Wo H1 H2 H3 H4 [Ha Hcap] Hdust Hmk Hts.
  destruct Wo as (_&_&_&_&[Hs0 Hs1]&[Hb0 Hb1]&_).
  pose proof (filled_of_range (_orderHash o) s W) as [F0 _].
  pose proof (balance_of_range (msg_sender env) (tokenBuy o) s W) as [B2 _].
  pose proof (balance_of_range (maker o) (tokenBuy o) s W) as [_ B3].
  assert (Hm : 0 <= amountBuy o * a) by (apply Z.mul_nonneg_nonneg; assumption).
  assert (Hp : amountBuy o * a / amountSell o = 0) by (apply Z.div_small; lia).
  assert (Hc : fill_checks env o a sg s = inr (amountBuy o * a / amountSell o))
    by (apply fill_checks_pass; try assumption; lia).
  rewrite Hp in Hc.
  assert (H : transact (fillOrder env o a sg) s
              = (inr tt, set_entered false (settled env o a 0 (set_entered true s))))
    by (apply fillOrder_goes_through; try assumption; lia).
  eexists. split; [exact H|].
  apply fillOrder_moves in H as (_ & Hb & _).
  rewrite Hp in Hb. intros user t. rewrite Hb. repeat case_decide; lia.
Qed.

(** X17 — Splitting a fill.  Filling [a1] and then [a2] of an order, compared
    with filling [a1 + a2] at once from the same state (the caller being
    someone else than the maker, the two tokens differing): the maker gives
    up the same amount of the sell token and the fill counter ends the same,
    but for the two fills the maker receives at most what the single fill
    pays, and at most one unit less. *)
Theorem split_fill_rounding env o a1 a2 sg s s1 s2 s12 :
  wf_order o -> 0 <= a1 -> 0 <= a2 ->
  maker o <> msg_sender env -> tokenSell o <> tokenBuy o ->
  transact (fillOrder env o a1 sg) s = (inr tt, s1) ->
  transact (fillOrder env o a2 sg) s1 = (inr tt, s2) ->
  transact (fillOrder env o (a1 + a2) sg) s = (inr tt, s12) ->
  balance_of (maker o) (tokenSell o) s2 = balance_of (maker o) (tokenSell o) s12 /\
  filled_of (_orderHash o) s2 = filled_of (_orderHash o) s12 /\
  balance_of (maker o) (tokenBuy o) s2 <= balance_of (maker o) (tokenBuy o) s12
  <= balance_of (maker o) (tokenBuy o) s2 + 1.
Proof.
  intros Wo Ha1 Ha2 Hp Ht H1 H2 H12.
  destruct Wo as (_&_&_&_&[Hs0 _]&[Hb0 _]&_).
  apply fillOrder_moves in H1 as (Hc1 & B1 & F1 & _).
  apply fillOrder_moves in H2 as (_ & B2 & F2 & _).
  apply fillOrder_moves in H12 as (_ & B12 & F12 & _).
  apply fill_checks_inr in Hc1 as (_&_&_&_&_&_&_&Hz&_).
  assert (Hpos : 0 < amountSell o) by lia.
  rewrite !B2, !B1, !B12, F2, F1, F12.
  split; [entry_cases|]. split; [entry_cases|].
  assert (Hr : amountBuy o * a1 / amountSell o + amountBuy o * a2 / amountSell o
               <= amountBuy o * (a1 + a2) / amountSell o
               <= amountBuy o * a1 / amountSell o
                  + amountBuy o * a2 / amountSell o + 1).
  { pose proof (Z.div_mod (amountBuy o * a1) (amountSell o) Hz) as D1.
    pose proof (Z.div_mod (amountBuy o * a2) (amountSell o) Hz) as D2.
    pose proof (Z.mod_pos_bound (amountBuy o * a1) (amountSell o) Hpos) as M1.
    pose proof (Z.mod_pos_bound (amountBuy o * a2) (amountSell o) Hpos) as M2.
    set (q1 := amountBuy o * a1 / amountSell o) in *.
    set (q2 := amountBuy o * a2 / amountSell o) in *.
    set (r1 := (amountBuy o * a1) mod amountSell o) in *.
    set (r2 := (amountBuy o * a2) mod amountSell o) in *.
    assert (E : amountBuy o * (a1 + a2) = (q1 + q2) * amountSell o + (r1 + r2))
      by lia.
    rewrite E. rewrite Z.div_add_l by exact Hz.
    assert (0 <= (r1 + r2) / amountSell o < 2); [|lia].
    split; [apply Z.div_pos; lia|].
    apply Z.div_lt_upper_bound; lia. }
  entry_cases.
Qed.

(** X18 — A maker filling their own order.  When the caller of a fill that
    goes through is the order's maker, no ledger entry changes, whatever the
    tokens and the amounts; the fill counter of the order still rises by
    [amountToFill]. *)
Theorem self_fill env o a sg s s' :
  msg_sender env = maker o ->
  transact (fillOrder env o a sg) s = (inr tt, s') ->
  (forall user t, balance_of user t s' = balance_of user t s) /\
  filled_of (_orderHash o) s' = filled_of (_orderHash o) s + a.
Proof.
  intros Hm H. apply fillOrder_moves in H as (_ & Hb & Hf & _).
  split.
  - intros user t. rewrite Hb, Hm. repeat case_decide; lia.
  - rewrite Hf. case_decide; [reflexivity | contradiction].
Qed.

(** X19 — [verifyOrder] predicts the signature check of a fill.  It returns
    the same result in every state.  When it returns true, no fill of that
    order with that signature is ever rejected for its signature; when it
    returns false every such fill is rejected, with [InvalidSignature] once
    the expiry, taker and cancellation checks have passed; when it reverts,
    every such fill reverts, with the library's error once those checks have
    passed. *)
Theorem verifyOrder_predicts_signature_check o sg s0 :
  (forall s1, fst (verifyOrder o sg s1) = fst (verifyOrder o sg s0)) /\
  (fst (verifyOrder o sg s0) = inr true ->
   forall env a s,
     fst (transact (fillOrder env o a sg) s) <> inl InvalidSignature /\
     fst (transact (fillOrder env o a sg) s) <> inl ECDSAInvalidSignature) /\
  (fst (verifyOrder o sg s0) = inr false ->
   forall env a s,
     exists e,
       transact (fillOrder env o a sg) s = (inl e, s) /\
       (entered s = false ->
        block_timestamp env <= expiration o ->
        taker o = 0 \/ taker o = msg_sender env ->
        is_cancelled (_orderHash o) s = false ->
        e = InvalidSignature)) /\
  (fst (verifyOrder o sg s0) = inl ECDSAInvalidSignature ->
   forall env a s,
     exists e,
       transact (fillOrder env o a sg) s = (inl e, s) /\
       (entered s = false ->
        block_timestamp env <= expiration o ->
        taker o = 0 \/ taker o = msg_sender env ->
        is_cancelled (_orderHash o) s = false ->
        e = ECDSAInvalidSignature)).
Proof.
  assert (Hgate : forall env a s e,
    transact (fillOrder env o a sg) s = (inl e, s) ->
    entered s = false ->
    block_timestamp env <= expiration o ->
    taker o = 0 \/ taker o = msg_sender env ->
    is_cancelled (_orderHash o) s = false ->
    match ECDSA_recover (_orderHash o) sg with
    | None => e = ECDSAInvalidSignature
    | Some signer => signer <> maker o -> e = InvalidSignature
    end).
  { intros env a s e He Hen H1 H2 H3.
    rewrite fillOrder_transact in He by exact Hen.
    unfold fill_checks in He. revert He.
    case (Z.ltb_spec (expiration o) (block_timestamp env)); [lia | intros _].
    assert (negb (taker o =? 0) && negb (taker o =? msg_sender env) = false) as ->.
    { destruct H2 as [-> | ->]; rewrite ?Z.eqb_refl; simpl;
        [reflexivity | apply andb_false_r]. }
    rewrite H3.
    destruct (ECDSA_recover (_orderHash o) sg) as [signer|]; [|congruence].
    intros He Hne. apply Z.eqb_neq in Hne. rewrite Hne in He.
    cbn [negb] in He. congruence. }
  assert (Hrefused : forall env a s,
    ECDSA_recover (_orderHash o) sg <> Some (maker o) ->
    exists e, transact (fillOrder env o a sg) s = (inl e, s)).
  { intros env a s Hr. apply fillOrder_refused.
    intros p Hp. apply fill_checks_inr in Hp as (_&_&_&Hp&_). contradiction. }
  split; [|split; [|split]].
  - intros s1. rewrite !verifyOrder_eq.
    destruct (ECDSA_recover (_orderHash o) sg); reflexivity.
  - rewrite verifyOrder_eq.
    destruct (ECDSA_recover (_orderHash o) sg) as [signer|] eqn:Hr;
      [|discriminate].
    cbn [fst]. intros [= Hs]. apply Z.eqb_eq in Hs. subst signer.
    intros env a s. split; intros H.
    + apply fillOrder_inl in H as [H | [H | H]]; try discriminate.
      unfold fill_checks in H. rewrite Hr, Z.eqb_refl in H. cbn [negb] in H.
      unfold proportionalBuyAmount, checked_sub, checked_mul, checked_div in H.
      repeat match type of H with
      | context [if ?b then _ else _] => destruct b
      end; discriminate.
    + apply fillOrder_inl in H as [H | [H | H]]; try discriminate.
      unfold fill_checks in H. rewrite Hr, Z.eqb_refl in H. cbn [negb] in H.
      unfold proportionalBuyAmount, checked_sub, checked_mul, checked_div in H.
      repeat match type of H with
      | context [if ?b then _ else _] => destruct b
      end; discriminate.
  - rewrite verifyOrder_eq.
    destruct (ECDSA_recover (_orderHash o) sg) as [signer|] eqn:Hr;
      [|discriminate].
    cbn [fst]. intros [= Hs]. apply Z.eqb_neq in Hs. intros env a s.
    destruct (Hrefused env a s) as [e He]; [congruence|].
    exists e. split; [exact He|]. intros Hen H1 H2 H3.
    specialize (Hgate env a s e He Hen H1 H2 H3). auto.
  - rewrite verifyOrder_eq.
    destruct (ECDSA_recover (_orderHash o) sg) as [signer|] eqn:Hr;
      [discriminate|].
    intros _ env a s.
    destruct (Hrefused env a s) as [e He]; [congruence|].
    exists e. split; [exact He|]. intros Hen H1 H2 H3.
    exact (Hgate env a s e He Hen H1 H2 H3).
Qed.

(** X20 — Scope of the reentrancy guard.  While the guard is held, [deposit],
    [withdraw], [fillOrder] and [fillOrdersBatch] are refused with the
    guard's error and change nothing, but [cancelOrder] and
    [cancelOrdersBatch] carry no guard: a cancellation by the maker goes
    through and sets the flag.  Every guarded call releases the guard: in
    every state reached from deployment it is free. *)
Theorem reentrancy_guard_scope env :
  (forall s, entered s = true ->
     (forall token amount,
        transact (deposit env token amount) s
        = (inl ReentrancyGuardReentrantCall, s)) /\
     (forall token amount,
        transact (withdraw env token amount) s
        = (inl ReentrancyGuardReentrantCall, s)) /\
     (forall o a sg,
        transact (fillOrder env o a sg) s
        = (inl ReentrancyGuardReentrantCall, s)) /\
     (forall os amts sgs,
        transact (fillOrdersBatch env os amts sgs) s
        = (inl ReentrancyGuardReentrantCall, s)) /\
     (forall o, msg_sender env = maker o ->
        exists s',
          transact (cancelOrder env o) s = (inr tt, s') /\
          transact (cancelOrdersBatch env [o]) s = (inr tt, s') /\
          is_cancelled (_orderHash o) s' = true /\ entered s' = true)) /\
  (forall txs x, entered (run txs (initial_state x)) = false).
Proof.
  split.
  - intros s He.
    split; [intros; apply guarded_reentrant, He|].
    split; [intros; apply guarded_reentrant, He|].
    split; [intros; apply guarded_reentrant, He|].
    split; [intros; apply guarded_reentrant, He|].
    intros o Hm. eexists. split; [|split; [|split]].
    + unfold transact. rewrite cancelOrder_eq, Hm, Z.eqb_refl. reflexivity.
    + unfold transact. rewrite cancelOrdersBatch_eq.
      change (MAX_BATCH_SIZE <? Z.of_nat (length [o])) with false.
      cbn [cancel_in_turn]. rewrite bind_unfold, cancelOrder_eq, Hm, Z.eqb_refl.
      reflexivity.
    + change (is_cancelled (_orderHash o)
                (set_cancelled (_orderHash o) true s) = true).
      rewrite is_cancelled_set_cancelled. case_decide; [reflexivity | contradiction].
    + exact He.
  - intros txs x.
    apply (run_inv (fun s => entered s = false)); [|reflexivity].
    intros [env' c] s _. apply step_not_entered.
Qed.


(** ** The relay against the contract *)

(** X22 — The relay's row shows the last fill only.  When the table holds a
    row for a commitment, after an [OrderFilled] event for it and any events
    about other commitments the row records the amount of that one event as
    [amountFilled] -- not the running total the contract keeps -- and is
    FILLED exactly when that one amount covers the order's [amountSell],
    PARTIALLY_FILLED otherwise, whatever its status was before; the signed
    fields and the signature are as before.  An event for a commitment the
    table does not hold is ignored. *)
Theorem relay_records_last_fill d f a rest r :
  Forall (fun e => event_digest e <> Some d) rest ->
  let r' := Relay.listen (OrderFilled d f a :: rest) r in
  match Relay.table r !! d with
  | Some row =>
      Relay.table r' !! d
      = Some (Relay.mkOrderRow (Relay.signed row) a (Relay.signature row)
                (if amountSell (Relay.signed row) <=? a
                 then Relay.FILLED else Relay.PARTIALLY_FILLED))
  | None => Relay.table r' !! d = None
  end.
Proof.
  intros Hrest r'. subst r'.
  change (Relay.listen (OrderFilled d f a :: rest) r)
    with (Relay.listen rest (Relay.processOrderFilledEvent d f a r)).
  rewrite listen_other by exact Hrest.
  rewrite processOrderFilledEvent_row.
  destruct (Relay.table r !! d) as [row|] eqn:E; [|exact E].
  apply lookup_insert_eq.
Qed.



End Claims.

(** * Scenarios on the test double *)

Section Scenarios.
Import Mock MockFacts.

Lemma history_wf : Forall (fun tx => wf_call (snd tx)) history.
Proof. in_range. Qed.

Lemma funded_not_entered : entered funded = false.
Proof. evaluate. Qed.

(** The specification's full-fill scenario: the maker ends with 0 A and 200 B,
    the taker with 100 A and 300 B. *)
Example full_fill_scenario :
  let s := step funded (at_time bob 3, CallFillOrder order1 100 sig1) in
  (balance_of alice tokenA s, balance_of alice tokenB s,
   balance_of bob tokenA s, balance_of bob tokenB s,
   filled_of (_orderHash order1) s)
  = (0, 200, 100, 300, 100).
Proof. evaluate. Qed.

(** C1, on the history: 500 B came in, 30 B went out, the fill moved 80 B
    between accounts and changed nothing of the total. *)
Lemma conservation_of_ledger_totals_witness :
  sum_token tokenB (balances (run history (initial_state wallet)))
  = sum_token tokenB (balances (initial_state wallet))
    + net_custody tokenB history (initial_state wallet).
Proof.
  exact (proj1 (conservation_of_ledger_totals tokenB history (initial_state wallet)
                  (initial_state_wf wallet) history_wf)).
Defined.

Example history_totals :
  sum_token tokenB (balances (run history (initial_state wallet))) = 470 /\
  net_custody tokenB history (initial_state wallet) = 470.
Proof. split; evaluate. Qed.

(** C2, on the history: order1, filled for 40, is within its 100. *)
Lemma fill_counter_monotone_and_bounded_witness :
  filled_of (_orderHash order1) (run history (initial_state wallet))
  <= amountSell order1.
Proof.
  refine (proj1 (proj2 (proj2
            (fill_counter_monotone_and_bounded wallet history history_wf)))
            order1 _).
  in_range.
Defined.

(** C2 as stated fails: asking for 101 of order1, of which 100 remain, after
    its expiry is rejected with OrderExpired, not InsufficientOrderRemaining. *)
Lemma overfill_of_expired_order_raises_OrderExpired :
  amountSell order1 - filled_of (_orderHash order1) funded < 101 /\
  transact (fillOrder (at_time bob 51) order1 101 sig1) funded
  = (inl OrderExpired, funded).
Proof. split; [evaluate | apply transact_fst_inl; evaluate]. Qed.



(** C4, on the second example of the specification: 1 of an order selling 3
    for 10 costs the taker 3, not 4. *)
Lemma fill_moves_proportional_amounts_witness :
  let s' := snd (transact (fillOrder (at_time bob 3) thirds 1 thirds_sig) funded) in
  balance_of alice tokenA s' = balance_of alice tokenA funded - 1 /\
  balance_of alice tokenB s' = balance_of alice tokenB funded + 3 /\
  balance_of bob tokenB s' = balance_of bob tokenB funded - 3 /\
  balance_of bob tokenA s' = balance_of bob tokenA funded + 1.
Proof.
  assert (H : transact (fillOrder (at_time bob 3) thirds 1 thirds_sig) funded
              = (inr tt, snd (transact (fillOrder (at_time bob 3) thirds 1
                                           thirds_sig) funded)))
    by (apply transact_fst_inr; evaluate).
  refine (proj1 (proj2 (proj2 (proj2
            (fill_moves_proportional_amounts (at_time bob 3) thirds 1 thirds_sig
               funded _ H)))) _ _); evaluate.
Defined.

(** C5, on a deposit of the zero token. *)
Lemma deposit_contract_witness :
  transact (deposit (at_time alice 3) 0 5) funded = (inl InvalidTokenAddress, funded).
Proof.
  exact (proj1 (deposit_contract (at_time alice 3) 0 5 funded funded_not_entered)
           eq_refl).
Defined.

(** C5 as stated fails: a deposit of amount 0 is not rejected. *)
Lemma deposit_of_zero_goes_through :
  fst (transact (deposit (at_time alice 3) tokenA 0) funded) = inr tt.
Proof. evaluate. Qed.

(** C6 as stated fails: the empty byte string is no signature, and
    [verifyOrder] does not return false on it, it reverts. *)
Lemma verifyOrder_reverts_on_unparseable_signature :
  ECDSA_recover (_orderHash order1) [] = None /\
  fst (verifyOrder order1 [] funded) = inl ECDSAInvalidSignature.
Proof. split; evaluate. Qed.

(** C7, on a batch whose second element asks for more than its order has
    left: the batch fails with that element's error and nothing changes. *)
Lemma fillOrdersBatch_contract_witness :
  transact (fillOrdersBatch (at_time bob 3) [order1; order2] [40; 51] [sig1; sig2])
    funded
  = (inl InsufficientOrderRemaining, funded).
Proof.
  assert (H : fst (fill_one_by_one (at_time bob 3)
                     (zip3 [order1; order2] [40; 51] [sig1; sig2]) funded)
              = inl InsufficientOrderRemaining) by evaluate.
  assert (Hn : Z.of_nat (length [order1; order2]) <= MAX_BATCH_SIZE) by evaluate.
  rewrite (proj1 (proj2 (proj2
             (fillOrdersBatch_contract (at_time bob 3) [order1; order2] [40; 51]
                [sig1; sig2] funded funded_not_entered))) eq_refl eq_refl Hn).
  destruct (fill_one_by_one (at_time bob 3)
              (zip3 [order1; order2] [40; 51] [sig1; sig2]) funded)
    as [[e|[]] s']; cbn [fst] in H; congruence.
Defined.

Example batch_of_two_succeeds :
  let s := step funded
             (at_time bob 3,
              CallFillOrdersBatch [order1; order2] [40; 50] [sig1; sig2]) in
  (balance_of alice tokenA s, balance_of alice tokenB s,
   balance_of bob tokenA s, balance_of bob tokenB s,
   filled_of (_orderHash order1) s, filled_of (_orderHash order2) s)
  = (10, 180, 90, 320, 40, 50).
Proof. evaluate. Qed.

(** C8 as stated fails: once Alice has cancelled order1, a fill of it after
    its expiry is rejected with OrderExpired, not OrderAlreadyCancelled. *)
Lemma fill_of_cancelled_expired_order_raises_OrderExpired :
  let s := step funded (at_time alice 3, CallCancelOrder order1) in
  is_cancelled (_orderHash order1) s = true /\
  transact (fillOrder (at_time bob 51) order1 40 sig1) s = (inl OrderExpired, s).
Proof. split; [evaluate | apply transact_fst_inl; evaluate]. Qed.

Example fill_of_cancelled_order :
  let s := step funded (at_time alice 3, CallCancelOrder order1) in
  transact (fillOrder (at_time bob 4) order1 40 sig1) s
  = (inl OrderAlreadyCancelled, s).
Proof. apply transact_fst_inl. evaluate. Qed.


(** C10, on an order that sells nothing. *)
Lemma unguarded_division_witness :
  transact (fillOrder (at_time bob 3) hollow 0 hollow_sig) funded
  = (inl (Panic PANIC_DIVISION_BY_ZERO), funded).
Proof.
  assert (H1 : block_timestamp (at_time bob 3) <= expiration hollow) by evaluate.
  assert (H3 : is_cancelled (_orderHash hollow) funded = false) by evaluate.
  assert (H4 : ECDSA_recover (_orderHash hollow) hollow_sig = Some (maker hollow))
    by evaluate.
  assert (H5 : filled_of (_orderHash hollow) funded = 0) by evaluate.
  exact (proj1 (proj1 (unguarded_division (at_time bob 3) hollow 0 hollow_sig
                         funded funded_not_entered H1 (or_introl eq_refl) H3 H4 H5)
                  eq_refl eq_refl)).
Defined.

(** X1, on a withdrawal of more than Alice holds. *)
Lemma withdraw_contract_witness :
  transact (withdraw (at_time alice 3) tokenA 101) funded
  = (inl InsufficientBalance, funded).
Proof.
  refine (proj1 (proj2 (withdraw_contract (at_time alice 3) tokenA 101 funded
                          funded_not_entered)) _ _); evaluate.
Defined.

(** X3, on order1 and its twin. *)
Lemma commitment_identifies_order_witness :
  _orderHash order1 = _orderHash twin <-> order1 = twin.
Proof.
  refine (commitment_identifies_order order1 twin _ _); in_range.
Defined.

(** X4, on order1 after its expiry. *)
Lemma fill_gates_witness :
  transact (fillOrder (at_time bob 51) order1 40 sig1) funded
  = (inl OrderExpired, funded).
Proof.
  refine (proj1 (fill_gates (at_time bob 51) order1 40 sig1 funded
                   funded_not_entered) _).
  evaluate.
Defined.

Example cancel_batch_of_anothers_order :
  fst (transact (cancelOrdersBatch (at_time alice 3) [order1; steep]) funded)
  = inl OnlyMakerCanCancel.
Proof. evaluate. Qed.

Lemma funded_wf : wf_state funded.
Proof.
  unfold funded. apply run_wf; [apply initial_state_wf | in_range].
Qed.

(** X9, on the history in which Alice cancels order2. *)
Lemma only_the_maker_cancels_witness :
  In (OrderCancelled (_orderHash order2) (maker order2))
     (events (run cancelling (initial_state wallet))).
Proof.
  refine (proj2 (only_the_maker_cancels wallet cancelling order2 _ _) _);
    [in_range | in_range | evaluate].
Defined.

(** X13, on the history: the contract holds the 470 B of the ledger. *)
Lemma custody_backs_ledger_witness :
  holding tokenB orderbook_address (tokens (run history (initial_state wallet)))
  = holding tokenB orderbook_address wallet
    + sum_token tokenB (balances (run history (initial_state wallet))).
Proof.
  refine (proj2 (custody_backs_ledger (fun t x => holding t orderbook_address x)
                   history tokenB mock_standard_token _) wallet).
  repeat first [apply Forall_cons_2 | apply Forall_nil_2]; vm_compute; discriminate.
Defined.

Example custody_of_the_history :
  holding tokenB orderbook_address (tokens (run history (initial_state wallet)))
  = 470.
Proof. evaluate. Qed.


(** X15, on order1 once it is filled completely: Carol, who holds nothing,
    fills it for zero. *)
Lemma zero_fill_witness :
  let s := step funded (at_time bob 3, CallFillOrder order1 100 sig1) in
  exists s',
    transact (fillOrder (at_time carol 4) order1 0 sig1) s = (inr tt, s') /\
    (forall user t, balance_of user t s' = balance_of user t s) /\
    (forall d, filled_of d s' = filled_of d s) /\
    cancelledOrders s' = cancelledOrders s /\
    events s'
    = events s ++ [OrderFilled (_orderHash order1) (msg_sender (at_time carol 4)) 0].
Proof.
  cbv zeta.
  refine (zero_fill (at_time carol 4) order1 sig1 _ _ _ _ _ _ _ _ _).
  - evaluate.
  - refine (proj1 (step_wf funded (at_time bob 3, CallFillOrder order1 100 sig1)
                     funded_wf _)). in_range.
  - evaluate.
  - left. reflexivity.
  - evaluate.
  - evaluate.
  - split; evaluate.
  - evaluate.
Defined.

Example order1_filled_completely :
  let s := step funded (at_time bob 3, CallFillOrder order1 100 sig1) in
  filled_of (_orderHash order1) s = amountSell order1.
Proof. evaluate. Qed.

(** X16, on an order selling 100 A for 50 B: Carol, who holds no B, takes 1 A
    and pays nothing. *)
Lemma dust_fill_is_free_witness :
  exists s',
    transact (fillOrder (at_time carol 3) cheap 1 cheap_sig) funded = (inr tt, s') /\
    forall user t,
      balance_of user t s'
      = balance_of user t funded
        - (if decide ((maker cheap, tokenSell cheap) = (user, t)) then 1 else 0)
        + (if decide ((msg_sender (at_time carol 3), tokenSell cheap) = (user, t))
           then 1 else 0).
Proof.
  refine (dust_fill_is_free (at_time carol 3) cheap 1 cheap_sig funded
            funded_not_entered (proj1 funded_wf) _ _ _ _ _ _ _ _ _).
  - in_range.
  - evaluate.
  - left. reflexivity.
  - evaluate.
  - evaluate.
  - split; evaluate.
  - evaluate.
  - evaluate.
  - evaluate.
Defined.

Example carol_holds_no_B : balance_of carol tokenB funded = 0.
Proof. evaluate. Qed.

(** X17, on the order selling 3 for 10: filled 1 and then 2 the maker
    receives 3 + 6, filled 3 at once 10. *)
Lemma split_fill_rounding_witness :
  let env := at_time bob 3 in
  let s1 := snd (transact (fillOrder env thirds 1 thirds_sig) funded) in
  let s2 := snd (transact (fillOrder env thirds 2 thirds_sig) s1) in
  let s12 := snd (transact (fillOrder env thirds (1 + 2) thirds_sig) funded) in
  balance_of (maker thirds) (tokenSell thirds) s2
  = balance_of (maker thirds) (tokenSell thirds) s12 /\
  filled_of (_orderHash thirds) s2 = filled_of (_orderHash thirds) s12 /\
  balance_of (maker thirds) (tokenBuy thirds) s2
  <= balance_of (maker thirds) (tokenBuy thirds) s12
  <= balance_of (maker thirds) (tokenBuy thirds) s2 + 1.
Proof.
  cbv zeta.
  assert (H1 : transact (fillOrder (at_time bob 3) thirds 1 thirds_sig) funded
               = (inr tt, snd (transact (fillOrder (at_time bob 3) thirds 1
                                            thirds_sig) funded)))
    by (apply transact_fst_inr; evaluate).
  assert (H2 : transact (fillOrder (at_time bob 3) thirds 2 thirds_sig)
                 (snd (transact (fillOrder (at_time bob 3) thirds 1 thirds_sig)
                         funded))
               = (inr tt,
                  snd (transact (fillOrder (at_time bob 3) thirds 2 thirds_sig)
                         (snd (transact (fillOrder (at_time bob 3) thirds 1
                                           thirds_sig) funded)))))
    by (apply transact_fst_inr; evaluate).
  assert (H12 : transact (fillOrder (at_time bob 3) thirds (1 + 2) thirds_sig) funded
                = (inr tt, snd (transact (fillOrder (at_time bob 3) thirds (1 + 2)
                                             thirds_sig) funded)))
    by (apply transact_fst_inr; evaluate).
  refine (split_fill_rounding (at_time bob 3) thirds 1 2 thirds_sig funded _ _ _
            _ _ _ _ _ H1 H2 H12).
  - in_range.
  - evaluate.
  - evaluate.
  - evaluate.
  - evaluate.
Defined.

Example split_fill_amounts :
  let env := at_time bob 3 in
  let s1 := snd (transact (fillOrder env thirds 1 thirds_sig) funded) in
  let s2 := snd (transact (fillOrder env thirds 2 thirds_sig) s1) in
  let s12 := snd (transact (fillOrder env thirds 3 thirds_sig) funded) in
  (balance_of alice tokenB s2, balance_of alice tokenB s12) = (9, 10).
Proof. evaluate. Qed.

(** X18, on Alice filling 1 of her own order. *)
Lemma self_fill_witness :
  let s' := snd (transact (fillOrder (at_time alice 3) cheap 1 cheap_sig) funded) in
  filled_of (_orderHash cheap) s' = filled_of (_orderHash cheap) funded + 1.
Proof.
  cbv zeta.
  assert (H : transact (fillOrder (at_time alice 3) cheap 1 cheap_sig) funded
              = (inr tt, snd (transact (fillOrder (at_time alice 3) cheap 1
                                           cheap_sig) funded)))
    by (apply transact_fst_inr; evaluate).
  refine (proj2 (self_fill (at_time alice 3) cheap 1 cheap_sig funded _ _ H)).
  evaluate.
Defined.


(** X22, on order1 filled for 40 and then for 60: the row shows 60, and is
    not FILLED. *)
Lemma relay_records_last_fill_witness :
  let h := _orderHash order1 in
  let r := Relay.listen [OrderFilled h bob 40] book in
  Relay.table (Relay.listen [OrderFilled h bob 60] r) !! h
  = Some (Relay.mkOrderRow order1 60 sig1 Relay.PARTIALLY_FILLED).
Proof.
  intros h r.
  pose proof (relay_records_last_fill h bob 60 [] r (Forall_nil_2 _)) as H.
  cbv zeta in H.
  assert (E : Relay.table r !! h
              = Some (Relay.mkOrderRow order1 40 sig1 Relay.PARTIALLY_FILLED))
    by evaluate.
  rewrite E in H. exact H.
Defined.

(** The contract's counter of order1 after the two fills is 100, all the order
    sells; the relay, fed with the contract's log, shows 60 and
    PARTIALLY_FILLED. *)
Example relay_misses_a_fill_in_two_parts :
  let s := run two_fills (initial_state wallet) in
  let row := Relay.table (Relay.listen (events s) book) !! _orderHash order1 in
  filled_of (_orderHash order1) s = amountSell order1 /\
  Relay.amountFilled <$> row = Some 60 /\
  Relay.status <$> row = Some Relay.PARTIALLY_FILLED.
Proof. cbv zeta. split; [|split]; evaluate. Qed.



(** X10, on order1 after its two fills. *)
Lemma every_fill_is_authorised_witness :
  exists sg, ECDSA_recover (_orderHash order1) sg = Some (maker order1).
Proof.
  refine (proj2 (every_fill_is_authorised wallet two_fills order1 _ _) _);
    [in_range | in_range | evaluate].
Defined.

(** X12, on Bob filling Alice's order1: Carol's entries do not go down. *)
Lemma no_debit_without_consent_witness :
  balance_of carol tokenA funded
  <= balance_of carol tokenA
       (step funded (at_time bob 3, CallFillOrder order1 40 sig1)).
Proof.
  refine (no_debit_without_consent (at_time bob 3) (CallFillOrder order1 40 sig1)
            carol tokenA funded _ _ _).
  - in_range.
  - evaluate.
  - intros o a sg [[= <- <- <-] | []] Hm. vm_compute in Hm. discriminate Hm.
Defined.

End Scenarios.
